(** * laser-dac: the Ether Dream streaming client and the path drawer

    A shallow embedding of [packages/ether-dream/src/EtherConn.ts] and of
    [packages/draw/src/Path.ts], with the properties their specification
    states about them.

    Conventions of the embedding.
    - A JavaScript binary string, a [Buffer] and an array of byte values are
      all [list Z] (character codes, resp. byte values).
    - Integral JavaScript numbers are [Z]; array lengths and sizes are [nat].
    - The mutable [EtherConn] object is a record threaded through a [World],
      which also holds what the object does to its environment: the chunks
      written to the socket, sockets destroyed, and the response callbacks
      that were invoked, in the order in which these happened.
    - An [async] method is a resumption: it runs until it returns, throws, or
      reaches an [await] of a pending promise or of a timer, where it hands
      back its continuation ([Step]).  The event loop ([deliver], [elapse])
      resumes it.  One body is followed at a time: the scheduler [run] and
      the commands it issues.
    - Of [connect], the assignments, the connection listener and the
      ['data'] listener are modelled; the promise that it returns, the
      ['error'] and ['end'] listeners and [console] output are not.
    - [write.ts], [parse.ts], and the [Line], [Curve] and [Point] classes
      are not among the sources: the first two are modelled from the
      specification, the classes are parameters of [Path.draw].  So is
      the parser of svg-pathdata, which returns the commands of a path or
      throws. *)

From Stdlib Require Import String.
From Stdlib Require Import ZArith List Bool Lia.
Import ListNotations.
Local Open Scope Z_scope.

(* ------------------------------------------------------------------ *)
(** ** write.ts *)

Module Writer.

(** Modelled from the spec: [write.ts] is not among the sources.  The spec
    fixes the wire codec as fixed-width little-endian integers of 16 and 32
    bits, signed and unsigned; each function returns the binary string of
    its bytes, lowest byte first. *)
Definition writeUnsignedInt16 (n : Z) : list Z :=
  [Z.land n 255; Z.land (Z.shiftr n 8) 255].

(** Modelled from the spec: the signed 16-bit field, little-endian, in two's
    complement ([Z.land] and [Z.shiftr] are two's complement on negative
    numbers). *)
Definition writeSignedInt16 (n : Z) : list Z :=
  [Z.land n 255; Z.land (Z.shiftr n 8) 255].

(** Modelled from the spec: the unsigned 32-bit field, little-endian. *)
Definition writeUnsignedInt32 (n : Z) : list Z :=
  [Z.land n 255; Z.land (Z.shiftr n 8) 255;
   Z.land (Z.shiftr n 16) 255; Z.land (Z.shiftr n 24) 255].

End Writer.

(* ------------------------------------------------------------------ *)
(** ** parse.ts *)

Module Parser.

Record dac_status := mkStatus {
  buffer_fullness : Z;
  playback_state : Z;
  playback_flags : Z
}.

Record pstdReturnType := mkResponse {
  response : Z;            (* the response character, as its code *)
  status : dac_status
}.

Definition readUnsignedInt16 (data : list Z) (offset : nat) : Z :=
  nth offset data 0 + 256 * nth (S offset) data 0.

(** Modelled from the spec: [parse.ts] is not among the sources.  The spec
    makes byte 0 the response code and reads the status block at fixed
    protocol offsets, little-endian; the offsets are those of the Ether Dream
    [dac_response] layout (playback state at byte 4, playback flags at bytes
    8-9, buffer fullness at bytes 12-13).  The callers below only decode what
    the demultiplexer hands over; the framing error on fewer than 22 bytes is
    not modelled, a missing byte reads as 0. *)
Definition parseStandardResponse (data : list Z) : pstdReturnType :=
  {| response := nth 0 data 0;
     status := {| buffer_fullness := readUnsignedInt16 data 12;
                  playback_state := nth 4 data 0;
                  playback_flags := readUnsignedInt16 data 8 |} |}.

End Parser.

(* ------------------------------------------------------------------ *)
(** ** EtherConn.ts: constants and data *)

Definition STANDARD_RESPONSE_SIZE : nat := 22.
Definition PLAYBACK_IDLE : Z := 0.
Definition MAX_FULLNESS : Z := 1799.

(** The character codes the source writes as string literals. *)
Definition chr_a : Z := 97.
Definition chr_b : Z := 98.
Definition chr_d : Z := 100.
Definition chr_p : Z := 112.
Definition chr_s : Z := 115.
Definition chr_u : Z := 117.
Definition chr_question : Z := 63.
Definition chr_xFF : Z := 255.

Module IPoint.
Record t := mk {
  x : Z;
  y : Z;
  r : Z;
  g : Z;
  b : Z;
  control : option Z;
  i : option Z;
  u1 : option Z;
  u2 : option Z
}.
End IPoint.

(** [() => IPoint[]]: what a call of the source returns, as the points of
    the array.  An invocation of [run] calls the source once.  It empties
    the array it was given with [frame.splice], which a source that keeps
    this array sees at its later calls: a statement over several
    invocations says what each call returns (see [returning] below). *)
Definition StreamFrameCallback := unit -> list IPoint.t.

(** [v || d] on a possibly undefined number: [undefined] and [0] are falsy. *)
Definition js_or (v : option Z) (d : Z) : Z :=
  match v with
  | Some n => if n =? 0 then d else n
  | None => d
  end.

(** Truthiness of a possibly undefined number, as in [if (rate)]. *)
Definition truthy (v : option Z) : bool :=
  match v with
  | Some n => negb (n =? 0)
  | None => false
  end.

Definition Socket := nat.
Definition PromiseId := nat.

(** An entry of [inputhandlerqueue].  The only callbacks the class ever
    queues are the closures built by [waitForResponse]; such a closure is
    determined by the promise it resolves. *)
Record Handler := mkHandler {
  size : nat;
  callback : PromiseId
}.

Record EtherConn := mkEtherConn {
  client : option Socket;
  inputqueue : list Z;
  inputhandlerqueue : list Handler;
  timer : Z;
  acks : Z;
  fullness : Z;
  points_in_buffer : Z;
  playback_state : Z;
  playsent : bool;
  beginsent : bool;
  preparesent : bool;
  valid : bool;
  rate : option Z;
  streamCallback : option StreamFrameCallback;
  running : bool;
  ip : option String.string;
  port : option Z
}.

(** The field initialisers of the class: a freshly constructed session. *)
Definition initial : EtherConn :=
  {| client := None; inputqueue := []; inputhandlerqueue := [];
     timer := 0; acks := 0; fullness := 0; points_in_buffer := 0;
     playback_state := 0; playsent := false; beginsent := false;
     preparesent := false; valid := true; rate := None;
     streamCallback := None; running := false; ip := None; port := None |}.

(** Assignments to single fields. *)
Definition set_client (v : option Socket) (c : EtherConn) : EtherConn :=
  mkEtherConn v (inputqueue c) (inputhandlerqueue c) (timer c) (acks c)
    (fullness c) (points_in_buffer c) (playback_state c) (playsent c)
    (beginsent c) (preparesent c) (valid c) (rate c) (streamCallback c)
    (running c) (ip c) (port c).

Definition set_inputqueue (v : list Z) (c : EtherConn) : EtherConn :=
  mkEtherConn (client c) v (inputhandlerqueue c) (timer c) (acks c)
    (fullness c) (points_in_buffer c) (playback_state c) (playsent c)
    (beginsent c) (preparesent c) (valid c) (rate c) (streamCallback c)
    (running c) (ip c) (port c).

Definition set_inputhandlerqueue (v : list Handler) (c : EtherConn) : EtherConn :=
  mkEtherConn (client c) (inputqueue c) v (timer c) (acks c)
    (fullness c) (points_in_buffer c) (playback_state c) (playsent c)
    (beginsent c) (preparesent c) (valid c) (rate c) (streamCallback c)
    (running c) (ip c) (port c).

Definition set_fullness (v : Z) (c : EtherConn) : EtherConn :=
  mkEtherConn (client c) (inputqueue c) (inputhandlerqueue c) (timer c) (acks c)
    v (points_in_buffer c) (playback_state c) (playsent c)
    (beginsent c) (preparesent c) (valid c) (rate c) (streamCallback c)
    (running c) (ip c) (port c).

Definition set_playback_state (v : Z) (c : EtherConn) : EtherConn :=
  mkEtherConn (client c) (inputqueue c) (inputhandlerqueue c) (timer c) (acks c)
    (fullness c) (points_in_buffer c) v (playsent c)
    (beginsent c) (preparesent c) (valid c) (rate c) (streamCallback c)
    (running c) (ip c) (port c).

Definition set_beginsent (v : bool) (c : EtherConn) : EtherConn :=
  mkEtherConn (client c) (inputqueue c) (inputhandlerqueue c) (timer c) (acks c)
    (fullness c) (points_in_buffer c) (playback_state c) (playsent c)
    v (preparesent c) (valid c) (rate c) (streamCallback c)
    (running c) (ip c) (port c).

Definition set_preparesent (v : bool) (c : EtherConn) : EtherConn :=
  mkEtherConn (client c) (inputqueue c) (inputhandlerqueue c) (timer c) (acks c)
    (fullness c) (points_in_buffer c) (playback_state c) (playsent c)
    (beginsent c) v (valid c) (rate c) (streamCallback c)
    (running c) (ip c) (port c).

Definition set_valid (v : bool) (c : EtherConn) : EtherConn :=
  mkEtherConn (client c) (inputqueue c) (inputhandlerqueue c) (timer c) (acks c)
    (fullness c) (points_in_buffer c) (playback_state c) (playsent c)
    (beginsent c) (preparesent c) v (rate c) (streamCallback c)
    (running c) (ip c) (port c).

Definition set_rate (v : option Z) (c : EtherConn) : EtherConn :=
  mkEtherConn (client c) (inputqueue c) (inputhandlerqueue c) (timer c) (acks c)
    (fullness c) (points_in_buffer c) (playback_state c) (playsent c)
    (beginsent c) (preparesent c) (valid c) v (streamCallback c)
    (running c) (ip c) (port c).

Definition set_streamCallback (v : option StreamFrameCallback) (c : EtherConn)
  : EtherConn :=
  mkEtherConn (client c) (inputqueue c) (inputhandlerqueue c) (timer c) (acks c)
    (fullness c) (points_in_buffer c) (playback_state c) (playsent c)
    (beginsent c) (preparesent c) (valid c) (rate c) v
    (running c) (ip c) (port c).

(* ------------------------------------------------------------------ *)
(** ** The environment of a session *)

(** What a session does that its environment can see. *)
Inductive Obs :=
| Written (c : Socket) (data : list Z)    (* client.write(buffer) *)
| Destroyed (c : Socket)                  (* client.destroy() *)
| Invoked (p : PromiseId) (data : list Z) (* handler.callback(response) *).

Record World := mkWorld {
  self : EtherConn;
  trace : list Obs;
  (* the promises created by waitForResponse: the next identity, and a log
     of creations (pending) and resolutions (with the value), latest first *)
  next_promise : PromiseId;
  promises : list (PromiseId * option (list Z))
}.

Fixpoint promise_state (log : list (PromiseId * option (list Z)))
  (p : PromiseId) : option (list Z) :=
  match log with
  | [] => None
  | (q, v) :: log => if Nat.eqb q p then v else promise_state log p
  end.

(** The value a promise was resolved with, [None] while it is pending. *)
Definition settled (w : World) (p : PromiseId) : option (list Z) :=
  promise_state (promises w) p.

Definition with_self (f : EtherConn -> EtherConn) (w : World) : World :=
  mkWorld (f (self w)) (trace w) (next_promise w) (promises w).

Definition observe (o : Obs) (w : World) : World :=
  mkWorld (self w) (trace w ++ [o]) (next_promise w) (promises w).

(** [new Promise(...)]: a fresh identity, pending. *)
Definition new_promise (w : World) : PromiseId * World :=
  let p := next_promise w in
  (p, mkWorld (self w) (trace w) (S p) ((p, None) :: promises w)).

(** [resolve(data)]; resolving a resolved promise again changes nothing. *)
Definition resolve (p : PromiseId) (data : list Z) (w : World) : World :=
  match settled w p with
  | Some _ => w
  | None =>
      mkWorld (self w) (trace w) (next_promise w)
        ((p, Some data) :: promises w)
  end.

Inductive Exn :=
| Error (message : String.string)
| TypeError (message : String.string).

(** The outcome of running an [async] body as far as it goes. *)
Inductive Step (A : Type) : Type :=
| Done (w : World) (a : A)
| Threw (w : World) (e : Exn)
| AwaitPromise (w : World) (p : PromiseId) (k : list Z -> World -> Step A)
| AwaitDelay (w : World) (t : Z) (k : World -> Step A).

Arguments Done {A} w a.
Arguments Threw {A} w e.
Arguments AwaitPromise {A} w p k.
Arguments AwaitDelay {A} w t k.

Definition Async (A : Type) : Type := World -> Step A.

Definition ret {A} (a : A) : Async A := fun w => Done w a.

Definition throw {A} (e : Exn) : Async A := fun w => Threw w e.

Fixpoint bindS {A B} (s : Step A) (f : A -> Async B) : Step B :=
  match s with
  | Done w a => f a w
  | Threw w e => Threw w e
  | AwaitPromise w p k => AwaitPromise w p (fun d w' => bindS (k d w') f)
  | AwaitDelay w t k => AwaitDelay w t (fun w' => bindS (k w') f)
  end.

Definition bind {A B} (m : Async A) (f : A -> Async B) : Async B :=
  fun w => bindS (m w) f.

Declare Scope async_scope.
Delimit Scope async_scope with async.
Notation "x <- m ;; k" := (bind m (fun x => k))
  (at level 61, m at next level, right associativity) : async_scope.
Notation "m ;;; k" := (bind m (fun _ => k))
  (at level 61, right associativity) : async_scope.
Local Open Scope async_scope.

(** Reading [this], and a synchronous update of the world. *)
Definition this : Async EtherConn := fun w => Done w (self w).

Definition effect (f : World -> World) : Async unit := fun w => Done (f w) tt.

(** [await p]: the body goes on at once with the value of a promise that is
    already resolved, and is suspended on a pending one.  (JavaScript defers
    the first case to a microtask; nothing else of this class runs before
    that microtask, so the effect is the same.) *)
Definition await (p : PromiseId) : Async (list Z) := fun w =>
  match settled w p with
  | Some data => Done w data
  | None => AwaitPromise w p (fun data w' => Done w' data)
  end.

(** [await delay(t)] *)
Definition delay (t : Z) : Async unit := fun w =>
  AwaitDelay w t (fun w' => Done w' tt).

(* ------------------------------------------------------------------ *)
(** ** EtherConn.ts: the methods *)

(** [Buffer.from(sendcommand, 'binary')]: one byte per character, its code
    reduced to eight bits. *)
Definition Buffer_from_binary (sendcommand : list Z) : list Z :=
  map (fun c => Z.land c 255) sendcommand.

Definition handleStandardResponse (data : Parser.pstdReturnType)
  (c : EtherConn) : EtherConn :=
  let c := set_fullness (Parser.buffer_fullness (Parser.status data)) c in
  let c := set_playback_state (Parser.playback_state (Parser.status data)) c in
  let c := set_valid (Parser.response data =? chr_a) c in
  if Parser.playback_flags (Parser.status data) =? 2 then
    (* buffer underrun flagged. *)
    set_beginsent false c
  else c.

(** The closure [callback] of [waitForResponse], for the promise [p] whose
    [resolve] it captured. *)
Definition waitForResponse_callback (p : PromiseId) (data : list Z)
  (w : World) : World :=
  let st := Parser.parseStandardResponse data in
  let w := with_self (handleStandardResponse st) w in
  resolve p data w.

(** [handler.callback(response)] *)
Definition call (handler : Handler) (response : list Z) (w : World) : World :=
  waitForResponse_callback (callback handler) response
    (observe (Invoked (callback handler) response) w).

Definition _popinputqueue (w : World) : World :=
  match inputhandlerqueue (self w) with
  | handler :: rest =>
      if (size handler <=? length (inputqueue (self w)))%nat then
        (* splice(0, handler.size) on the bytes, splice(0, 1) on the handlers *)
        let response := firstn (size handler) (inputqueue (self w)) in
        let w := with_self
                   (set_inputqueue (skipn (size handler) (inputqueue (self w))))
                   w in
        let w := with_self (set_inputhandlerqueue rest) w in
        call handler response w
      else w
  | [] => w
  end.

(** [this.client!.write(...)] on an absent client is a [TypeError]. *)
Definition _send (sendcommand : list Z) : Async unit := fun w =>
  match client (self w) with
  | Some c =>
      Done (_popinputqueue
              (observe (Written c (Buffer_from_binary sendcommand)) w)) tt
  | None => Threw w (TypeError "Cannot read properties of undefined"%string)
  end.

(** The ['data'] listener armed by [connect]: the bytes are pushed at once,
    the queue is looked at in a zero-delay timer. *)
Definition onData (data : list Z) (w : World) : World :=
  with_self (fun c => set_inputqueue (inputqueue c ++ data) c) w.

Definition onData_timeout (w : World) : World := _popinputqueue w.

(** The promise that [waitForResponse] returns; its executor has run. *)
Definition waitForResponse (size : nat) : Async PromiseId := fun w =>
  let (p, w) := new_promise w in
  let w := with_self
             (fun c => set_inputhandlerqueue
                         (inputhandlerqueue c ++ [mkHandler size p]) c) w in
  Done (_popinputqueue w) p.

Definition sendPrepare : Async unit :=
  _send [chr_p] ;;;
  p <- waitForResponse STANDARD_RESPONSE_SIZE ;;
  _ <- await p ;;
  effect (with_self (set_preparesent true)).

Definition sendBegin (rate : option Z) : Async unit :=
  match rate with
  | Some rate =>
      if rate =? 0 then
        throw (Error "Call streamFrames(rate, callback) first"%string)
      else
        let lwm := 0 in
        let cmd := [chr_b] ++ Writer.writeUnsignedInt16 lwm
                     ++ Writer.writeUnsignedInt32 rate in
        _send cmd ;;;
        p <- waitForResponse STANDARD_RESPONSE_SIZE ;;
        _ <- await p ;;
        effect (with_self (set_beginsent true))
  | None => throw (Error "Call streamFrames(rate, callback) first"%string)
  end.

Definition sendUpdate (rate : Z) : Async unit :=
  let lwm := 0 in
  let cmd := [chr_u] ++ Writer.writeUnsignedInt16 lwm
               ++ Writer.writeUnsignedInt32 rate in
  _send cmd ;;;
  p <- waitForResponse STANDARD_RESPONSE_SIZE ;;
  _ <- await p ;;
  effect (with_self (set_beginsent true)).

Definition sendStop : Async unit :=
  _send [chr_s] ;;;
  p <- waitForResponse STANDARD_RESPONSE_SIZE ;;
  _ <- await p ;;
  ret tt.

Definition sendEmergencyStop : Async unit :=
  _send [chr_xFF] ;;;
  p <- waitForResponse STANDARD_RESPONSE_SIZE ;;
  _ <- await p ;;
  ret tt.

Definition sendPing : Async unit :=
  _send [chr_question] ;;;
  p <- waitForResponse STANDARD_RESPONSE_SIZE ;;
  _ <- await p ;;
  ret tt.

(** One turn of the loop of [sendPoints]: [cmd += ...] for the point [p]. *)
Definition appendPoint (cmd : list Z) (p : IPoint.t) : list Z :=
  let cmd := cmd ++ Writer.writeUnsignedInt16 (js_or (IPoint.control p) 0) in
  let cmd := cmd ++ Writer.writeSignedInt16 (js_or (Some (IPoint.x p)) 0) in
  let cmd := cmd ++ Writer.writeSignedInt16 (js_or (Some (IPoint.y p)) 0) in
  let cmd := cmd ++ Writer.writeUnsignedInt16 (js_or (Some (IPoint.r p)) 0) in
  let cmd := cmd ++ Writer.writeUnsignedInt16 (js_or (Some (IPoint.g p)) 0) in
  let cmd := cmd ++ Writer.writeUnsignedInt16 (js_or (Some (IPoint.b p)) 0) in
  let cmd := cmd ++ Writer.writeUnsignedInt16 (js_or (IPoint.i p) 0) in
  let cmd := cmd ++ Writer.writeUnsignedInt16 (js_or (IPoint.u1 p) 0) in
  let cmd := cmd ++ Writer.writeUnsignedInt16 (js_or (IPoint.u2 p) 0) in
  cmd.

(** The command string that [sendPoints] builds. *)
Definition sendPoints_cmd (points : list IPoint.t) : list Z :=
  let batch := Z.of_nat (length points) in
  let cmd := [chr_d] ++ Writer.writeUnsignedInt16 batch in
  fold_left appendPoint points cmd.

Definition sendPoints (points : list IPoint.t) : Async unit :=
  _send (sendPoints_cmd points) ;;;
  p <- waitForResponse STANDARD_RESPONSE_SIZE ;;
  _ <- await p ;;
  c <- this ;;
  if valid c then
    if negb (beginsent c) then sendBegin (rate c) else ret tt
  else
    (* only a warning is printed; the reconnect is commented out *)
    ret tt.

Definition streamFrames (rate : option Z)
  (callback : option StreamFrameCallback) (w : World) : World :=
  let w := if truthy rate then with_self (set_rate rate) w else w in
  match callback with
  | Some cb => with_self (set_streamCallback (Some cb)) w
  | None => w
  end.

(** How an invocation of [run] ends: with the call [this.run()] that starts
    the next one, or with a plain [return]. *)
Inductive Next := Recurse | Return.

(** The spare capacity that [run] computes: [Math.max(0, MAX_FULLNESS -
    this.fullness)]. *)
Definition spare_capacity (fullness : Z) : Z :=
  Z.max 0 (MAX_FULLNESS - fullness).

(** [frame.splice(0, cap)]: the elements that it returns, the first [cap]
    of the frame.  (It also removes them from [frame], which this
    invocation of [run] does not read again.) *)
Definition splice0 {A} (frame : list A) (cap : Z) : list A :=
  firstn (Z.to_nat cap) frame.

(** One invocation of [run], up to its final [this.run()]. *)
Definition run : Async Next :=
  c <- this ;;
  if negb (running c) then ret Return
  else
    match streamCallback c with
    | None => delay 0 ;;; ret Recurse
    | Some streamCallback =>
        let frame := streamCallback tt in
        (* If not yet playing, send the prepare command first *)
        c <- this ;;
        (if playback_state c =? PLAYBACK_IDLE then sendPrepare else ret tt) ;;;
        c <- this ;;
        let cap := spare_capacity (fullness c) in
        cap <- (if cap <? 100 then delay 5 ;;; ret (cap + 150) else ret cap) ;;
        let points := splice0 frame cap in
        sendPoints points ;;;
        ret Recurse
    end.

(** [n] invocations of [run] in a row, each started by the last statement
    of the one before. *)
Fixpoint run_loop (n : nat) : Async unit :=
  match n with
  | O => ret tt
  | S n =>
      next <- run ;;
      match next with
      | Recurse => run_loop n
      | Return => ret tt
      end
  end.

Definition close (w : World) : World :=
  let c := self w in
  let w := with_self (fun c =>
    {| client := client c;
       inputqueue := [];
       inputhandlerqueue := [];
       timer := 0;
       acks := 0;
       fullness := 0;
       points_in_buffer := 0;
       playback_state := 0;
       playsent := false;
       beginsent := false;
       preparesent := false;
       valid := true;
       rate := rate c;
       (* On purpose do not clear streamCallback so it is easy to reconnect *)
       streamCallback := streamCallback c;
       running := false;
       ip := ip c;
       port := port c |}) w in
  match client c with
  | Some s => with_self (set_client None) (observe (Destroyed s) w)
  | None => w
  end.

(* ------------------------------------------------------------------ *)
(** ** The event loop, for one suspended body *)

Definition world_of {A} (s : Step A) : World :=
  match s with
  | Done w _ | Threw w _ | AwaitPromise w _ _ | AwaitDelay w _ _ => w
  end.

(** A callback of the event loop runs while the body is suspended. *)
Definition in_world {A} (f : World -> World) (s : Step A) : Step A :=
  match s with
  | Done w a => Done (f w) a
  | Threw w e => Threw (f w) e
  | AwaitPromise w p k => AwaitPromise (f w) p k
  | AwaitDelay w t k => AwaitDelay (f w) t k
  end.

(** After a callback, the body goes on if the promise it awaits is resolved. *)
Definition resume {A} (s : Step A) : Step A :=
  match s with
  | AwaitPromise w p k =>
      match settled w p with
      | Some data => k data w
      | None => s
      end
  | _ => s
  end.

(** The socket delivers a chunk: the listener, then its timer. *)
Definition feed (data : list Z) (w : World) : World :=
  onData_timeout (onData data w).

Definition deliver {A} (data : list Z) (s : Step A) : Step A :=
  resume (in_world (feed data) s).

(** The timer of a [delay] fires. *)
Definition elapse {A} (s : Step A) : Step A :=
  match s with
  | AwaitDelay w t k => k w
  | _ => s
  end.

Definition feeds (chunks : list (list Z)) (w : World) : World :=
  fold_left (fun w data => feed data w) chunks w.

(** The two callbacks may also be run apart: other chunks can come in
    before the timer of a chunk fires. *)
Inductive Macrotask :=
| Chunk (data : list Z)
| Timer.

Definition macrotask (m : Macrotask) (w : World) : World :=
  match m with
  | Chunk data => onData data w
  | Timer => onData_timeout w
  end.

Definition play (ms : list Macrotask) (w : World) : World :=
  fold_left (fun w m => macrotask m w) ms w.

Fixpoint received (ms : list Macrotask) : list Z :=
  match ms with
  | [] => []
  | Chunk data :: ms => data ++ received ms
  | Timer :: ms => received ms
  end.

Fixpoint timers (ms : list Macrotask) : nat :=
  match ms with
  | [] => 0
  | Chunk _ :: ms => timers ms
  | Timer :: ms => S (timers ms)
  end.

Definition schedule (chunks : list (list Z)) : list Macrotask :=
  flat_map (fun data => [Chunk data; Timer]) chunks.

(** The demultiplexer looked at [n] more times. *)
Fixpoint pops (n : nat) (w : World) : World :=
  match n with
  | O => w
  | S n => pops n (_popinputqueue w)
  end.

(* ------------------------------------------------------------------ *)
(** ** Path.ts *)

Module Path.

(** What [draw] returns to its caller: a value, or an [Error] thrown. *)
Inductive Result (A : Type) : Type :=
| Ok (a : A)
| Throw (message : string).

Arguments Ok {A} a.
Arguments Throw {A} message.

Definition smooth_curve_error : string :=
  "Path parsing error: smooth curve command called without a prior curve command.".

Definition close_path_error : string :=
  "Path parsing error: close path command called without a prior move command.".

Section Draw.

(** JavaScript numbers with their division, and the collaborators whose
    sources are other files: points, colours, [Line] and [Curve]. *)
Variable num : Type.
Variable div : num -> num -> num.
Variable zero : num.
Variables Point Color : Type.
Variable new_Point : num -> num -> Point.
(* new Line({from: {x, y}, to: {x, y}, color}).draw(resolution) *)
Variable Line_draw : num * num -> num * num -> Color -> num -> list Point.
(* new Curve({from: {x, y, control}, to: {x, y, control}, color})
     .draw(resolution), each end given as (x, y, control.x, control.y) *)
Variable Curve_draw :
  num * num * (num * num) -> num * num * (num * num) -> Color -> num ->
  list Point.

(** The commands of svg-pathdata, absolute (after [toAbs()]). *)
Inductive Command :=
| MOVE_TO (x y : num)
| HORIZ_LINE_TO (x : num)
| VERT_LINE_TO (y : num)
| LINE_TO (x y : num)
| CURVE_TO (x1 y1 x2 y2 x y : num)
| SMOOTH_CURVE_TO (x2 y2 x y : num)
| QUAD_TO (x1 y1 x y : num)
| SMOOTH_QUAD_TO (x y : num)
| ARC (rX rY xRot lArcFlag sweepFlag x y : num)
| CLOSE_PATH.

(** The kinds of command that the sequencing of [draw] depends on. *)
Definition is_curve (command : Command) : bool :=
  match command with
  | CURVE_TO _ _ _ _ _ _ => true
  | _ => false
  end.

Definition is_smooth_curve (command : Command) : bool :=
  match command with
  | SMOOTH_CURVE_TO _ _ _ _ => true
  | _ => false
  end.

Definition is_move (command : Command) : bool :=
  match command with
  | MOVE_TO _ _ => true
  | _ => false
  end.

Definition is_close (command : Command) : bool :=
  match command with
  | CLOSE_PATH => true
  | _ => false
  end.

(** [new SVGPathData(path).toAbs()], a library outside the repository:
    the commands of the path made absolute, or the error that the call
    throws.  (svg-pathdata throws for a string that it cannot parse, and
    [toAbs] for a path that does not start with a move.) *)
Variable SVGPathData_toAbs : string -> Result (list Command).

Record t := mk {
  x : num;
  y : num;
  width : num;
  height : num;
  color : Color;
  path : string
}.

(** The callback of [transform]: [x] and [y], where a command has them,
    are divided by the width and the height. *)
Definition scale (self : t) (command : Command) : Command :=
  let sx v := div v (width self) in
  let sy v := div v (height self) in
  match command with
  | MOVE_TO x y => MOVE_TO (sx x) (sy y)
  | HORIZ_LINE_TO x => HORIZ_LINE_TO (sx x)
  | VERT_LINE_TO y => VERT_LINE_TO (sy y)
  | LINE_TO x y => LINE_TO (sx x) (sy y)
  | CURVE_TO x1 y1 x2 y2 x y => CURVE_TO x1 y1 x2 y2 (sx x) (sy y)
  | SMOOTH_CURVE_TO x2 y2 x y => SMOOTH_CURVE_TO x2 y2 (sx x) (sy y)
  | QUAD_TO x1 y1 x y => QUAD_TO x1 y1 (sx x) (sy y)
  | SMOOTH_QUAD_TO x y => SMOOTH_QUAD_TO (sx x) (sy y)
  | ARC rX rY xRot lArcFlag sweepFlag x y =>
      ARC rX rY xRot lArcFlag sweepFlag (sx x) (sy y)
  | CLOSE_PATH => CLOSE_PATH
  end.

(** The variables that the callback of [map] closes over.  Of the last
    move command its [x] and [y] are kept, of the last curve command its
    [x2] and [y2]: the fields that are read later. *)
Record Vars := mkVars {
  lastMoveCommand : option (num * num);
  lastCurveCommand : option (num * num);
  prevX : num;
  prevY : num
}.

(** The callback of [map], for one command. *)
Definition drawCommand (self : t) (resolution : num) (v : Vars)
  (command : Command) : Result (list Point * Vars) :=
  match command with
  | MOVE_TO x y =>
      Ok ([new_Point x y],
          mkVars (Some (x, y)) (lastCurveCommand v) x y)
  | HORIZ_LINE_TO x =>
      let toX := x in
      let toY := prevY v in
      Ok (Line_draw (prevX v, prevY v) (toX, toY) (color self) resolution,
          mkVars (lastMoveCommand v) (lastCurveCommand v) toX toY)
  | VERT_LINE_TO y =>
      let toX := prevX v in
      let toY := y in
      Ok (Line_draw (prevX v, prevY v) (toX, toY) (color self) resolution,
          mkVars (lastMoveCommand v) (lastCurveCommand v) toX toY)
  | LINE_TO x y =>
      let toX := x in
      let toY := y in
      Ok (Line_draw (prevX v, prevY v) (toX, toY) (color self) resolution,
          mkVars (lastMoveCommand v) (lastCurveCommand v) toX toY)
  | CURVE_TO x1 y1 x2 y2 x y =>
      Ok (Curve_draw (prevX v, prevY v, (x1, y1)) (x, y, (x2, y2))
            (color self) resolution,
          mkVars (lastMoveCommand v) (Some (x2, y2)) x y)
  | SMOOTH_CURVE_TO x2 y2 x y =>
      match lastCurveCommand v with
      | None => Throw smooth_curve_error
      | Some last =>
          Ok (Curve_draw (prevX v, prevY v, last) (x, y, (x2, y2))
                (color self) resolution,
              mkVars (lastMoveCommand v) (Some (x2, y2)) x y)
      end
  | CLOSE_PATH =>
      match lastMoveCommand v with
      | None => Throw close_path_error
      | Some (mx, my) =>
          Ok (Line_draw (prevX v, prevY v) (mx, my) (color self) resolution,
              mkVars (lastMoveCommand v) (lastCurveCommand v) mx my)
      end
  | QUAD_TO _ _ _ _ | SMOOTH_QUAD_TO _ _ | ARC _ _ _ _ _ _ _ =>
      (* no case of the switch *)
      Ok ([], v)
  end.

(** [pathData.commands.map(...)]: left to right, the first throw ends it. *)
Fixpoint mapCommands (self : t) (resolution : num) (v : Vars)
  (commands : list Command) : Result (list (list Point)) :=
  match commands with
  | [] => Ok []
  | command :: commands =>
      match drawCommand self resolution v command with
      | Throw e => Throw e
      | Ok (commandPoints, v) =>
          match mapCommands self resolution v commands with
          | Throw e => Throw e
          | Ok points => Ok (commandPoints :: points)
          end
      end
  end.

(** [points.reduce((flat, commandPoints) => flat.concat(commandPoints))] *)
Definition flatten (points : list (list Point)) : Result (list Point) :=
  match points with
  | [] => Throw "Reduce of empty array with no initial value"
  | first :: rest => Ok (fold_left (fun flat cp => flat ++ cp) rest first)
  end.

Definition draw (self : t) (resolution : num) : Result (list Point) :=
  match SVGPathData_toAbs (path self) with
  | Throw e => Throw e
  | Ok parsed =>
      let commands := map (scale self) parsed in
      match commands with
      | [] => Ok []
      | _ :: _ =>
          match mapCommands self resolution (mkVars None None zero zero)
                  commands with
          | Throw e => Throw e
          | Ok points => flatten points
          end
      end
  end.

End Draw.

Section Construct.

(** JavaScript numbers again, with their falsy values (0 and NaN) told
    apart by [falsy]. *)
Variable num : Type.
Variable falsy : num -> bool.
Variables zero one : num.
Variable Color : Type.

Record PathOptions := mkOptions {
  o_x : option num;
  o_y : option num;
  o_width : option num;
  o_height : option num;
  o_color : Color;
  o_path : string
}.

(** [v || d] on an optional number. *)
Definition or_default (v : option num) (d : num) : num :=
  match v with
  | Some n => if falsy n then d else n
  | None => d
  end.

(** [new Path(options)] *)
Definition constructor (options : PathOptions) : t num Color :=
  mk num Color
    (or_default (o_x options) zero)
    (or_default (o_y options) zero)
    (or_default (o_width options) one)
    (or_default (o_height options) one)
    (o_color options)
    (o_path options).

End Construct.

End Path.

(* ------------------------------------------------------------------ *)
(** ** EtherConn.ts: connect and reconnect *)

Definition set_running (v : bool) (c : EtherConn) : EtherConn :=
  mkEtherConn (client c) (inputqueue c) (inputhandlerqueue c) (timer c) (acks c)
    (fullness c) (points_in_buffer c) (playback_state c) (playsent c)
    (beginsent c) (preparesent c) (valid c) (rate c) (streamCallback c)
    v (ip c) (port c).

Definition set_ip (v : option string) (c : EtherConn) : EtherConn :=
  mkEtherConn (client c) (inputqueue c) (inputhandlerqueue c) (timer c) (acks c)
    (fullness c) (points_in_buffer c) (playback_state c) (playsent c)
    (beginsent c) (preparesent c) (valid c) (rate c) (streamCallback c)
    (running c) v (port c).

Definition set_port (v : option Z) (c : EtherConn) : EtherConn :=
  mkEtherConn (client c) (inputqueue c) (inputhandlerqueue c) (timer c) (acks c)
    (fullness c) (points_in_buffer c) (playback_state c) (playsent c)
    (beginsent c) (preparesent c) (valid c) (rate c) (streamCallback c)
    (running c) (ip c) v.

(** Truthiness of a possibly undefined string, as in [!this.ip]. *)
Definition truthy_string (v : option string) : bool :=
  match v with
  | Some s => negb (String.eqb s "")
  | None => false
  end.

(** What [connect] does before it returns: the address is remembered and
    [net.connect] hands back the socket, here [sock]; the listeners it arms
    are [connect_listener] and [onData].  The promise it returns is not
    modelled: it is resolved with [true] by a continuation of the promise
    [connect_listener] registers first, and with [false] by the ['error']
    listener. *)
Definition connect (sock : Socket) (ip : string) (port : Z) (w : World)
  : World :=
  let w := with_self (set_ip (Some ip)) w in
  let w := with_self (set_port (Some port)) w in
  with_self (set_client (Some sock)) w.

(** The connection listener of [connect]; its last statement calls [run],
    which is followed from there. *)
Definition connect_listener : Async Next :=
  _ <- waitForResponse STANDARD_RESPONSE_SIZE ;;
  effect _popinputqueue ;;;
  effect (with_self (set_running true)) ;;;
  run.

(** [reconnect]; [sock] is the socket of the new connection. *)
Definition reconnect (sock : Socket) : Async unit := fun w =>
  if negb (truthy_string (ip (self w))) || negb (truthy (port (self w))) then
    Threw w (Error "Connect before attemping a reconnect")
  else
    let w := close w in
    match ip (self w), port (self w) with
    | Some ip, Some port => Done (connect sock ip port w) tt
    | _, _ =>
        (* not reached: [close] keeps the address the guard has just seen *)
        Threw w (Error "Connect before attemping a reconnect")
    end.

(* ------------------------------------------------------------------ *)
(** ** Vocabulary of the statements *)

(** No response is outstanding and no byte is waiting: the state in which
    the scheduler issues each of its commands. *)
Definition quiet (w : World) : Prop :=
  inputqueue (self w) = [] /\ inputhandlerqueue (self w) = [].

(** The shape shared by every command method: send, register for the
    standard response, await it, go on. *)
Definition exchange {A} (cmd : list Z) (rest : list Z -> Async A) : Async A :=
  _send cmd ;;;
  p <- waitForResponse STANDARD_RESPONSE_SIZE ;;
  data <- await p ;;
  rest data.

(** The world in which [cmd] is on the wire and its response is awaited. *)
Definition requested (c : Socket) (cmd : list Z) (w : World) : World :=
  mkWorld
    (set_inputhandlerqueue
       [mkHandler STANDARD_RESPONSE_SIZE (next_promise w)] (self w))
    (trace w ++ [Written c (Buffer_from_binary cmd)])
    (S (next_promise w))
    ((next_promise w, None) :: promises w).

(** The world after that response has come in as [data]. *)
Definition answered (c : Socket) (cmd data : list Z) (w : World) : World :=
  mkWorld
    (handleStandardResponse (Parser.parseStandardResponse data) (self w))
    (trace w ++ [Written c (Buffer_from_binary cmd);
                 Invoked (next_promise w) data])
    (S (next_promise w))
    ((next_promise w, Some data) :: (next_promise w, None) :: promises w).

(** The body awaits a promise that is still pending. *)
Definition awaits_promise {A} (s : Step A) : Prop :=
  match s with
  | AwaitPromise w p _ => settled w p = None
  | _ => False
  end.

(** The responses [rs] come in one after the other; timers fire whenever
    the body waits for one. *)
Definition drive {A} (rs : list (list Z)) (s : Step A) : Step A :=
  fold_left (fun s data => elapse (deliver data s)) rs (elapse s).

(** The ideal demultiplexing of [bytes] over the queued handlers [hs]: what
    each continuation is to be called with, in order. *)
Fixpoint dispatch (hs : list Handler) (bytes : list Z)
  : list (PromiseId * list Z) :=
  match hs with
  | [] => []
  | h :: hs =>
      if (size h <=? length bytes)%nat then
        (callback h, firstn (size h) bytes) :: dispatch hs (skipn (size h) bytes)
      else []
  end.

(** The bytes that the queued handlers ask for, all together. *)
Fixpoint sizes (hs : list Handler) : nat :=
  match hs with
  | [] => 0
  | h :: hs => size h + sizes hs
  end.

Definition invocation (pd : PromiseId * list Z) : Obs :=
  Invoked (fst pd) (snd pd).

(** The write-samples message in the words of the protocol table: per
    sample nine 16-bit fields, an absent optional one as zero. *)
Definition or_zero (v : option Z) : Z :=
  match v with
  | Some n => n
  | None => 0
  end.

Definition sample_fields (p : IPoint.t) : list (list Z) :=
  [ Writer.writeUnsignedInt16 (or_zero (IPoint.control p));
    Writer.writeSignedInt16 (IPoint.x p);
    Writer.writeSignedInt16 (IPoint.y p);
    Writer.writeUnsignedInt16 (IPoint.r p);
    Writer.writeUnsignedInt16 (IPoint.g p);
    Writer.writeUnsignedInt16 (IPoint.b p);
    Writer.writeUnsignedInt16 (or_zero (IPoint.i p));
    Writer.writeUnsignedInt16 (or_zero (IPoint.u1 p));
    Writer.writeUnsignedInt16 (or_zero (IPoint.u2 p)) ].

Definition write_samples_message (points : list IPoint.t) : list Z :=
  chr_d :: Writer.writeUnsignedInt16 (Z.of_nat (length points))
    ++ concat (map (fun p => concat (sample_fields p)) points).

Definition begin_message (rate : Z) : list Z :=
  chr_b :: Writer.writeUnsignedInt16 0 ++ Writer.writeUnsignedInt32 rate.

Definition update_message (rate : Z) : list Z :=
  chr_u :: Writer.writeUnsignedInt16 0 ++ Writer.writeUnsignedInt32 rate.

(** The part of [run] after the prepare command: a batch is cut off the
    frame and sent ([run_unfold] below relates it to [run]). *)
Definition run_batch (frame : list IPoint.t) : Async Next :=
  c <- this ;;
  let cap := spare_capacity (fullness c) in
  cap <- (if cap <? 100 then delay 5 ;;; ret (cap + 150) else ret cap) ;;
  let points := splice0 frame cap in
  sendPoints points ;;;
  ret Recurse.

(** What [sendPoints] does once the response to its batch is in
    ([sendPoints_exchange] below relates it to [sendPoints]). *)
Definition after_points : Async unit :=
  c <- this ;;
  if valid c then
    if negb (beginsent c) then sendBegin (rate c) else ret tt
  else ret tt.

(** A value that [Buffer.from] keeps as it is. *)
Definition is_byte (b : Z) : Prop := 0 <= b < 256.

(** What [sendBegin] throws when it has no rate. *)
Definition usage_error : Exn :=
  Error "Call streamFrames(rate, callback) first".

(** A response that decodes as acknowledged, resp. with playback flags 2. *)
Definition acknowledged (data : list Z) : Prop :=
  Parser.response (Parser.parseStandardResponse data) = chr_a.

Definition flags_of (data : list Z) : Z :=
  Parser.playback_flags (Parser.status (Parser.parseStandardResponse data)).

Definition fullness_of (data : list Z) : Z :=
  Parser.buffer_fullness (Parser.status (Parser.parseStandardResponse data)).

(** The capacity [run] asks the frame for, after its padding. *)
Definition padded_capacity (fullness : Z) : Z :=
  if spare_capacity fullness <? 100 then spare_capacity fullness + 150
  else spare_capacity fullness.

(** The worlds an invocation of [run] on an idle device goes through: the
    response [r1] to prepare is in; the batch cut after it; its
    acknowledgement [r2] is in. *)
Definition prepared (c : Socket) (r1 : list Z) (w : World) : World :=
  with_self (set_preparesent true) (answered c [chr_p] r1 w).

Definition batch (cb : StreamFrameCallback) (r1 : list Z) : list IPoint.t :=
  splice0 (cb tt) (padded_capacity (fullness_of r1)).

Definition batched (c : Socket) (cb : StreamFrameCallback) (r1 r2 : list Z)
  (w : World) : World :=
  answered c (sendPoints_cmd (batch cb r1)) r2 (prepared c r1 w).

(** Whether a chunk written to the socket is a begin command. *)
Definition is_begin (o : Obs) : bool :=
  match o with
  | Written _ (opcode :: _) => opcode =? chr_b
  | _ => false
  end.

(* ------------------------------------------------------------------ *)
(** ** Sample data *)

(** A 22-byte standard response with the given code, playback state,
    playback flags and buffer fullness (each below 256). *)
Definition response_bytes (code state flags fullness_lo fullness_hi : Z)
  : list Z :=
  [code; 0; 0; 0; state; 0; 0; 0; flags; 0; 0; 0; fullness_lo; fullness_hi;
   0; 0; 0; 0; 0; 0; 0; 0].

(** Acknowledged, playing, playback flags 2 (underrun), fullness 3. *)
Definition underrun_response : list Z := response_bytes 97 2 2 3 0.

(** Not acknowledged ('I'), playing, fullness 3. *)
Definition invalid_response : list Z := response_bytes 73 2 0 3 0.

Definition sample_point : IPoint.t :=
  IPoint.mk 1 (-1) 65535 0 255 None None None None.

(** As [() => [p, p, p]]: a new array at every call. *)
Definition sample_source : StreamFrameCallback :=
  fun _ => [sample_point; sample_point; sample_point].

(** A connected, running session with a source and a rate configured. *)
Definition sample_session (state : Z) (fullness : Z) (beginsent : bool)
  : EtherConn :=
  {| client := Some 7%nat; inputqueue := []; inputhandlerqueue := [];
     timer := 0; acks := 0; fullness := fullness; points_in_buffer := 0;
     playback_state := state; playsent := false; beginsent := beginsent;
     preparesent := false; valid := true; rate := Some 30000;
     streamCallback := Some sample_source; running := true;
     ip := Some "192.168.1.3"%string; port := Some 7765 |}.

(** Two responses are outstanding, as when [sendPrepare] is called while
    the response awaited by [connect] is still to come. *)
Definition pipelined_world : World :=
  mkWorld
    (set_inputhandlerqueue
       [mkHandler STANDARD_RESPONSE_SIZE 0%nat;
        mkHandler STANDARD_RESPONSE_SIZE 1%nat]
       (sample_session 0 0 false))
    [] 2%nat [(1%nat, None); (0%nat, None)].

(** The commands of "M0 0 L10 0 S5 5 10 10 Z" and of "L10 0 Z", with
    integers for numbers, a point for each line or curve drawn. *)
Definition smooth_without_curve : list (Path.Command Z) :=
  [Path.MOVE_TO Z 0 0; Path.LINE_TO Z 10 0;
   Path.SMOOTH_CURVE_TO Z 5 5 10 10; Path.CLOSE_PATH Z].

Definition close_without_move : list (Path.Command Z) :=
  [Path.LINE_TO Z 10 0; Path.CLOSE_PATH Z].

Definition sample_path : Path.t Z unit :=
  Path.mk Z unit 0 0 1 1 tt "M0 0 L10 0 S5 5 10 10 Z".

(** [draw] where the parser yields [commands]. *)
Definition sample_draw (commands : list (Path.Command Z))
  : Path.Result (list (Z * Z)) :=
  Path.draw Z Z.div 0 (Z * Z)%type unit pair
    (fun _ to _ _ => [to]) (fun _ to _ _ => [fst to])
    (fun _ => Path.Ok commands) sample_path 10.

(** A parser that, as svg-pathdata's [toAbs], rejects a path that does not
    start with a move. *)
Definition start_error : string := "path must start with moveto".

Definition checked (commands : list (Path.Command Z))
  : Path.Result (list (Path.Command Z)) :=
  match commands with
  | [] => Path.Ok []
  | command :: _ =>
      if Path.is_move Z command then Path.Ok commands
      else Path.Throw start_error
  end.

Definition sample_draw_checked (commands : list (Path.Command Z))
  : Path.Result (list (Z * Z)) :=
  Path.draw Z Z.div 0 (Z * Z)%type unit pair
    (fun _ to _ _ => [to]) (fun _ to _ _ => [fst to])
    (fun _ => checked commands) sample_path 10.

Definition sample_world (state : Z) (fullness : Z) (beginsent : bool)
  : World :=
  mkWorld (sample_session state fullness beginsent) [] 0%nat [].

(* ------------------------------------------------------------------ *)
(** ** Vocabulary of the further statements *)

(** What a command throws on a session without a socket. *)
Definition no_client_error : Exn :=
  TypeError "Cannot read properties of undefined".

(** What [reconnect] throws when no address is remembered. *)
Definition reconnect_error : Exn :=
  Error "Connect before attemping a reconnect".

(** The bytes that have been handed to continuations, in order. *)
Fixpoint delivered (tr : list Obs) : list Z :=
  match tr with
  | [] => []
  | Invoked _ data :: tr => data ++ delivered tr
  | _ :: tr => delivered tr
  end.

(** Chunks come in one after the other while a body is suspended. *)
Definition delivers {A} (chunks : list (list Z)) (s : Step A) : Step A :=
  fold_left (fun s data => deliver data s) chunks s.

(** Responses handled one after the other. *)
Definition handle_all (sts : list Parser.pstdReturnType) (c : EtherConn)
  : EtherConn :=
  fold_left (fun c st => handleStandardResponse st c) sts c.

(** Calls of [streamFrames] one after the other. *)
Definition streamFrames_all
  (calls : list (option Z * option StreamFrameCallback)) (w : World) : World :=
  fold_left (fun w call => streamFrames (fst call) (snd call) w) calls w.

(** A rate that [sendBegin] accepts, or none at all. *)
Definition rate_ok (c : EtherConn) : Prop :=
  rate c = None \/ truthy (rate c) = true.

(** The first command of a path that is out of sequence, as its error:
    a smooth curve before any curve, a close before any move. *)
Fixpoint first_error {num : Type} (seen_move seen_curve : bool)
  (commands : list (Path.Command num)) : option string :=
  match commands with
  | [] => None
  | Path.MOVE_TO _ _ _ :: commands => first_error true seen_curve commands
  | Path.CURVE_TO _ _ _ _ _ _ _ :: commands =>
      first_error seen_move true commands
  | Path.SMOOTH_CURVE_TO _ _ _ _ _ :: commands =>
      if seen_curve then first_error seen_move true commands
      else Some Path.smooth_curve_error
  | Path.CLOSE_PATH _ :: commands =>
      if seen_move then first_error seen_move seen_curve commands
      else Some Path.close_path_error
  | _ :: commands => first_error seen_move seen_curve commands
  end.

(** The points of a polyline from [from] through [through]: each line
    starts where the one before ended. *)
Fixpoint segments {num Point : Type}
  (line : num * num -> num * num -> list Point)
  (from : num * num) (through : list (num * num)) : list Point :=
  match through with
  | [] => []
  | to :: through => line from to ++ segments line to through
  end.

(** A path that is empty or starts with a move: what svg-pathdata's
    [toAbs] lets through. *)
Definition starts_with_move {num : Type} (commands : list (Path.Command num))
  : Prop :=
  match commands with
  | [] => True
  | command :: _ => Path.is_move num command = true
  end.

(** The commands that the switch of [draw] has no case for. *)
Definition no_case {num : Type} (command : Path.Command num) : bool :=
  match command with
  | Path.QUAD_TO _ _ _ _ _ | Path.SMOOTH_QUAD_TO _ _ _
  | Path.ARC _ _ _ _ _ _ _ _ => true
  | _ => false
  end.

(** The commands of a closed polygon: a move, a line to each further
    corner, a close. *)
Definition polygon {num : Type} (start : num * num)
  (corners : list (num * num)) : list (Path.Command num) :=
  Path.MOVE_TO num (fst start) (snd start)
  :: map (fun q => Path.LINE_TO num (fst q) (snd q)) corners
  ++ [Path.CLOSE_PATH num].

(** A position after the transform of [draw]. *)
Definition scaled {num Color : Type} (div : num -> num -> num)
  (self : Path.t num Color) (q : num * num) : num * num :=
  (div (fst q) (Path.width num Color self),
   div (snd q) (Path.height num Color self)).

Definition is_some {A : Type} (v : option A) : bool :=
  match v with
  | Some _ => true
  | None => false
  end.

(** A response that keeps the stream going: of the standard size, not
    idle, no underrun flagged. *)
Definition keeps_playing (ack : list Z) : Prop :=
  length ack = STANDARD_RESPONSE_SIZE
  /\ flags_of ack <> 2
  /\ Parser.playback_state (Parser.status (Parser.parseStandardResponse ack))
     <> PLAYBACK_IDLE.

(** The source, at its next call, returns an array that holds [frame].
    A source need not return the same points twice: it may build a new
    frame at every call, or hand back the array of the call before, which
    [run] has emptied by then. *)
Definition returning (frame : list IPoint.t) (w : World) : World :=
  with_self (set_streamCallback (Some (fun _ => frame))) w.

(** Invocations of [run] one after the other, each started by the last
    statement of the one before; of each step, the frame is what the
    source returns at this invocation and the response is the one that
    comes in during it. *)
Fixpoint stream (steps : list (list IPoint.t * list Z)) (w : World)
  : Step Next :=
  match steps with
  | [] => Done w Recurse
  | (frame, ack) :: steps =>
      match drive [ack] (run (returning frame w)) with
      | Done w' Recurse => stream steps w'
      | s => s
      end
  end.

(** What a playing session writes and receives meanwhile: one batch for
    each response, cut from the frame of this invocation with the fullness
    of the response before. *)
Fixpoint streamed (c : Socket) (p : PromiseId) (fullness : Z)
  (steps : list (list IPoint.t * list Z)) : list Obs :=
  match steps with
  | [] => []
  | (frame, ack) :: steps =>
      Written c
        (write_samples_message (splice0 frame (padded_capacity fullness)))
      :: Invoked p ack
      :: streamed c (S p) (fullness_of ack) steps
  end.

(* ------------------------------------------------------------------ *)
(** ** Response handling, field by field *)

Section ResponseHandling.

Variable st : Parser.pstdReturnType.
Variable c : EtherConn.

Lemma handle_fullness :
  fullness (handleStandardResponse st c)
  = Parser.buffer_fullness (Parser.status st).
Proof. unfold handleStandardResponse. now destruct (_ =? 2). Qed.

Lemma handle_playback_state :
  playback_state (handleStandardResponse st c)
  = Parser.playback_state (Parser.status st).
Proof. unfold handleStandardResponse. now destruct (_ =? 2). Qed.

Lemma handle_valid :
  valid (handleStandardResponse st c) = (Parser.response st =? chr_a).
Proof. unfold handleStandardResponse. now destruct (_ =? 2). Qed.

Lemma handle_beginsent :
  beginsent (handleStandardResponse st c)
  = if Parser.playback_flags (Parser.status st) =? 2 then false
    else beginsent c.
Proof. unfold handleStandardResponse. now destruct (_ =? 2). Qed.

Lemma handle_client : client (handleStandardResponse st c) = client c.
Proof. unfold handleStandardResponse. now destruct (_ =? 2). Qed.

Lemma handle_inputqueue :
  inputqueue (handleStandardResponse st c) = inputqueue c.
Proof. unfold handleStandardResponse. now destruct (_ =? 2). Qed.

Lemma handle_inputhandlerqueue :
  inputhandlerqueue (handleStandardResponse st c) = inputhandlerqueue c.
Proof. unfold handleStandardResponse. now destruct (_ =? 2). Qed.

Lemma handle_rate : rate (handleStandardResponse st c) = rate c.
Proof. unfold handleStandardResponse. now destruct (_ =? 2). Qed.

Lemma handle_streamCallback :
  streamCallback (handleStandardResponse st c) = streamCallback c.
Proof. unfold handleStandardResponse. now destruct (_ =? 2). Qed.

Lemma handle_running : running (handleStandardResponse st c) = running c.
Proof. unfold handleStandardResponse. now destruct (_ =? 2). Qed.

Lemma handle_preparesent :
  preparesent (handleStandardResponse st c) = preparesent c.
Proof. unfold handleStandardResponse. now destruct (_ =? 2). Qed.

End ResponseHandling.

Create Rewrite HintDb handle.
#[local] Hint Rewrite handle_fullness handle_playback_state handle_valid
  handle_beginsent handle_client handle_inputqueue handle_inputhandlerqueue
  handle_rate handle_streamCallback handle_running handle_preparesent : handle.

(* ------------------------------------------------------------------ *)
(** ** One command and its response *)

Lemma promise_state_latest log p v : promise_state ((p, v) :: log) p = v.
Proof. simpl. now rewrite Nat.eqb_refl. Qed.

(** The three cases of [_popinputqueue]. *)
Lemma popinputqueue_no_handler w :
  inputhandlerqueue (self w) = [] -> _popinputqueue w = w.
Proof. unfold _popinputqueue. now intros ->. Qed.

Lemma popinputqueue_starved w h rest :
  inputhandlerqueue (self w) = h :: rest ->
  (length (inputqueue (self w)) < size h)%nat ->
  _popinputqueue w = w.
Proof.
  unfold _popinputqueue. intros -> Hlt.
  destruct (Nat.leb_spec (size h) (length (inputqueue (self w)))); [lia|easy].
Qed.

Lemma popinputqueue_served w h rest :
  inputhandlerqueue (self w) = h :: rest ->
  (size h <= length (inputqueue (self w)))%nat ->
  _popinputqueue w
  = call h (firstn (size h) (inputqueue (self w)))
      (with_self (set_inputhandlerqueue rest)
         (with_self (set_inputqueue (skipn (size h) (inputqueue (self w))))
            w)).
Proof.
  unfold _popinputqueue. intros -> Hle.
  destruct (Nat.leb_spec (size h) (length (inputqueue (self w)))); [easy|lia].
Qed.

Section Exchange.

Context {A : Type}.
Variable w : World.
Variable c : Socket.
Hypothesis connected : client (self w) = Some c.
Hypothesis is_quiet : quiet w.

(** The command is written, one handler for a standard response is
    queued, and the body waits for it. *)
Lemma exchange_requested (cmd : list Z) (rest : list Z -> Async A) :
  exchange cmd rest w
  = AwaitPromise (requested c cmd w) (next_promise w) rest.
Proof.
  destruct is_quiet as [Hq Hh].
  unfold exchange, bind, _send. rewrite connected. simpl.
  rewrite popinputqueue_no_handler by exact Hh.
  unfold waitForResponse. simpl.
  rewrite popinputqueue_starved
    with (h := mkHandler STANDARD_RESPONSE_SIZE (next_promise w)) (rest := [])
    by (simpl; rewrite ?Hh, ?Hq; simpl; unfold STANDARD_RESPONSE_SIZE;
        auto with arith).
  unfold await, settled. simpl. rewrite Nat.eqb_refl. simpl.
  unfold requested, with_self. simpl. rewrite Hh. reflexivity.
Qed.

Lemma requested_pending (cmd : list Z) :
  settled (requested c cmd w) (next_promise w) = None.
Proof. apply promise_state_latest. Qed.

(** The 22 bytes of the response come in: the callback handles them and
    the body goes on with them. *)
Lemma deliver_answered (cmd data : list Z) (k : list Z -> World -> Step A) :
  length data = STANDARD_RESPONSE_SIZE ->
  deliver data (AwaitPromise (requested c cmd w) (next_promise w) k)
  = k data (answered c cmd data w).
Proof.
  intros Hlen. destruct is_quiet as [Hq Hh].
  unfold deliver, in_world, feed, onData_timeout.
  rewrite popinputqueue_served
    with (h := mkHandler STANDARD_RESPONSE_SIZE (next_promise w)) (rest := [])
    by (simpl; rewrite ?Hq; simpl; auto; lia).
  rewrite <- Hlen. simpl. rewrite Hq. simpl.
  rewrite firstn_all, skipn_all.
  unfold call, waitForResponse_callback, resolve, settled. simpl.
  rewrite Nat.eqb_refl. simpl. rewrite Nat.eqb_refl.
  unfold answered. do 2 f_equal.
  - f_equal. destruct (self w); simpl in *; now subst.
  - now rewrite <- app_assoc.
Qed.

Lemma deliver_exchange (cmd data : list Z) (rest : list Z -> Async A) :
  length data = STANDARD_RESPONSE_SIZE ->
  deliver data (exchange cmd rest w) = rest data (answered c cmd data w).
Proof.
  intros Hlen. rewrite exchange_requested. now apply deliver_answered.
Qed.

End Exchange.

Lemma answered_quiet w c cmd data : quiet w -> quiet (answered c cmd data w).
Proof.
  intros [Hq Hh]. split; simpl.
  - now rewrite handle_inputqueue.
  - now rewrite handle_inputhandlerqueue.
Qed.

Lemma answered_client w c cmd data :
  client (self (answered c cmd data w)) = client (self w).
Proof. simpl. apply handle_client. Qed.

Lemma answered_trace w c cmd data :
  trace (answered c cmd data w)
  = trace w ++ [Written c (Buffer_from_binary cmd); Invoked (next_promise w) data].
Proof. reflexivity. Qed.

(* ------------------------------------------------------------------ *)
(** ** Bytes on the wire *)

Lemma land_255 x : Z.land x 255 = x mod 256.
Proof. change 255 with (Z.ones 8). now rewrite Z.land_ones by lia. Qed.

Lemma land_255_byte x : is_byte (Z.land x 255).
Proof. rewrite land_255. unfold is_byte. apply Z.mod_pos_bound. lia. Qed.

Lemma Buffer_from_binary_bytes (l : list Z) :
  Forall is_byte l -> Buffer_from_binary l = l.
Proof.
  unfold Buffer_from_binary.
  induction 1 as [|b l Hb _ IH]; simpl; [reflexivity|].
  rewrite IH, land_255. f_equal. now apply Z.mod_small.
Qed.

Lemma writeUnsignedInt16_bytes n : Forall is_byte (Writer.writeUnsignedInt16 n).
Proof. repeat constructor; apply land_255_byte. Qed.

Lemma writeSignedInt16_bytes n : Forall is_byte (Writer.writeSignedInt16 n).
Proof. repeat constructor; apply land_255_byte. Qed.

Lemma writeUnsignedInt32_bytes n : Forall is_byte (Writer.writeUnsignedInt32 n).
Proof. repeat constructor; apply land_255_byte. Qed.

Lemma begin_message_bytes rate :
  Buffer_from_binary (begin_message rate) = begin_message rate.
Proof.
  apply Buffer_from_binary_bytes. unfold begin_message.
  constructor; [unfold is_byte, chr_b; lia|].
  apply Forall_app; split;
    [apply writeUnsignedInt16_bytes | apply writeUnsignedInt32_bytes].
Qed.

Lemma update_message_bytes rate :
  Buffer_from_binary (update_message rate) = update_message rate.
Proof.
  apply Buffer_from_binary_bytes. unfold update_message.
  constructor; [unfold is_byte, chr_u; lia|].
  apply Forall_app; split;
    [apply writeUnsignedInt16_bytes | apply writeUnsignedInt32_bytes].
Qed.

(* ------------------------------------------------------------------ *)
(** ** begin and update *)

Lemma sendBegin_exchange rate :
  rate <> 0 ->
  sendBegin (Some rate)
  = exchange (begin_message rate)
      (fun _ => effect (with_self (set_beginsent true))).
Proof.
  intros Hr. unfold sendBegin.
  destruct (Z.eqb_spec rate 0) as [|_]; [contradiction|reflexivity].
Qed.

Lemma sendUpdate_exchange rate :
  sendUpdate rate
  = exchange (update_message rate)
      (fun _ => effect (with_self (set_beginsent true))).
Proof. reflexivity. Qed.

(** C6: [sendBegin] called with no rate or with rate 0 throws the usage error
    and leaves the world as it was, so that nothing is written to the socket.
    With a non-zero rate, on a connected session with nothing outstanding,
    it writes the begin command ('b', u16 0, u32 rate), queues one handler
    for a standard response and waits for it; when the 22 bytes of the
    response have come in it returns, with [beginsent] true. *)
Theorem begin_requires_rate :
  (forall w,
      sendBegin None w = Threw w usage_error
      /\ sendBegin (Some 0) w = Threw w usage_error)
  /\
  (forall w c rate data,
      client (self w) = Some c -> quiet w -> rate <> 0 ->
      length data = STANDARD_RESPONSE_SIZE ->
      (exists w1 k,
          sendBegin (Some rate) w = AwaitPromise w1 (next_promise w) k
          /\ settled w1 (next_promise w) = None
          /\ trace w1 = trace w ++ [Written c (begin_message rate)]
          /\ inputhandlerqueue (self w1)
             = [mkHandler STANDARD_RESPONSE_SIZE (next_promise w)])
      /\
      (exists w2,
          deliver data (sendBegin (Some rate) w) = Done w2 tt
          /\ beginsent (self w2) = true
          /\ trace w2 = trace w ++ [Written c (begin_message rate);
                                    Invoked (next_promise w) data])).
Proof.
  split; [intros w; split; reflexivity|].
  intros w c rate data Hc Hq Hr Hlen.
  rewrite sendBegin_exchange by exact Hr. split.
  - rewrite (exchange_requested w c Hc Hq).
    eexists _, _. split; [reflexivity|].
    split; [apply requested_pending|].
    split; [|reflexivity].
    unfold requested. cbn [trace]. now rewrite begin_message_bytes.
  - rewrite (deliver_exchange w c Hc Hq) by exact Hlen.
    eexists. split; [reflexivity|].
    split; [reflexivity|].
    unfold with_self. cbn [trace].
    now rewrite answered_trace, begin_message_bytes.
Qed.

Lemma begin_requires_rate_witness :
  exists w2,
    deliver (response_bytes 97 2 0 0 0)
      (sendBegin (Some 30000) (sample_world 1 0 false)) = Done w2 tt
    /\ beginsent (self w2) = true
    /\ trace w2
       = trace (sample_world 1 0 false)
           ++ [Written 7%nat (begin_message 30000);
               Invoked (next_promise (sample_world 1 0 false))
                 (response_bytes 97 2 0 0 0)].
Proof.
  apply (proj2 begin_requires_rate (sample_world 1 0 false) 7%nat 30000
           (response_bytes 97 2 0 0 0)).
  - reflexivity.
  - split; reflexivity.
  - lia.
  - reflexivity.
Defined.

(** C10: [sendUpdate] does not look at its rate.  For every rate, 0
    included, on a connected session with nothing outstanding, it writes the
    update command ('u', u16 0, u32 rate) and waits for one standard
    response; when that has come in it returns, with [beginsent] true.
    [sendBegin] with rate 0 throws from the same world and writes nothing. *)
Theorem update_sends_any_rate (w : World) (c : Socket) (rate : Z)
  (data : list Z) :
  client (self w) = Some c -> quiet w ->
  length data = STANDARD_RESPONSE_SIZE ->
  (exists w1 k,
      sendUpdate rate w = AwaitPromise w1 (next_promise w) k
      /\ settled w1 (next_promise w) = None
      /\ trace w1 = trace w ++ [Written c (update_message rate)]
      /\ inputhandlerqueue (self w1)
         = [mkHandler STANDARD_RESPONSE_SIZE (next_promise w)])
  /\
  (exists w2,
      deliver data (sendUpdate rate w) = Done w2 tt
      /\ beginsent (self w2) = true
      /\ trace w2 = trace w ++ [Written c (update_message rate);
                                Invoked (next_promise w) data])
  /\ sendBegin (Some 0) w = Threw w usage_error.
Proof.
  intros Hc Hq Hlen. rewrite sendUpdate_exchange. split; [|split].
  - rewrite (exchange_requested w c Hc Hq).
    eexists _, _. split; [reflexivity|].
    split; [apply requested_pending|].
    split; [|reflexivity].
    unfold requested. cbn [trace]. now rewrite update_message_bytes.
  - rewrite (deliver_exchange w c Hc Hq) by exact Hlen.
    eexists. split; [reflexivity|].
    split; [reflexivity|].
    unfold with_self. cbn [trace].
    now rewrite answered_trace, update_message_bytes.
  - reflexivity.
Qed.

Lemma update_sends_any_rate_witness :
  exists w2,
    deliver (response_bytes 97 2 0 0 0)
      (sendUpdate 0 (sample_world 2 0 false)) = Done w2 tt
    /\ beginsent (self w2) = true
    /\ trace w2
       = trace (sample_world 2 0 false)
           ++ [Written 7%nat [117; 0; 0; 0; 0; 0; 0];
               Invoked 0%nat (response_bytes 97 2 0 0 0)].
Proof.
  apply (update_sends_any_rate (sample_world 2 0 false) 7%nat 0
           (response_bytes 97 2 0 0 0)).
  - reflexivity.
  - split; reflexivity.
  - reflexivity.
Defined.

(* ------------------------------------------------------------------ *)
(** ** The write-samples message *)

Lemma js_or_number (n : Z) : js_or (Some n) 0 = n.
Proof. unfold js_or. now destruct (Z.eqb_spec n 0). Qed.

Lemma js_or_optional (v : option Z) : js_or v 0 = or_zero v.
Proof. destruct v as [n|]; [apply js_or_number|reflexivity]. Qed.

Lemma appendPoint_fields (cmd : list Z) (p : IPoint.t) :
  appendPoint cmd p = cmd ++ concat (sample_fields p).
Proof.
  unfold appendPoint, sample_fields.
  rewrite !js_or_number, !js_or_optional.
  cbn [concat]. rewrite app_nil_r, <- !app_assoc. reflexivity.
Qed.

Lemma fold_appendPoint (points : list IPoint.t) (cmd : list Z) :
  fold_left appendPoint points cmd
  = cmd ++ concat (map (fun p => concat (sample_fields p)) points).
Proof.
  revert cmd. induction points as [|p points IH]; intros cmd; cbn [fold_left map concat].
  - now rewrite app_nil_r.
  - now rewrite IH, appendPoint_fields, <- app_assoc.
Qed.

Lemma sendPoints_cmd_message (points : list IPoint.t) :
  sendPoints_cmd points = write_samples_message points.
Proof. unfold sendPoints_cmd. now rewrite fold_appendPoint. Qed.

Lemma sample_fields_bytes (p : IPoint.t) :
  Forall is_byte (concat (sample_fields p)).
Proof.
  unfold sample_fields. cbn [concat].
  repeat (apply Forall_app; split);
    try apply writeUnsignedInt16_bytes; try apply writeSignedInt16_bytes.
  constructor.
Qed.

Lemma sample_fields_length (p : IPoint.t) :
  length (concat (sample_fields p)) = 18%nat.
Proof. reflexivity. Qed.

Lemma samples_length (points : list IPoint.t) :
  length (concat (map (fun p => concat (sample_fields p)) points))
  = (18 * length points)%nat.
Proof.
  induction points as [|p points IH]; [reflexivity|].
  cbn [map concat]. rewrite length_app, IH, sample_fields_length.
  cbn [length]. lia.
Qed.

Lemma write_samples_message_bytes (points : list IPoint.t) :
  Buffer_from_binary (write_samples_message points)
  = write_samples_message points.
Proof.
  apply Buffer_from_binary_bytes. unfold write_samples_message.
  constructor; [unfold is_byte, chr_d; lia|].
  apply Forall_app; split; [apply writeUnsignedInt16_bytes|].
  induction points as [|p points IH]; cbn [map concat]; [constructor|].
  apply Forall_app; split; [apply sample_fields_bytes|exact IH].
Qed.

Lemma sendPoints_exchange (points : list IPoint.t) :
  sendPoints points
  = exchange (sendPoints_cmd points) (fun _ => after_points).
Proof. reflexivity. Qed.

(** C5: the command that [sendPoints] writes to the socket is the byte 'd',
    the batch length as a 16-bit count, and per sample nine 16-bit fields in
    the order control, x, y, r, g, b, intensity, reserved1, reserved2, x and y
    written as signed, an absent optional field as zero: 3 + 18 n bytes for
    n samples. *)
Theorem write_samples_layout (points : list IPoint.t) :
  sendPoints_cmd points
  = chr_d :: Writer.writeUnsignedInt16 (Z.of_nat (length points))
      ++ concat (map (fun p => concat (sample_fields p)) points)
  /\ length (sendPoints_cmd points) = (3 + 18 * length points)%nat
  /\ (forall p,
        length (sample_fields p) = 9%nat
        /\ Forall (fun field => length field = 2%nat) (sample_fields p))
  /\ (forall x y r g b,
        sample_fields (IPoint.mk x y r g b None None None None)
        = [ [0; 0];
            Writer.writeSignedInt16 x; Writer.writeSignedInt16 y;
            Writer.writeUnsignedInt16 r; Writer.writeUnsignedInt16 g;
            Writer.writeUnsignedInt16 b;
            [0; 0]; [0; 0]; [0; 0] ])
  /\ (forall w c,
        client (self w) = Some c -> quiet w ->
        exists w1 k,
          sendPoints points w = AwaitPromise w1 (next_promise w) k
          /\ trace w1 = trace w ++ [Written c (sendPoints_cmd points)]).
Proof.
  split; [apply sendPoints_cmd_message|].
  split.
  { rewrite sendPoints_cmd_message. unfold write_samples_message.
    cbn [length]. rewrite length_app, samples_length. cbn [length Writer.writeUnsignedInt16]. lia. }
  split.
  { intros p. split; [reflexivity|repeat constructor]. }
  split; [reflexivity|].
  intros w c Hc Hq.
  rewrite sendPoints_exchange, (exchange_requested w c Hc Hq).
  eexists _, _. split; [reflexivity|].
  unfold requested. cbn [trace].
  now rewrite sendPoints_cmd_message, write_samples_message_bytes.
Qed.

Lemma write_samples_layout_witness :
  exists w1 k,
    sendPoints [sample_point] (sample_world 2 0 true)
    = AwaitPromise w1 (next_promise (sample_world 2 0 true)) k
    /\ trace w1
       = trace (sample_world 2 0 true)
           ++ [Written 7%nat (sendPoints_cmd [sample_point])].
Proof.
  apply (proj2 (proj2 (proj2 (proj2 (write_samples_layout [sample_point]))))
           (sample_world 2 0 true) 7%nat).
  - reflexivity.
  - split; reflexivity.
Defined.

Example sample_point_on_the_wire :
  sendPoints_cmd [sample_point]
  = [100; 1; 0;   0; 0;   1; 0;   255; 255;   255; 255;   0; 0;   255; 0;
     0; 0;   0; 0;   0; 0].
Proof. reflexivity. Qed.

(* ------------------------------------------------------------------ *)
(** ** sendPoints, sendPrepare and run *)

Lemma sendPrepare_exchange :
  sendPrepare
  = exchange [chr_p] (fun _ => effect (with_self (set_preparesent true))).
Proof. reflexivity. Qed.

Lemma run_unfold (w : World) (cb : StreamFrameCallback) :
  running (self w) = true -> streamCallback (self w) = Some cb ->
  run w
  = ((if playback_state (self w) =? PLAYBACK_IDLE then sendPrepare
      else ret tt) ;;; run_batch (cb tt)) w.
Proof.
  intros Hrun Hcb. unfold run, bind, this. cbn [bindS].
  rewrite Hrun, Hcb. reflexivity.
Qed.

Section Batch.

Variable w : World.
Variable c : Socket.
Variable frame : list IPoint.t.
Hypothesis connected : client (self w) = Some c.
Hypothesis is_quiet : quiet w.

Let points := splice0 frame (padded_capacity (fullness (self w))).

(** Once a pending timer has fired, the batch is on the wire. *)
Lemma run_batch_sent :
  elapse (run_batch frame w)
  = AwaitPromise (requested c (sendPoints_cmd points) w) (next_promise w)
      (fun _ w' => bindS (after_points w') (fun _ => ret Recurse)).
Proof.
  unfold run_batch, bind, this. cbn [bindS].
  subst points. unfold padded_capacity.
  destruct (spare_capacity (fullness (self w)) <? 100);
    cbn [delay bindS elapse ret];
    rewrite sendPoints_exchange, (exchange_requested w c connected is_quiet);
    reflexivity.
Qed.

(** Before that, a short spare capacity makes the body wait 5. *)
Lemma run_batch_pause :
  spare_capacity (fullness (self w)) < 100 ->
  exists k, run_batch frame w = AwaitDelay w 5 k.
Proof.
  intros Hlt. unfold run_batch, bind, this. cbn [bindS].
  destruct (Z.ltb_spec (spare_capacity (fullness (self w))) 100); [|lia].
  cbn [delay bindS]. eexists. reflexivity.
Qed.

End Batch.

Lemma after_points_begin (w : World) (c : Socket) (r : Z) :
  client (self w) = Some c -> quiet w ->
  valid (self w) = true -> beginsent (self w) = false ->
  rate (self w) = Some r -> r <> 0 ->
  after_points w
  = AwaitPromise (requested c (begin_message r) w) (next_promise w)
      (fun _ => effect (with_self (set_beginsent true))).
Proof.
  intros Hc Hq Hv Hb Hrate Hr.
  unfold after_points, bind, this. cbn [bindS].
  rewrite Hv, Hb, Hrate. cbn [negb].
  rewrite sendBegin_exchange by exact Hr.
  apply (exchange_requested w c Hc Hq).
Qed.

Lemma after_points_skip (w : World) :
  valid (self w) = false \/ beginsent (self w) = true ->
  after_points w = Done w tt.
Proof.
  intros H. unfold after_points, bind, this. cbn [bindS].
  destruct H as [-> | ->]; [reflexivity|].
  now destruct (valid (self w)).
Qed.

Lemma answered_valid w c cmd data :
  valid (self (answered c cmd data w))
  = (Parser.response (Parser.parseStandardResponse data) =? chr_a).
Proof. apply handle_valid. Qed.

Lemma answered_beginsent w c cmd data :
  beginsent (self (answered c cmd data w))
  = if flags_of data =? 2 then false else beginsent (self w).
Proof. apply handle_beginsent. Qed.

Lemma answered_rate w c cmd data :
  rate (self (answered c cmd data w)) = rate (self w).
Proof. apply handle_rate. Qed.

Lemma answered_fullness w c cmd data :
  fullness (self (answered c cmd data w)) = fullness_of data.
Proof. apply handle_fullness. Qed.

Section BatchThenBegin.

Variable w : World.
Variable c : Socket.
Variable frame : list IPoint.t.
Variable r : Z.
Variables ack answer : list Z.
Hypothesis connected : client (self w) = Some c.
Hypothesis is_quiet : quiet w.
(* begin is due: it was not sent, or this acknowledgement reports an
   underrun *)
Hypothesis begin_due : beginsent (self w) = false \/ flags_of ack = 2.
Hypothesis rate_configured : rate (self w) = Some r.
Hypothesis rate_nonzero : r <> 0.
Hypothesis ack_size : length ack = STANDARD_RESPONSE_SIZE.
Hypothesis ack_acknowledged : acknowledged ack.
Hypothesis answer_size : length answer = STANDARD_RESPONSE_SIZE.

Let points := splice0 frame (padded_capacity (fullness (self w))).
Let w1 := answered c (sendPoints_cmd points) ack w.

(** The acknowledgement of the batch makes the body send begin. *)
Lemma batch_acknowledged :
  deliver ack (elapse (run_batch frame w))
  = AwaitPromise (requested c (begin_message r) w1) (next_promise w1)
      (fun _ w' =>
         bindS (effect (with_self (set_beginsent true)) w')
           (fun _ => ret Recurse)).
Proof.
  rewrite (run_batch_sent w c frame connected is_quiet).
  fold points.
  rewrite (deliver_answered w c connected is_quiet) by exact ack_size.
  fold w1.
  rewrite (after_points_begin w1 c r).
  - reflexivity.
  - subst w1. now rewrite answered_client.
  - now apply answered_quiet.
  - subst w1. rewrite answered_valid. unfold acknowledged in ack_acknowledged.
    rewrite ack_acknowledged. apply Z.eqb_refl.
  - subst w1. rewrite answered_beginsent.
    destruct begin_due as [-> | ->]; [now destruct (flags_of ack =? 2)|].
    reflexivity.
  - subst w1. now rewrite answered_rate.
  - exact rate_nonzero.
Qed.

(** The response to begin ends the invocation, with [beginsent] set. *)
Lemma begin_answered :
  deliver answer (elapse (deliver ack (elapse (run_batch frame w))))
  = Done (with_self (set_beginsent true)
            (answered c (begin_message r) answer w1)) Recurse.
Proof.
  rewrite batch_acknowledged. cbn [elapse].
  rewrite (deliver_answered w1 c) by
    (try exact answer_size; try (now apply answered_quiet);
     subst w1; now rewrite answered_client).
  reflexivity.
Qed.

End BatchThenBegin.

(** Projections out of a world built by [with_self] and [answered]. *)
Ltac project :=
  unfold with_self, answered;
  cbn [self trace next_promise promises
       client inputqueue inputhandlerqueue fullness playback_state beginsent
       preparesent valid rate streamCallback running
       set_preparesent set_beginsent];
  autorewrite with handle.

(** [streamFrames] with a non-zero rate and a source configures both; it
    is the only place where the class assigns them. *)
Lemma streamFrames_configures (w : World) (r : Z) (cb : StreamFrameCallback) :
  r <> 0 ->
  rate (self (streamFrames (Some r) (Some cb) w)) = Some r
  /\ streamCallback (self (streamFrames (Some r) (Some cb) w)) = Some cb
  /\ streamFrames (Some 0) None w = w
  /\ streamFrames None None w = w.
Proof.
  intros Hr. unfold streamFrames, truthy.
  destruct (Z.eqb_spec r 0) as [|_]; [contradiction|]. repeat split.
Qed.

Section IdleIteration.

Variable w : World.
Variable c : Socket.
Variable cb : StreamFrameCallback.
Hypothesis is_running : running (self w) = true.
Hypothesis has_source : streamCallback (self w) = Some cb.
Hypothesis connected : client (self w) = Some c.
Hypothesis is_quiet : quiet w.
Hypothesis is_idle : playback_state (self w) = PLAYBACK_IDLE.

(** An idle device is sent prepare first. *)
Lemma run_idle_prepare :
  run w
  = AwaitPromise (requested c [chr_p] w) (next_promise w)
      (fun _ w' =>
         bindS (effect (with_self (set_preparesent true)) w')
           (fun _ => run_batch (cb tt))).
Proof.
  rewrite (run_unfold w cb is_running has_source), is_idle.
  cbn [Z.eqb PLAYBACK_IDLE]. unfold bind at 1.
  rewrite sendPrepare_exchange, (exchange_requested w c connected is_quiet).
  reflexivity.
Qed.

(** The batch is only cut once the response to prepare is in. *)
Lemma run_idle_prepared (data : list Z) :
  length data = STANDARD_RESPONSE_SIZE ->
  deliver data (run w)
  = run_batch (cb tt)
      (with_self (set_preparesent true) (answered c [chr_p] data w)).
Proof.
  intros Hlen. rewrite run_idle_prepare.
  rewrite (deliver_answered w c connected is_quiet) by exact Hlen.
  reflexivity.
Qed.

End IdleIteration.

Lemma run_playing (w : World) (cb : StreamFrameCallback) :
  running (self w) = true -> streamCallback (self w) = Some cb ->
  playback_state (self w) <> PLAYBACK_IDLE ->
  run w = run_batch (cb tt) w.
Proof.
  intros Hrun Hcb Hst. rewrite (run_unfold w cb Hrun Hcb).
  destruct (Z.eqb_spec (playback_state (self w)) PLAYBACK_IDLE); [contradiction|].
  reflexivity.
Qed.

Section IdleSteps.

Variable w : World.
Variable c : Socket.
Variable cb : StreamFrameCallback.
Variable r : Z.
Variables r1 r2 r3 : list Z.
Hypothesis is_running : running (self w) = true.
Hypothesis has_source : streamCallback (self w) = Some cb.
Hypothesis connected : client (self w) = Some c.
Hypothesis is_quiet : quiet w.
Hypothesis is_idle : playback_state (self w) = PLAYBACK_IDLE.
(* begin is due: it was not sent, or one of the two responses reports an
   underrun *)
Hypothesis begin_due :
  beginsent (self w) = false \/ flags_of r1 = 2 \/ flags_of r2 = 2.
Hypothesis rate_configured : rate (self w) = Some r.
Hypothesis rate_nonzero : r <> 0.
Hypothesis r1_size : length r1 = STANDARD_RESPONSE_SIZE.
Hypothesis r2_size : length r2 = STANDARD_RESPONSE_SIZE.
Hypothesis r2_acknowledged : acknowledged r2.
Hypothesis r3_size : length r3 = STANDARD_RESPONSE_SIZE.

Let w1 := prepared c r1 w.
Let w2 := batched c cb r1 r2 w.

Lemma prepared_client : client (self w1) = Some c.
Proof. unfold w1, prepared. now project. Qed.

Lemma prepared_quiet : quiet w1.
Proof. destruct is_quiet. unfold w1, prepared. split; now project. Qed.

Lemma prepared_begin_due :
  beginsent (self w1) = false \/ flags_of r2 = 2.
Proof.
  destruct begin_due as [Hb | [H1 | H2]]; [left | left | now right].
  - unfold w1, prepared. project. rewrite Hb. now destruct (_ =? 2).
  - unfold w1, prepared. project. fold (flags_of r1). now rewrite H1.
Qed.

Lemma prepared_rate : rate (self w1) = Some r.
Proof. unfold w1, prepared. now project. Qed.

Lemma prepared_fullness : fullness (self w1) = fullness_of r1.
Proof. unfold w1, prepared. now project. Qed.

Lemma idle_no_timer : elapse (run w) = run w.
Proof.
  now rewrite (run_idle_prepare w c cb is_running has_source connected
                 is_quiet is_idle).
Qed.

Lemma idle_prepare_answered :
  elapse (deliver r1 (run w)) = elapse (run_batch (cb tt) w1).
Proof.
  now rewrite (run_idle_prepared w c cb is_running has_source connected
                 is_quiet is_idle) by exact r1_size.
Qed.

Lemma idle_step_write :
  drive [r1] (run w)
  = AwaitPromise (requested c (sendPoints_cmd (batch cb r1)) w1)
      (next_promise w1)
      (fun _ w' => bindS (after_points w') (fun _ => ret Recurse)).
Proof.
  unfold drive. cbn [fold_left]. rewrite idle_no_timer, idle_prepare_answered.
  rewrite (run_batch_sent w1 c (cb tt) prepared_client prepared_quiet).
  now rewrite prepared_fullness.
Qed.

Lemma idle_step_begin :
  drive [r1; r2] (run w)
  = AwaitPromise (requested c (begin_message r) w2)
      (next_promise w2)
      (fun _ w' =>
         bindS (effect (with_self (set_beginsent true)) w')
           (fun _ => ret Recurse)).
Proof.
  unfold drive. cbn [fold_left]. rewrite idle_no_timer, idle_prepare_answered.
  rewrite (batch_acknowledged w1 c (cb tt) r r2 prepared_client
             prepared_quiet prepared_begin_due prepared_rate rate_nonzero
             r2_size r2_acknowledged).
  now rewrite prepared_fullness.
Qed.

Lemma idle_step_done :
  drive [r1; r2; r3] (run w)
  = Done (with_self (set_beginsent true)
            (answered c (begin_message r) r3 w2)) Recurse.
Proof.
  unfold drive. cbn [fold_left]. rewrite idle_no_timer, idle_prepare_answered.
  rewrite (begin_answered w1 c (cb tt) r r2 r3 prepared_client
             prepared_quiet prepared_begin_due prepared_rate rate_nonzero
             r2_size r2_acknowledged r3_size).
  now rewrite prepared_fullness.
Qed.

End IdleSteps.

(** C4: an invocation of [run] on a connected, running session with a
    source and a rate configured, nothing outstanding, the device idle and
    [beginsent] false.  It writes prepare and waits; when the response to
    prepare is in (and a short pause is over, if the device reported its
    buffer nearly full) it writes the batch and waits; when the
    acknowledgement of the batch is in it writes begin and waits; when the
    response to begin is in it ends, calling [run] again.  The trace shows
    the three writes and the three responses alternating in this order. *)
Theorem prepare_write_begin_order
  (w : World) (c : Socket) (cb : StreamFrameCallback) (r : Z)
  (r1 r2 r3 : list Z) :
  running (self w) = true ->
  streamCallback (self w) = Some cb ->
  client (self w) = Some c ->
  quiet w ->
  playback_state (self w) = PLAYBACK_IDLE ->
  beginsent (self w) = false ->
  rate (self w) = Some r -> r <> 0 ->
  length r1 = STANDARD_RESPONSE_SIZE ->
  length r2 = STANDARD_RESPONSE_SIZE -> acknowledged r2 ->
  length r3 = STANDARD_RESPONSE_SIZE ->
  let p := next_promise w in
  let points := splice0 (cb tt) (padded_capacity (fullness_of r1)) in
  let prepare := Written c [chr_p] in
  let write := Written c (write_samples_message points) in
  let begin := Written c (begin_message r) in
  (awaits_promise (run w)
   /\ trace (world_of (run w)) = trace w ++ [prepare])
  /\ (awaits_promise (drive [r1] (run w))
      /\ trace (world_of (drive [r1] (run w)))
         = trace w ++ [prepare; Invoked p r1; write])
  /\ (awaits_promise (drive [r1; r2] (run w))
      /\ trace (world_of (drive [r1; r2] (run w)))
         = trace w ++ [prepare; Invoked p r1; write;
                       Invoked (S p) r2; begin])
  /\ (exists w',
         drive [r1; r2; r3] (run w) = Done w' Recurse
         /\ trace w'
            = trace w ++ [prepare; Invoked p r1; write;
                          Invoked (S p) r2; begin; Invoked (S (S p)) r3]
         /\ beginsent (self w') = true
         /\ preparesent (self w') = true).
Proof.
  intros Hrun Hcb Hc Hq Hidle Hb Hrate Hr H1 H2 Hack H3 p points prepare write
    begin.
  pose proof (idle_step_write w c cb r1 Hrun Hcb Hc Hq Hidle H1) as E1.
  pose proof (idle_step_begin w c cb r r1 r2 Hrun Hcb Hc Hq Hidle (or_introl Hb) Hrate Hr
                H1 H2 Hack) as E2.
  pose proof (idle_step_done w c cb r r1 r2 r3 Hrun Hcb Hc Hq Hidle (or_introl Hb) Hrate
                Hr H1 H2 Hack H3) as E3.
  unfold batched, batch in E1, E2, E3. fold points in E1, E2, E3.
  assert (Hw : Buffer_from_binary (sendPoints_cmd points)
               = write_samples_message points)
    by now rewrite sendPoints_cmd_message, write_samples_message_bytes.
  split; [|split; [|split]].
  - rewrite (run_idle_prepare w c cb Hrun Hcb Hc Hq Hidle). split.
    + apply requested_pending.
    + reflexivity.
  - rewrite E1. split.
    + apply promise_state_latest.
    + unfold requested, prepared. project.
      rewrite Hw, <- app_assoc. reflexivity.
  - rewrite E2. split.
    + apply promise_state_latest.
    + unfold requested, batched, prepared. project.
      rewrite Hw, begin_message_bytes, <- !app_assoc. reflexivity.
  - rewrite E3. eexists. split; [reflexivity|]. split; [|split].
    + unfold batched, prepared. project.
      rewrite Hw, begin_message_bytes, <- !app_assoc. reflexivity.
    + reflexivity.
    + unfold batched, prepared. now project.
Qed.

Lemma prepare_write_begin_order_witness :
  exists w',
    drive [response_bytes 97 1 0 0 0; response_bytes 97 1 0 3 0;
           response_bytes 97 2 0 3 0] (run (sample_world 0 0 false))
    = Done w' Recurse
    /\ trace w'
       = trace (sample_world 0 0 false)
           ++ [Written 7%nat [chr_p];
               Invoked 0%nat (response_bytes 97 1 0 0 0);
               Written 7%nat
                 (write_samples_message
                    (splice0 (sample_source tt)
                       (padded_capacity
                          (fullness_of (response_bytes 97 1 0 0 0)))));
               Invoked 1%nat (response_bytes 97 1 0 3 0);
               Written 7%nat (begin_message 30000);
               Invoked 2%nat (response_bytes 97 2 0 3 0)]
    /\ beginsent (self w') = true
    /\ preparesent (self w') = true.
Proof.
  apply (proj2 (proj2 (proj2
    (prepare_write_begin_order (sample_world 0 0 false) 7%nat sample_source
       30000 (response_bytes 97 1 0 0 0) (response_bytes 97 1 0 3 0)
       (response_bytes 97 2 0 3 0)
       eq_refl eq_refl eq_refl (conj eq_refl eq_refl) eq_refl eq_refl eq_refl
       ltac:(lia) eq_refl eq_refl eq_refl eq_refl)))).
Defined.

Example idle_iteration_trace :
  trace (world_of
           (drive [response_bytes 97 1 0 0 0; response_bytes 97 1 0 3 0;
                   response_bytes 97 2 0 3 0] (run (sample_world 0 0 false))))
  = [Written 7%nat [112];
     Invoked 0%nat (response_bytes 97 1 0 0 0);
     Written 7%nat
       [100; 3; 0;
        0; 0; 1; 0; 255; 255; 255; 255; 0; 0; 255; 0; 0; 0; 0; 0; 0; 0;
        0; 0; 1; 0; 255; 255; 255; 255; 0; 0; 255; 0; 0; 0; 0; 0; 0; 0;
        0; 0; 1; 0; 255; 255; 255; 255; 0; 0; 255; 0; 0; 0; 0; 0; 0; 0];
     Invoked 1%nat (response_bytes 97 1 0 3 0);
     Written 7%nat [98; 0; 0; 48; 117; 0; 0];
     Invoked 2%nat (response_bytes 97 2 0 3 0)].
Proof. vm_compute. reflexivity. Qed.

Section PlayingSteps.

Variable w : World.
Variable c : Socket.
Variable cb : StreamFrameCallback.
Variable r : Z.
Variables r2 r3 : list Z.
Hypothesis is_running : running (self w) = true.
Hypothesis has_source : streamCallback (self w) = Some cb.
Hypothesis connected : client (self w) = Some c.
Hypothesis is_quiet : quiet w.
Hypothesis not_idle : playback_state (self w) <> PLAYBACK_IDLE.
(* begin is due: it was not sent, or the acknowledgement of the batch
   reports an underrun *)
Hypothesis begin_due : beginsent (self w) = false \/ flags_of r2 = 2.
Hypothesis rate_configured : rate (self w) = Some r.
Hypothesis rate_nonzero : r <> 0.
Hypothesis r2_size : length r2 = STANDARD_RESPONSE_SIZE.
Hypothesis r2_acknowledged : acknowledged r2.
Hypothesis r3_size : length r3 = STANDARD_RESPONSE_SIZE.

Let points := splice0 (cb tt) (padded_capacity (fullness (self w))).
Let w2 := answered c (sendPoints_cmd points) r2 w.

Lemma playing_step_begin :
  drive [r2] (run w)
  = AwaitPromise (requested c (begin_message r) w2) (next_promise w2)
      (fun _ w' =>
         bindS (effect (with_self (set_beginsent true)) w')
           (fun _ => ret Recurse)).
Proof.
  unfold drive. cbn [fold_left].
  rewrite (run_playing w cb is_running has_source not_idle).
  now rewrite (batch_acknowledged w c (cb tt) r r2 connected is_quiet
                 begin_due rate_configured rate_nonzero r2_size
                 r2_acknowledged).
Qed.

Lemma playing_step_done :
  drive [r2; r3] (run w)
  = Done (with_self (set_beginsent true)
            (answered c (begin_message r) r3 w2)) Recurse.
Proof.
  unfold drive. cbn [fold_left].
  rewrite (run_playing w cb is_running has_source not_idle).
  now rewrite (begin_answered w c (cb tt) r r2 r3 connected is_quiet
                 begin_due rate_configured rate_nonzero r2_size
                 r2_acknowledged r3_size).
Qed.

End PlayingSteps.

(** C2 (as the code has it): handling a standard response whose playback
    flags are 2 leaves [beginsent] false.  An invocation of [run], on a
    connected running session with a source and a non-zero rate and nothing
    outstanding, in which begin is due, because [beginsent] is false at the
    start or because a response it handles before (the one to prepare, or
    the acknowledgement of its batch) has playback flags 2, writes begin
    right after the acknowledgement of its batch and ends only when the
    response to begin is in, with [beginsent] true: no further batch is
    written before begin.  The response to begin, like the one to update,
    leaves [beginsent] true whatever flags it carries. *)
Theorem underrun_forces_begin :
  (forall st c,
      Parser.playback_flags (Parser.status st) = 2 ->
      beginsent (handleStandardResponse st c) = false)
  /\
  (forall w c cb r r1 r2 r3,
      running (self w) = true ->
      streamCallback (self w) = Some cb ->
      client (self w) = Some c ->
      quiet w ->
      beginsent (self w) = false
      \/ (playback_state (self w) = PLAYBACK_IDLE /\ flags_of r1 = 2)
      \/ flags_of r2 = 2 ->
      rate (self w) = Some r -> r <> 0 ->
      length r1 = STANDARD_RESPONSE_SIZE ->
      length r2 = STANDARD_RESPONSE_SIZE -> acknowledged r2 ->
      length r3 = STANDARD_RESPONSE_SIZE ->
      let rs := if playback_state (self w) =? PLAYBACK_IDLE then [r1] else [] in
      exists before points p,
        let write := Written c (write_samples_message points) in
        let begin := Written c (begin_message r) in
        Forall (fun o => is_begin o = false) before
        /\ awaits_promise (drive (rs ++ [r2]) (run w))
        /\ trace (world_of (drive (rs ++ [r2]) (run w)))
           = trace w ++ before ++ [write; Invoked p r2; begin]
        /\ exists w',
             drive (rs ++ [r2; r3]) (run w) = Done w' Recurse
             /\ beginsent (self w') = true
             /\ trace w'
                = trace w ++ before
                    ++ [write; Invoked p r2; begin; Invoked (S p) r3])
  /\
  (forall w c r data,
      client (self w) = Some c -> quiet w ->
      length data = STANDARD_RESPONSE_SIZE ->
      (exists w', deliver data (sendUpdate r w) = Done w' tt
                  /\ beginsent (self w') = true)
      /\ (r <> 0 ->
          exists w', deliver data (sendBegin (Some r) w) = Done w' tt
                     /\ beginsent (self w') = true)).
Proof.
  split.
  { intros st c Hflags. rewrite handle_beginsent, Hflags. reflexivity. }
  split.
  2:{ intros w c r data Hc Hq Hlen. split.
      - rewrite sendUpdate_exchange.
        rewrite (deliver_exchange w c Hc Hq) by exact Hlen.
        eexists. split; reflexivity.
      - intros Hr. rewrite sendBegin_exchange by exact Hr.
        rewrite (deliver_exchange w c Hc Hq) by exact Hlen.
        eexists. split; reflexivity. }
  intros w c cb r r1 r2 r3 Hrun Hcb Hc Hq Hdue Hrate Hr H1 H2 Hack H3 rs.
  assert (Hw : forall points,
             Buffer_from_binary (sendPoints_cmd points)
             = write_samples_message points)
    by (intros; now rewrite sendPoints_cmd_message, write_samples_message_bytes).
  destruct (Z.eqb_spec (playback_state (self w)) PLAYBACK_IDLE) as [Hidle|Hplay];
    subst rs; cbn [app].
  - assert (Hb : beginsent (self w) = false
                 \/ flags_of r1 = 2 \/ flags_of r2 = 2)
      by (destruct Hdue as [Hb | [[_ Hf] | Hf]]; auto).
    pose proof (idle_step_begin w c cb r r1 r2 Hrun Hcb Hc Hq Hidle Hb Hrate Hr
                  H1 H2 Hack) as E2.
    pose proof (idle_step_done w c cb r r1 r2 r3 Hrun Hcb Hc Hq Hidle Hb Hrate
                  Hr H1 H2 Hack H3) as E3.
    exists [Written c [chr_p]; Invoked (next_promise w) r1],
           (batch cb r1), (S (next_promise w)).
    cbn zeta. split; [repeat constructor|].
    rewrite E2, E3. split; [apply promise_state_latest|]. split.
    + unfold requested, batched, prepared. project.
      rewrite Hw, begin_message_bytes, <- !app_assoc. reflexivity.
    + eexists. split; [reflexivity|]. split; [reflexivity|].
      unfold batched, prepared. project.
      rewrite Hw, begin_message_bytes, <- !app_assoc. reflexivity.
  - assert (Hb : beginsent (self w) = false \/ flags_of r2 = 2)
      by (destruct Hdue as [Hb | [[Hi _] | Hf]]; auto; contradiction).
    pose proof (playing_step_begin w c cb r r2 Hrun Hcb Hc Hq Hplay Hb Hrate Hr
                  H2 Hack) as E2.
    pose proof (playing_step_done w c cb r r2 r3 Hrun Hcb Hc Hq Hplay Hb Hrate
                  Hr H2 Hack H3) as E3.
    exists [], (splice0 (cb tt) (padded_capacity (fullness (self w)))),
           (next_promise w).
    cbn zeta. split; [constructor|].
    rewrite E2, E3. split; [apply promise_state_latest|]. split.
    + unfold requested. project.
      rewrite Hw, begin_message_bytes, <- !app_assoc. reflexivity.
    + eexists. split; [reflexivity|]. split; [reflexivity|].
      project. rewrite Hw, begin_message_bytes, <- !app_assoc. reflexivity.
Qed.

(** The recovery from an underrun: the device is playing and [beginsent] is
    true; the acknowledgement of the batch has playback flags 2, and the
    same invocation writes begin. *)
Lemma underrun_forces_begin_witness :
  exists before points p,
    Forall (fun o => is_begin o = false) before
    /\ awaits_promise
         (drive ([] ++ [response_bytes 97 1 2 3 0])
            (run (sample_world 1 0 true)))
    /\ trace (world_of
                (drive ([] ++ [response_bytes 97 1 2 3 0])
                   (run (sample_world 1 0 true))))
       = trace (sample_world 1 0 true) ++ before
           ++ [Written 7%nat (write_samples_message points);
               Invoked p (response_bytes 97 1 2 3 0);
               Written 7%nat (begin_message 30000)]
    /\ exists w',
         drive ([] ++ [response_bytes 97 1 2 3 0; response_bytes 97 2 0 3 0])
           (run (sample_world 1 0 true)) = Done w' Recurse
         /\ beginsent (self w') = true
         /\ trace w'
            = trace (sample_world 1 0 true) ++ before
                ++ [Written 7%nat (write_samples_message points);
                    Invoked p (response_bytes 97 1 2 3 0);
                    Written 7%nat (begin_message 30000);
                    Invoked (S p) (response_bytes 97 2 0 3 0)].
Proof.
  apply (proj1 (proj2 underrun_forces_begin) (sample_world 1 0 true) 7%nat
           sample_source 30000 (response_bytes 97 1 0 0 0)
           (response_bytes 97 1 2 3 0) (response_bytes 97 2 0 3 0)).
  - reflexivity.
  - reflexivity.
  - reflexivity.
  - split; reflexivity.
  - right. right. reflexivity.
  - reflexivity.
  - lia.
  - reflexivity.
  - reflexivity.
  - reflexivity.
  - reflexivity.
Defined.

(** C2, as stated, fails in two ways.  First, where the response that
    reports the underrun is the one [sendBegin] waits for: the device is
    prepared, [beginsent] is false; the first invocation of [run] writes its
    batch, then begin, and the response to begin has playback flags 2.  The
    callback clears [beginsent], the continuation of [sendBegin] sets it, and
    the second invocation writes its batch and no begin.  Second, where the
    underrun bit comes with another bit: with playback flags 3 the
    comparison with 2 fails and [beginsent] stays true. *)
Lemma underrun_not_followed_by_begin_counterexample :
  (Z.testbit (flags_of underrun_response) 1 = true
   /\ exists w',
        drive [response_bytes 97 1 0 3 0; underrun_response;
               response_bytes 97 2 0 6 0]
          (run_loop 2 (sample_world 1 0 false)) = Done w' tt
        /\ trace w'
           = [Written 7%nat (write_samples_message (sample_source tt));
              Invoked 0%nat (response_bytes 97 1 0 3 0);
              Written 7%nat (begin_message 30000);
              Invoked 1%nat underrun_response;
              Written 7%nat (write_samples_message (sample_source tt));
              Invoked 2%nat (response_bytes 97 2 0 6 0)]
        /\ existsb is_begin (skipn 4 (trace w')) = false
        /\ beginsent (self w') = true)
  /\
  (Z.testbit (flags_of (response_bytes 97 2 3 0 0)) 1 = true
   /\ beginsent
        (handleStandardResponse
           (Parser.parseStandardResponse (response_bytes 97 2 3 0 0))
           (sample_session 2 0 true)) = true).
Proof.
  split.
  - split; [reflexivity|].
    eexists. split; [vm_compute; reflexivity|].
    repeat split.
  - split; reflexivity.
Qed.

(* ------------------------------------------------------------------ *)
(** ** The valid flag *)

Lemma deliver_sendPoints (w : World) (c : Socket) (points : list IPoint.t)
  (data : list Z) :
  client (self w) = Some c -> quiet w ->
  length data = STANDARD_RESPONSE_SIZE ->
  deliver data (sendPoints points w)
  = after_points (answered c (sendPoints_cmd points) data w).
Proof.
  intros Hc Hq Hlen. rewrite sendPoints_exchange.
  now rewrite (deliver_exchange w c Hc Hq) by exact Hlen.
Qed.

(** C9: every standard response sets [valid] to whether its code is 'a'.
    One that is not acknowledged makes it false, the next acknowledged one
    makes it true again.  So a [sendPoints] whose response is not
    acknowledged returns without begin, and the next [sendPoints] on the same
    session, acknowledged, goes on to write begin. *)
Theorem valid_not_sticky :
  (forall st c,
      valid (handleStandardResponse st c) = (Parser.response st =? chr_a))
  /\
  (forall nak ack c,
      Parser.response nak <> chr_a -> Parser.response ack = chr_a ->
      valid (handleStandardResponse nak c) = false
      /\ valid (handleStandardResponse ack (handleStandardResponse nak c))
         = true)
  /\
  (forall w c r points1 points2 nak ack,
      client (self w) = Some c -> quiet w ->
      beginsent (self w) = false ->
      rate (self w) = Some r -> r <> 0 ->
      length nak = STANDARD_RESPONSE_SIZE -> ~ acknowledged nak ->
      length ack = STANDARD_RESPONSE_SIZE -> acknowledged ack ->
      exists w1,
        deliver nak (sendPoints points1 w) = Done w1 tt
        /\ valid (self w1) = false
        /\ trace w1
           = trace w ++ [Written c (write_samples_message points1);
                         Invoked (next_promise w) nak]
        /\ awaits_promise (deliver ack (sendPoints points2 w1))
        /\ valid (self (world_of (deliver ack (sendPoints points2 w1)))) = true
        /\ trace (world_of (deliver ack (sendPoints points2 w1)))
           = trace w1 ++ [Written c (write_samples_message points2);
                          Invoked (S (next_promise w)) ack;
                          Written c (begin_message r)]).
Proof.
  split; [intros; apply handle_valid|].
  split.
  { intros nak ack c Hnak Hack. rewrite !handle_valid, Hack. split.
    - now apply Z.eqb_neq.
    - apply Z.eqb_refl. }
  intros w c r points1 points2 nak ack Hc Hq Hb Hrate Hr Hn Hnak Ha Hack.
  set (w1 := answered c (sendPoints_cmd points1) nak w).
  assert (Hv1 : valid (self w1) = false).
  { subst w1. rewrite answered_valid. now apply Z.eqb_neq. }
  assert (Hc1 : client (self w1) = Some c)
    by (subst w1; now rewrite answered_client).
  assert (Hq1 : quiet w1) by now apply answered_quiet.
  assert (Hb1 : beginsent (self w1) = false).
  { subst w1. rewrite answered_beginsent, Hb. now destruct (_ =? 2). }
  assert (Hw : forall points,
             Buffer_from_binary (sendPoints_cmd points)
             = write_samples_message points)
    by (intros; now rewrite sendPoints_cmd_message, write_samples_message_bytes).
  exists w1.
  rewrite (deliver_sendPoints w c points1 nak Hc Hq Hn). fold w1.
  split; [apply after_points_skip; now left|].
  split; [exact Hv1|].
  split; [subst w1; now rewrite answered_trace, Hw|].
  rewrite (deliver_sendPoints w1 c points2 ack Hc1 Hq1 Ha).
  set (w2 := answered c (sendPoints_cmd points2) ack w1).
  assert (Hv2 : valid (self w2) = true).
  { subst w2. rewrite answered_valid. unfold acknowledged in Hack.
    rewrite Hack. apply Z.eqb_refl. }
  rewrite (after_points_begin w2 c r).
  - split; [apply promise_state_latest|]. split.
    + unfold requested. project. exact Hv2.
    + unfold requested. cbn [world_of trace]. subst w2.
      rewrite answered_trace, Hw, begin_message_bytes, <- app_assoc.
      reflexivity.
  - subst w2. now rewrite answered_client.
  - now apply answered_quiet.
  - exact Hv2.
  - subst w2. rewrite answered_beginsent, Hb1. now destruct (_ =? 2).
  - subst w2 w1. now rewrite !answered_rate.
  - exact Hr.
Qed.

Lemma valid_not_sticky_witness :
  exists w1,
    deliver invalid_response (sendPoints [sample_point] (sample_world 2 0 false))
    = Done w1 tt
    /\ valid (self w1) = false
    /\ trace w1
       = trace (sample_world 2 0 false)
           ++ [Written 7%nat (write_samples_message [sample_point]);
               Invoked (next_promise (sample_world 2 0 false)) invalid_response]
    /\ awaits_promise
         (deliver (response_bytes 97 2 0 3 0) (sendPoints [sample_point] w1))
    /\ valid (self (world_of
                      (deliver (response_bytes 97 2 0 3 0)
                         (sendPoints [sample_point] w1)))) = true
    /\ trace (world_of
                (deliver (response_bytes 97 2 0 3 0)
                   (sendPoints [sample_point] w1)))
       = trace w1
           ++ [Written 7%nat (write_samples_message [sample_point]);
               Invoked (S (next_promise (sample_world 2 0 false)))
                 (response_bytes 97 2 0 3 0);
               Written 7%nat (begin_message 30000)].
Proof.
  apply (proj2 (proj2 valid_not_sticky) (sample_world 2 0 false) 7%nat 30000
           [sample_point] [sample_point] invalid_response
           (response_bytes 97 2 0 3 0)).
  - reflexivity.
  - split; reflexivity.
  - reflexivity.
  - reflexivity.
  - lia.
  - reflexivity.
  - unfold acknowledged. cbn. discriminate.
  - reflexivity.
  - reflexivity.
Defined.

(* ------------------------------------------------------------------ *)
(** ** The spare capacity *)

(** C3: [run] computes the spare capacity as 1799 minus the last fullness,
    not below 0.  When that is under 100 it waits 5 and goes on with 150
    more; otherwise it goes on at once.  Fullness 1799 gives 0 and then 150,
    fullness 1700 gives 99 and then 249. *)
Theorem spare_capacity_heuristic :
  (forall f, spare_capacity f = Z.max 0 (1799 - f))
  /\ (spare_capacity 1799 = 0 /\ spare_capacity 1799 + 150 = 150)
  /\ (spare_capacity 1700 = 99 /\ spare_capacity 1700 + 150 = 249)
  /\
  (forall w cb,
      running (self w) = true ->
      streamCallback (self w) = Some cb ->
      playback_state (self w) <> PLAYBACK_IDLE ->
      let spare := spare_capacity (fullness (self w)) in
      (spare < 100 ->
       exists k,
         run w = AwaitDelay w 5 k
         /\ forall w',
              k w' = (sendPoints (splice0 (cb tt) (spare + 150)) ;;;
                      ret Recurse) w')
      /\ (100 <= spare ->
          run w = (sendPoints (splice0 (cb tt) spare) ;;; ret Recurse) w)).
Proof.
  split; [reflexivity|]. split; [split; reflexivity|].
  split; [split; reflexivity|].
  intros w cb Hrun Hcb Hplay spare.
  rewrite (run_playing w cb Hrun Hcb Hplay).
  unfold run_batch, bind, this. cbn [bindS]. fold spare.
  split; intros Hs.
  - destruct (Z.ltb_spec spare 100); [|lia].
    cbn [delay bindS ret].
    eexists. split; [reflexivity|]. intros w'. reflexivity.
  - destruct (Z.ltb_spec spare 100); [lia|]. reflexivity.
Qed.

Lemma spare_capacity_heuristic_witness :
  exists k,
    run (sample_world 2 1799 true) = AwaitDelay (sample_world 2 1799 true) 5 k
    /\ forall w',
         k w' = (sendPoints (splice0 (sample_source tt) (0 + 150)) ;;;
                 ret Recurse) w'.
Proof.
  apply (proj2 (proj2 (proj2 spare_capacity_heuristic))
           (sample_world 2 1799 true) sample_source).
  - reflexivity.
  - reflexivity.
  - discriminate.
  - reflexivity.
Defined.

(* ------------------------------------------------------------------ *)
(** ** close *)

(** C7 (as the code has it): [close] sets the two queues, the counters, the
    fullness, the playback state, the four flags and [running] to what a
    freshly constructed session has, destroys the socket if there is one and
    forgets it, and leaves the sample source, the rate, and the address as
    they were. *)
Theorem close_resets_all_but_source_rate_address (w : World) :
  self (close w)
  = {| client := None;
       inputqueue := inputqueue initial;
       inputhandlerqueue := inputhandlerqueue initial;
       timer := timer initial;
       acks := acks initial;
       fullness := fullness initial;
       points_in_buffer := points_in_buffer initial;
       playback_state := playback_state initial;
       playsent := playsent initial;
       beginsent := beginsent initial;
       preparesent := preparesent initial;
       valid := valid initial;
       rate := rate (self w);
       streamCallback := streamCallback (self w);
       running := running initial;
       ip := ip (self w);
       port := port (self w) |}
  /\ trace (close w)
     = trace w ++ match client (self w) with
                  | Some s => [Destroyed s]
                  | None => []
                  end.
Proof.
  unfold close.
  destruct (client (self w)) as [s|] eqn:Hc; cbn; rewrite ?Hc.
  - split; reflexivity.
  - split; [reflexivity|]. now rewrite app_nil_r.
Qed.

(** C7, as stated, fails on the rate: a session configured with 30000
    points per second still has that rate after [close], where a freshly
    constructed session has none. *)
Lemma close_keeps_rate_counterexample :
  rate (self (close (sample_world 2 5 true))) = Some 30000
  /\ rate initial = None
  /\ self (close (sample_world 2 5 true))
     <> set_streamCallback (streamCallback (self (sample_world 2 5 true)))
          initial.
Proof.
  split; [reflexivity|]. split; [reflexivity|].
  intros H. apply (f_equal rate) in H. discriminate H.
Qed.

(* ------------------------------------------------------------------ *)
(** ** The response demultiplexer *)

Lemma call_self_queues h data w :
  inputqueue (self (call h data w)) = inputqueue (self w)
  /\ inputhandlerqueue (self (call h data w)) = inputhandlerqueue (self w)
  /\ trace (call h data w) = trace w ++ [Invoked (callback h) data].
Proof.
  unfold call, waitForResponse_callback, resolve.
  destruct (settled _ _); cbn [self trace with_self observe];
    now rewrite handle_inputqueue, handle_inputhandlerqueue.
Qed.

(** What one look at the queue does: nothing, or the head handler is
    called with its bytes from the front. *)
Lemma popinputqueue_cases (w : World) :
  (_popinputqueue w = w
   /\ dispatch (inputhandlerqueue (self w)) (inputqueue (self w)) = [])
  \/
  (exists h rest,
      inputhandlerqueue (self w) = h :: rest
      /\ (size h <= length (inputqueue (self w)))%nat
      /\ inputhandlerqueue (self (_popinputqueue w)) = rest
      /\ inputqueue (self (_popinputqueue w))
         = skipn (size h) (inputqueue (self w))
      /\ trace (_popinputqueue w)
         = trace w ++ [Invoked (callback h)
                         (firstn (size h) (inputqueue (self w)))]).
Proof.
  destruct (inputhandlerqueue (self w)) as [|h rest] eqn:Hh.
  - left. split; [now apply popinputqueue_no_handler|reflexivity].
  - destruct (Nat.leb_spec (size h) (length (inputqueue (self w)))) as [Hle|Hlt].
    + right. exists h, rest. split; [reflexivity|]. split; [exact Hle|].
      rewrite (popinputqueue_served w h rest Hh Hle).
      destruct (call_self_queues h (firstn (size h) (inputqueue (self w)))
                  (with_self (set_inputhandlerqueue rest)
                     (with_self
                        (set_inputqueue (skipn (size h) (inputqueue (self w))))
                        w))) as (Eq & Ehs & Et).
      rewrite Eq, Ehs, Et. repeat split.
    + left. split; [now apply (popinputqueue_starved w h rest)|].
      cbn [dispatch].
      destruct (Nat.leb_spec (size h) (length (inputqueue (self w))));
        [lia|reflexivity].
Qed.

(** Bytes that arrive later do not change what was already due. *)
Lemma dispatch_served h rest q later :
  (size h <= length q)%nat ->
  dispatch (h :: rest) (q ++ later)
  = (callback h, firstn (size h) q)
      :: dispatch rest (skipn (size h) q ++ later).
Proof.
  intros Hle. cbn [dispatch]. rewrite length_app.
  destruct (Nat.leb_spec (size h) (length q + length later)); [|lia].
  rewrite firstn_app, skipn_app.
  replace (size h - length q)%nat with 0%nat by lia.
  cbn [firstn skipn]. now rewrite app_nil_r.
Qed.

(** One look at the queue, with [later] bytes still to come, calls at most
    one continuation: the first of the ideal order. *)
Lemma popinputqueue_dispatch (w : World) (later : list Z) :
  exists k,
    (k <= 1)%nat
    /\ length (firstn k (dispatch (inputhandlerqueue (self w))
                           (inputqueue (self w) ++ later))) = k
    /\ trace (_popinputqueue w)
       = trace w
           ++ map invocation
                (firstn k (dispatch (inputhandlerqueue (self w))
                             (inputqueue (self w) ++ later)))
    /\ inputhandlerqueue (self (_popinputqueue w))
       = skipn k (inputhandlerqueue (self w))
    /\ dispatch (inputhandlerqueue (self w)) (inputqueue (self w) ++ later)
       = firstn k (dispatch (inputhandlerqueue (self w))
                     (inputqueue (self w) ++ later))
           ++ dispatch (inputhandlerqueue (self (_popinputqueue w)))
                (inputqueue (self (_popinputqueue w)) ++ later).
Proof.
  destruct (popinputqueue_cases w) as [[E _]|(h & rest & Hh & Hle & Ehs & Eq & Et)].
  - exists 0%nat. rewrite E. cbn [firstn skipn map app length].
    rewrite app_nil_r. repeat split; auto.
  - exists 1%nat. rewrite Ehs, Eq, Et, Hh.
    rewrite (dispatch_served h rest _ later Hle).
    cbn [firstn skipn map app invocation fst snd]. repeat split; auto.
Qed.

Lemma onData_fields data w :
  inputqueue (self (onData data w)) = inputqueue (self w) ++ data
  /\ inputhandlerqueue (self (onData data w)) = inputhandlerqueue (self w)
  /\ trace (onData data w) = trace w.
Proof. repeat split. Qed.

(** Over any order of chunks and timers: what has been called is a prefix of
    the ideal order over all the bytes, one call per timer at most. *)
Lemma play_dispatch (ms : list Macrotask) :
  forall (w : World) (later : list Z),
  exists n,
    (n <= timers ms)%nat
    /\ trace (play ms w)
       = trace w
           ++ map invocation
                (firstn n (dispatch (inputhandlerqueue (self w))
                             (inputqueue (self w) ++ received ms ++ later)))
    /\ inputhandlerqueue (self (play ms w))
       = skipn n (inputhandlerqueue (self w))
    /\ dispatch (inputhandlerqueue (self w))
         (inputqueue (self w) ++ received ms ++ later)
       = firstn n (dispatch (inputhandlerqueue (self w))
                     (inputqueue (self w) ++ received ms ++ later))
           ++ dispatch (inputhandlerqueue (self (play ms w)))
                (inputqueue (self (play ms w)) ++ later).
Proof.
  induction ms as [|m ms IH]; intros w later.
  - exists 0%nat. cbn [play fold_left received timers firstn skipn map app].
    rewrite app_nil_r. repeat split; auto.
  - change (play (m :: ms) w) with (play ms (macrotask m w)).
    destruct m as [data|].
    + (* a chunk: more bytes, nothing called *)
      destruct (IH (onData data w) later) as (n & Hn & Et & Ehs & Ed).
      destruct (onData_fields data w) as (Oq & Ohs & Ot).
      rewrite Ohs, Oq, <- app_assoc in Et, Ed.
      rewrite Ot in Et. rewrite Ohs in Ehs.
      exists n. cbn [received timers]. rewrite <- app_assoc.
      change (macrotask (Chunk data) w) with (onData data w).
      repeat split; assumption.
    + (* a timer: one look at the queue *)
      destruct (popinputqueue_dispatch w (received ms ++ later))
        as (k & Hk & Hlen & Et & Ehs & Ed).
      destruct (IH (_popinputqueue w) later) as (n & Hn & Et' & Ehs' & Ed').
      exists (k + n)%nat. cbn [received timers].
      change (macrotask Timer w) with (_popinputqueue w).
      set (hs := inputhandlerqueue (self w)) in *.
      set (ideal := dispatch hs (inputqueue (self w) ++ received ms ++ later))
        in *.
      set (rest := dispatch (inputhandlerqueue (self (_popinputqueue w)))
                     (inputqueue (self (_popinputqueue w))
                        ++ received ms ++ later)) in *.
      assert (Hfirst : firstn (k + n) ideal = firstn k ideal ++ firstn n rest).
      { rewrite Ed at 1. rewrite firstn_app, Hlen.
        replace (k + n - k)%nat with n by lia.
        rewrite firstn_firstn. replace (Nat.min (k + n) k) with k by lia.
        reflexivity. }
      split; [lia|]. split; [|split].
      * rewrite Et', Et, <- app_assoc, <- map_app, Hfirst. reflexivity.
      * rewrite Ehs', Ehs, skipn_skipn. f_equal. lia.
      * rewrite Hfirst, <- app_assoc, <- Ed'. exact Ed.
Qed.

Lemma feeds_play (chunks : list (list Z)) :
  forall w, feeds chunks w = play (schedule chunks) w.
Proof.
  induction chunks as [|data chunks IH]; intros w; [reflexivity|].
  change (feeds (data :: chunks) w) with (feeds chunks (feed data w)).
  now rewrite IH.
Qed.

Lemma schedule_received (chunks : list (list Z)) :
  received (schedule chunks) = concat chunks.
Proof.
  induction chunks as [|data chunks IH]; [reflexivity|].
  cbn [schedule flat_map app received concat]. now rewrite <- IH.
Qed.

Lemma schedule_timers (chunks : list (list Z)) :
  timers (schedule chunks) = length chunks.
Proof.
  induction chunks as [|data chunks IH]; [reflexivity|].
  cbn [schedule flat_map app timers length]. now rewrite <- IH.
Qed.

(** In particular when each timer fires right after its chunk. *)
Lemma feeds_dispatch (chunks : list (list Z)) :
  forall (w : World) (later : list Z),
  exists n,
    (n <= length chunks)%nat
    /\ trace (feeds chunks w)
       = trace w
           ++ map invocation
                (firstn n (dispatch (inputhandlerqueue (self w))
                             (inputqueue (self w) ++ concat chunks ++ later)))
    /\ inputhandlerqueue (self (feeds chunks w))
       = skipn n (inputhandlerqueue (self w))
    /\ dispatch (inputhandlerqueue (self w))
         (inputqueue (self w) ++ concat chunks ++ later)
       = firstn n (dispatch (inputhandlerqueue (self w))
                     (inputqueue (self w) ++ concat chunks ++ later))
           ++ dispatch (inputhandlerqueue (self (feeds chunks w)))
                (inputqueue (self (feeds chunks w)) ++ later).
Proof.
  intros w later. rewrite feeds_play.
  rewrite <- schedule_received, <- schedule_timers.
  apply play_dispatch.
Qed.

Lemma firstn_plus {A} (n m : nat) (l : list A) :
  firstn (n + m) l = firstn n l ++ firstn m (skipn n l).
Proof.
  revert l. induction n as [|n IH]; intros l; [reflexivity|].
  destruct l as [|a l]; cbn [Nat.add firstn skipn app].
  - now rewrite firstn_nil.
  - now rewrite IH.
Qed.

(** With enough bytes the ideal order serves every handler: one call each,
    in the order of the queue, each with as many bytes as it asked for, the
    bytes being the front of the stream cut up in that order. *)
Lemma dispatch_enough (hs : list Handler) :
  forall bytes,
    (sizes hs <= length bytes)%nat ->
    map fst (dispatch hs bytes) = map callback hs
    /\ map (fun pd => length (snd pd)) (dispatch hs bytes) = map size hs
    /\ concat (map snd (dispatch hs bytes)) = firstn (sizes hs) bytes.
Proof.
  induction hs as [|h hs IH]; intros bytes Hle; [repeat split|].
  cbn [sizes] in Hle |- *. cbn [dispatch].
  destruct (Nat.leb_spec (size h) (length bytes)); [|lia].
  destruct (IH (skipn (size h) bytes)) as (Hcb & Hsz & Hcat).
  { rewrite length_skipn. lia. }
  cbn [map fst snd concat]. rewrite Hcb, Hsz, Hcat.
  rewrite length_firstn, Nat.min_l by lia.
  rewrite firstn_plus. repeat split.
Qed.

Lemma dispatch_enough_length (hs : list Handler) (bytes : list Z) :
  (sizes hs <= length bytes)%nat ->
  length (dispatch hs bytes) = length hs.
Proof.
  intros Hle. destruct (dispatch_enough hs bytes Hle) as (Hcb & _).
  apply (f_equal (@length _)) in Hcb. now rewrite !length_map in Hcb.
Qed.

(** When every queued handler is due, looking at the queue once per handler
    calls them all. *)
Lemma pops_all (m : nat) :
  forall w,
    length (dispatch (inputhandlerqueue (self w)) (inputqueue (self w)))
    = length (inputhandlerqueue (self w)) ->
    (length (inputhandlerqueue (self w)) <= m)%nat ->
    trace (pops m w)
    = trace w
        ++ map invocation
             (dispatch (inputhandlerqueue (self w)) (inputqueue (self w)))
    /\ inputhandlerqueue (self (pops m w)) = [].
Proof.
  induction m as [|m IH]; intros w Hall Hm.
  - destruct (inputhandlerqueue (self w)) eqn:Hh; [|cbn in Hm; lia].
    cbn [pops dispatch map]. rewrite app_nil_r. split; [reflexivity|exact Hh].
  - cbn [pops].
    destruct (popinputqueue_cases w)
      as [[E E0]|(h & rest & Hh & Hle & Ehs & Eq & Et)].
    + rewrite E. apply IH; [exact Hall|].
      rewrite E0 in Hall.
      destruct (inputhandlerqueue (self w)); [cbn; lia|discriminate Hall].
    + rewrite Hh in Hall, Hm |- *. cbn [dispatch] in Hall |- *.
      destruct (Nat.leb_spec (size h) (length (inputqueue (self w)))); [|lia].
      cbn [length] in Hall, Hm.
      destruct (IH (_popinputqueue w)) as (Et' & Ehs').
      * rewrite Ehs, Eq. lia.
      * rewrite Ehs. lia.
      * rewrite Et', Et, Ehs, Eq, <- app_assoc. split; [reflexivity|exact Ehs'].
Qed.

(** C1 (as the code has it).  Each chunk from the socket is appended to the
    byte queue, and the timer it sets looks at the handler queue once, which
    calls at most the head handler.  In whatever order chunks come in and
    timers fire, and in particular when each timer fires right after its
    chunk, the calls made are a prefix of the ideal order over all the bytes,
    at most one per timer.  In the ideal order each handler is called once,
    in the order of registration, with exactly the number of bytes it asked
    for, cut in that order from the front of the byte stream.  When the
    bytes suffice for all queued handlers, the whole ideal order has been
    called once the queue has been looked at once more per handler. *)
Theorem demultiplexer_in_order (w : World) :
  let hs := inputhandlerqueue (self w) in
  (forall ms : list Macrotask,
      let bytes := inputqueue (self w) ++ received ms in
      exists n,
        (n <= timers ms)%nat
        /\ trace (play ms w)
           = trace w ++ map invocation (firstn n (dispatch hs bytes))
        /\ inputhandlerqueue (self (play ms w)) = skipn n hs)
  /\
  (forall chunks : list (list Z),
      let bytes := inputqueue (self w) ++ concat chunks in
      (exists n,
          (n <= length chunks)%nat
          /\ trace (feeds chunks w)
             = trace w ++ map invocation (firstn n (dispatch hs bytes))
          /\ inputhandlerqueue (self (feeds chunks w)) = skipn n hs)
      /\
      ((sizes hs <= length bytes)%nat ->
         (map fst (dispatch hs bytes) = map callback hs
          /\ map (fun pd => length (snd pd)) (dispatch hs bytes) = map size hs
          /\ concat (map snd (dispatch hs bytes)) = firstn (sizes hs) bytes)
         /\ trace (pops (length hs) (feeds chunks w))
            = trace w ++ map invocation (dispatch hs bytes)
         /\ inputhandlerqueue (self (pops (length hs) (feeds chunks w)))
            = [])).
Proof.
  intros hs. split.
  { intros ms bytes.
    destruct (play_dispatch ms w []) as (n & Hn & Et & Ehs & _).
    rewrite app_nil_r in Et. exists n. repeat split; assumption. }
  intros chunks bytes.
  destruct (feeds_dispatch chunks w []) as (n & Hn & Et & Ehs & Ed).
  rewrite app_nil_r in Et. rewrite !app_nil_r in Ed.
  fold hs bytes in Et, Ehs, Ed.
  split; [exists n; repeat split; assumption|].
  intros Hle. split; [now apply dispatch_enough|].
  pose proof (dispatch_enough_length hs bytes Hle) as Hlen.
  set (w' := feeds chunks w) in *.
  assert (Hrest : length (dispatch (inputhandlerqueue (self w'))
                            (inputqueue (self w')))
                  = length (inputhandlerqueue (self w'))).
  { apply (f_equal (@length _)) in Ed.
    rewrite length_app, Hlen, length_firstn, Hlen in Ed.
    replace (length (inputhandlerqueue (self w'))) with (length hs - n)%nat
      by now rewrite Ehs, length_skipn.
    lia. }
  destruct (pops_all (length hs) w' Hrest) as (Et' & Ehs').
  { rewrite Ehs, length_skipn. lia. }
  split; [|exact Ehs'].
  rewrite Et', Et, <- app_assoc, <- map_app, <- Ed. reflexivity.
Qed.

Lemma demultiplexer_in_order_witness :
  (map fst
     (dispatch (inputhandlerqueue (self pipelined_world))
        (inputqueue (self pipelined_world)
           ++ concat [underrun_response; invalid_response]))
   = map callback (inputhandlerqueue (self pipelined_world))
   /\ map (fun pd => length (snd pd))
        (dispatch (inputhandlerqueue (self pipelined_world))
           (inputqueue (self pipelined_world)
              ++ concat [underrun_response; invalid_response]))
      = map size (inputhandlerqueue (self pipelined_world))
   /\ concat
        (map snd
           (dispatch (inputhandlerqueue (self pipelined_world))
              (inputqueue (self pipelined_world)
                 ++ concat [underrun_response; invalid_response])))
      = firstn (sizes (inputhandlerqueue (self pipelined_world)))
          (inputqueue (self pipelined_world)
             ++ concat [underrun_response; invalid_response]))
  /\ trace
       (pops (length (inputhandlerqueue (self pipelined_world)))
          (feeds [underrun_response; invalid_response] pipelined_world))
     = trace pipelined_world
         ++ map invocation
              (dispatch (inputhandlerqueue (self pipelined_world))
                 (inputqueue (self pipelined_world)
                    ++ concat [underrun_response; invalid_response]))
  /\ inputhandlerqueue
       (self
          (pops (length (inputhandlerqueue (self pipelined_world)))
             (feeds [underrun_response; invalid_response] pipelined_world)))
     = [].
Proof.
  apply (proj2 (proj2 (demultiplexer_in_order pipelined_world)
                  [underrun_response; invalid_response])).
  vm_compute. lia.
Defined.

(** C1, as stated, fails when one chunk carries two responses: both
    handlers are due, 44 bytes are there, but the single look at the queue
    that follows the chunk calls the first handler only; the second stays
    queued with its 22 bytes waiting. *)
Lemma one_chunk_two_responses_counterexample :
  (sizes (inputhandlerqueue (self pipelined_world))
   <= length (concat [underrun_response ++ invalid_response]))%nat
  /\ trace (feeds [underrun_response ++ invalid_response] pipelined_world)
     = [Invoked 0%nat underrun_response]
  /\ inputhandlerqueue
       (self (feeds [underrun_response ++ invalid_response] pipelined_world))
     = [mkHandler STANDARD_RESPONSE_SIZE 1%nat]
  /\ inputqueue
       (self (feeds [underrun_response ++ invalid_response] pipelined_world))
     = invalid_response
  /\ trace (feeds [underrun_response ++ invalid_response] pipelined_world)
     <> trace pipelined_world
          ++ map invocation
               (dispatch (inputhandlerqueue (self pipelined_world))
                  (inputqueue (self pipelined_world)
                     ++ concat [underrun_response ++ invalid_response])).
Proof.
  split; [vm_compute; lia|].
  split; [reflexivity|].
  split; [reflexivity|].
  split; [reflexivity|].
  vm_compute. discriminate.
Qed.

(* ------------------------------------------------------------------ *)
(** ** Path.draw: commands out of sequence *)

Section PathSequencing.

Variable num : Type.
Variable div : num -> num -> num.
Variable zero : num.
Variables Point Color : Type.
Variable new_Point : num -> num -> Point.
Variable Line_draw : num * num -> num * num -> Color -> num -> list Point.
Variable Curve_draw :
  num * num * (num * num) -> num * num * (num * num) -> Color -> num ->
  list Point.
Variable SVGPathData_toAbs : string -> Path.Result (list (Path.Command num)).

Local Abbreviation Command := (Path.Command num).
Local Abbreviation Vars := (Path.Vars num).
Local Abbreviation drawCommand :=
  (Path.drawCommand num Point Color new_Point Line_draw Curve_draw).
Local Abbreviation mapCommands :=
  (Path.mapCommands num Point Color new_Point Line_draw Curve_draw).
Local Abbreviation draw :=
  (Path.draw num div zero Point Color new_Point Line_draw Curve_draw
     SVGPathData_toAbs).

(** A command that throws under an invariant of the variables, after
    commands that keep the invariant or throw themselves. *)
Section FirstThrow.

Variable self : Path.t num Color.
Variable resolution : num.
Variable inv : Vars -> Prop.
Variable allowed : Command -> Prop.
Variable expected : string -> Prop.
Variable offending : Command.

Hypothesis allowed_step :
  forall v command,
    inv v -> allowed command ->
    (exists e, drawCommand self resolution v command = Path.Throw e
               /\ expected e)
    \/ (exists points v',
           drawCommand self resolution v command = Path.Ok (points, v')
           /\ inv v').

Hypothesis offending_throws :
  forall v, inv v ->
    exists e, drawCommand self resolution v offending = Path.Throw e
              /\ expected e.

Lemma mapCommands_first_throw (before after : list Command) :
  forall v,
    inv v -> Forall allowed before ->
    exists e,
      mapCommands self resolution v (before ++ offending :: after)
      = Path.Throw e
      /\ expected e.
Proof.
  induction before as [|command before IH]; intros v Hv Hall.
  - cbn [app Path.mapCommands].
    destruct (offending_throws v Hv) as (e & -> & He). now exists e.
  - inversion Hall as [|? ? Hc Hrest]; subst.
    cbn [app Path.mapCommands].
    destruct (allowed_step v command Hv Hc)
      as [(e & -> & He)|(points & v' & -> & Hv')].
    + now exists e.
    + destruct (IH v' Hv' Hrest) as (e & -> & He). now exists e.
Qed.

End FirstThrow.

Lemma scale_kind (self : Path.t num Color) (command : Command) :
  Path.is_curve num (Path.scale num div Color self command) = Path.is_curve num command
  /\ Path.is_smooth_curve num (Path.scale num div Color self command)
     = Path.is_smooth_curve num command
  /\ Path.is_move num (Path.scale num div Color self command) = Path.is_move num command
  /\ Path.is_close num (Path.scale num div Color self command) = Path.is_close num command.
Proof. destruct command; repeat split. Qed.

Lemma draw_throws (self : Path.t num Color) (resolution : num)
  (before after : list Command) (offending : Command) (e : string) :
  mapCommands self resolution (Path.mkVars num None None zero zero)
    (map (Path.scale num div Color self) before
       ++ Path.scale num div Color self offending
       :: map (Path.scale num div Color self) after)
  = Path.Throw e ->
  SVGPathData_toAbs (Path.path num Color self)
  = Path.Ok (before ++ offending :: after) ->
  draw self resolution = Path.Throw e.
Proof.
  intros Hmap Hparse. unfold Path.draw. rewrite Hparse. cbv beta iota zeta.
  rewrite map_app. cbn [map]. rewrite Hmap.
  destruct (map _ before ++ _ :: map _ after) eqn:E; [|reflexivity].
  now destruct (map (Path.scale num div Color self) before).
Qed.

(** Once a move has been seen, the close-path check of the callback
    passes: what [map] throws is the smooth-curve error. *)
Lemma mapCommands_after_move (self : Path.t num Color) (resolution : num)
  (commands : list Command) :
  forall (v : Vars) (e : string),
    Path.lastMoveCommand num v <> None ->
    mapCommands self resolution v commands = Path.Throw e ->
    e = Path.smooth_curve_error.
Proof.
  induction commands as [|command commands IH]; intros v e Hm;
    [discriminate|].
  cbn [Path.mapCommands].
  destruct (drawCommand self resolution v command) as [[points v']|e']
    eqn:Ed.
  - assert (Hm' : Path.lastMoveCommand num v' <> None).
    { destruct command; cbn [Path.drawCommand] in Ed;
        try (injection Ed as _ <-; cbn [Path.lastMoveCommand];
             solve [exact Hm | discriminate]).
      - destruct (Path.lastCurveCommand num v); [|discriminate Ed].
        injection Ed as _ <-. exact Hm.
      - destruct (Path.lastMoveCommand num v) as [[mx my]|];
          [|discriminate Ed].
        injection Ed as _ <-. cbn [Path.lastMoveCommand]. discriminate. }
    destruct (mapCommands self resolution v' commands) as [rest|e''] eqn:Em;
      [discriminate|].
    intros [= <-]. now apply (IH v').
  - intros [= <-].
    destruct command; cbn [Path.drawCommand] in Ed; try discriminate Ed.
    + destruct (Path.lastCurveCommand num v); [discriminate Ed|].
      now injection Ed as <-.
    + destruct (Path.lastMoveCommand num v) as [[mx my]|];
        [discriminate Ed|contradiction].
Qed.

(** C8: when the parsed path has a smooth-curve command with no curve
    command before it, or a close-path command with no move command
    before it, [draw] throws and returns no points: the error of that
    command, unless an earlier command is itself out of sequence and has
    thrown the other one.  An error thrown by the parser leaves [draw] as
    it is, and no points are returned either.  Where the parser only
    yields paths that start with a move, as svg-pathdata's [toAbs] does,
    no close-path command reaches the check without a move before it:
    every error of [draw] is then the parser's or the smooth-curve one. *)
Theorem draw_out_of_sequence_throws
  (self : Path.t num Color) (resolution : num)
  (before after : list Command) :
  (forall x2 y2 x y,
      SVGPathData_toAbs (Path.path num Color self)
      = Path.Ok (before ++ Path.SMOOTH_CURVE_TO num x2 y2 x y :: after) ->
      Forall (fun c => Path.is_curve num c = false) before ->
      (exists e,
          draw self resolution = Path.Throw e
          /\ (e = Path.smooth_curve_error \/ e = Path.close_path_error))
      /\ (Forall (fun c => Path.is_close num c = false) before ->
          draw self resolution = Path.Throw Path.smooth_curve_error))
  /\
  (SVGPathData_toAbs (Path.path num Color self)
   = Path.Ok (before ++ Path.CLOSE_PATH num :: after) ->
   Forall (fun c => Path.is_move num c = false) before ->
   (exists e,
       draw self resolution = Path.Throw e
       /\ (e = Path.close_path_error \/ e = Path.smooth_curve_error))
   /\ (Forall (fun c => Path.is_smooth_curve num c = false) before ->
       draw self resolution = Path.Throw Path.close_path_error))
  /\
  (forall e,
      SVGPathData_toAbs (Path.path num Color self) = Path.Throw e ->
      draw self resolution = Path.Throw e)
  /\
  ((forall commands,
       SVGPathData_toAbs (Path.path num Color self) = Path.Ok commands ->
       starts_with_move commands) ->
   forall e,
     draw self resolution = Path.Throw e ->
     SVGPathData_toAbs (Path.path num Color self) = Path.Throw e
     \/ e = Path.smooth_curve_error).
Proof.
  set (sc := Path.scale num div Color self).
  assert (Hkind : forall (kind : Command -> bool) l,
             (forall c, kind (sc c) = kind c) ->
             Forall (fun c => kind c = false) l ->
             Forall (fun c => kind c = false) (map sc l)).
  { intros kind l Hk Hl. apply Forall_map.
    eapply Forall_impl; [|exact Hl]. intros c Hc. now rewrite Hk. }
  split; [|split; [|split]].
  - intros x2 y2 x y Hparse Hcurve. split.
    + destruct (mapCommands_first_throw self resolution
                  (fun v => Path.lastCurveCommand num v = None)
                  (fun c => Path.is_curve num c = false)
                  (fun e => e = Path.smooth_curve_error
                            \/ e = Path.close_path_error)
                  (sc (Path.SMOOTH_CURVE_TO num x2 y2 x y)))
        with (before := map sc before) (after := map sc after)
             (v := Path.mkVars num None None zero zero)
        as (e & He & Hexp).
      * intros v command Hv Hc.
        destruct command; try discriminate Hc; cbn [Path.drawCommand];
          try (right; eexists _, _; split; [reflexivity|exact Hv]).
        -- left. rewrite Hv. eexists. split; [reflexivity|now left].
        -- destruct (Path.lastMoveCommand num v) as [[mx my]|].
           ++ right. eexists _, _. split; [reflexivity|exact Hv].
           ++ left. eexists. split; [reflexivity|now right].
      * intros v Hv. cbn [Path.scale sc Path.drawCommand]. rewrite Hv.
        eexists. split; [reflexivity|now left].
      * reflexivity.
      * apply Hkind; [intros c; apply scale_kind|exact Hcurve].
      * exists e. split; [|exact Hexp].
        now apply (draw_throws self resolution before after
                     (Path.SMOOTH_CURVE_TO num x2 y2 x y)).
    + intros Hclose.
      destruct (mapCommands_first_throw self resolution
                  (fun v => Path.lastCurveCommand num v = None)
                  (fun c => Path.is_curve num c = false /\ Path.is_close num c = false)
                  (fun e => e = Path.smooth_curve_error)
                  (sc (Path.SMOOTH_CURVE_TO num x2 y2 x y)))
        with (before := map sc before) (after := map sc after)
             (v := Path.mkVars num None None zero zero)
        as (e & He & ->).
      * intros v command Hv [Hc Hz].
        destruct command; try discriminate Hc; try discriminate Hz;
          cbn [Path.drawCommand];
          try (right; eexists _, _; split; [reflexivity|exact Hv]).
        left. rewrite Hv. eexists. split; reflexivity.
      * intros v Hv. cbn [Path.scale sc Path.drawCommand]. rewrite Hv.
        eexists. split; reflexivity.
      * reflexivity.
      * apply Forall_map. rewrite Forall_forall in *. intros c Hin.
        subst sc. cbv beta.
        destruct (scale_kind self c) as (-> & _ & _ & ->).
        split; auto.
      * now apply (draw_throws self resolution before after
                     (Path.SMOOTH_CURVE_TO num x2 y2 x y)).
  - intros Hparse Hmove. split.
    + destruct (mapCommands_first_throw self resolution
                  (fun v => Path.lastMoveCommand num v = None)
                  (fun c => Path.is_move num c = false)
                  (fun e => e = Path.close_path_error
                            \/ e = Path.smooth_curve_error)
                  (sc (Path.CLOSE_PATH num)))
        with (before := map sc before) (after := map sc after)
             (v := Path.mkVars num None None zero zero)
        as (e & He & Hexp).
      * intros v command Hv Hc.
        destruct command; try discriminate Hc; cbn [Path.drawCommand];
          try (right; eexists _, _; split; [reflexivity|exact Hv]).
        -- destruct (Path.lastCurveCommand num v) as [last|].
           ++ right. eexists _, _. split; [reflexivity|exact Hv].
           ++ left. eexists. split; [reflexivity|now right].
        -- left. rewrite Hv. eexists. split; [reflexivity|now left].
      * intros v Hv. cbn [Path.scale sc Path.drawCommand]. rewrite Hv.
        eexists. split; [reflexivity|now left].
      * reflexivity.
      * apply Hkind; [intros c; apply scale_kind|exact Hmove].
      * exists e. split; [|exact Hexp].
        now apply (draw_throws self resolution before after
                     (Path.CLOSE_PATH num)).
    + intros Hsmooth.
      destruct (mapCommands_first_throw self resolution
                  (fun v => Path.lastMoveCommand num v = None)
                  (fun c => Path.is_move num c = false /\ Path.is_smooth_curve num c = false)
                  (fun e => e = Path.close_path_error)
                  (sc (Path.CLOSE_PATH num)))
        with (before := map sc before) (after := map sc after)
             (v := Path.mkVars num None None zero zero)
        as (e & He & ->).
      * intros v command Hv [Hc Hz].
        destruct command; try discriminate Hc; try discriminate Hz;
          cbn [Path.drawCommand];
          try (right; eexists _, _; split; [reflexivity|exact Hv]).
        left. rewrite Hv. eexists. split; reflexivity.
      * intros v Hv. cbn [Path.scale sc Path.drawCommand]. rewrite Hv.
        eexists. split; reflexivity.
      * reflexivity.
      * apply Forall_map. rewrite Forall_forall in *. intros c Hin.
        subst sc. cbv beta.
        destruct (scale_kind self c) as (_ & -> & -> & _).
        split; auto.
      * now apply (draw_throws self resolution before after
                     (Path.CLOSE_PATH num)).
  - intros e Hparse. unfold Path.draw. now rewrite Hparse.
  - intros Hstart e. unfold Path.draw.
    destruct (SVGPathData_toAbs (Path.path num Color self))
      as [parsed|e'] eqn:Hparse; [|intros [= <-]; now left].
    specialize (Hstart parsed eq_refl). cbv beta iota zeta.
    destruct parsed as [|command parsed]; [discriminate|].
    destruct command; try discriminate Hstart.
    cbn [map Path.scale Path.mapCommands Path.drawCommand].
    match goal with
    | |- context [mapCommands self resolution ?v ?l] =>
        destruct (mapCommands self resolution v l) as [points|e''] eqn:Em
    end.
    + discriminate.
    + intros [= <-]. right.
      eapply mapCommands_after_move; [|exact Em].
      cbn [Path.lastMoveCommand]. discriminate.
Qed.

End PathSequencing.

Lemma draw_out_of_sequence_throws_witness :
  sample_draw smooth_without_curve = Path.Throw Path.smooth_curve_error
  /\ sample_draw_checked close_without_move = Path.Throw start_error
  /\ (forall e,
        sample_draw_checked smooth_without_curve = Path.Throw e ->
        checked smooth_without_curve = Path.Throw e
        \/ e = Path.smooth_curve_error).
Proof.
  split; [|split].
  - apply (proj1 (draw_out_of_sequence_throws Z Z.div 0 (Z * Z)%type unit pair
                    (fun _ to _ _ => [to]) (fun _ to _ _ => [fst to])
                    (fun _ => Path.Ok smooth_without_curve) sample_path 10
                    [Path.MOVE_TO Z 0 0; Path.LINE_TO Z 10 0]
                    [Path.CLOSE_PATH Z]) 5 5 10 10).
    + reflexivity.
    + repeat constructor.
    + repeat constructor.
  - apply (proj1 (proj2 (proj2
             (draw_out_of_sequence_throws Z Z.div 0 (Z * Z)%type unit pair
                (fun _ to _ _ => [to]) (fun _ to _ _ => [fst to])
                (fun _ => checked close_without_move) sample_path 10
                [] [])))).
    reflexivity.
  - apply (proj2 (proj2 (proj2
             (draw_out_of_sequence_throws Z Z.div 0 (Z * Z)%type unit pair
                (fun _ to _ _ => [to]) (fun _ to _ _ => [fst to])
                (fun _ => checked smooth_without_curve) sample_path 10
                [] [])))).
    intros commands [= <-]. reflexivity.
Defined.

(** With a parser that lets such a path through, it is the check of
    [draw] that throws. *)
Example close_without_move_throws :
  sample_draw close_without_move = Path.Throw Path.close_path_error.
Proof. reflexivity. Qed.

Example triangle_is_drawn :
  sample_draw [Path.MOVE_TO Z 0 0; Path.LINE_TO Z 10 0; Path.LINE_TO Z 10 10;
               Path.CLOSE_PATH Z]
  = Path.Ok [(0, 0); (10, 0); (10, 10); (0, 0)].
Proof. reflexivity. Qed.

(* ------------------------------------------------------------------ *)
(** ** After close *)

Lemma close_fields (w : World) :
  client (self (close w)) = None
  /\ inputqueue (self (close w)) = []
  /\ inputhandlerqueue (self (close w)) = []
  /\ running (self (close w)) = false
  /\ promises (close w) = promises w
  /\ next_promise (close w) = next_promise w.
Proof.
  unfold close.
  destruct (client (self w)) as [s|] eqn:Hc; cbn; rewrite ?Hc; repeat split.
Qed.

(** With no handler queued, chunks and timers only pile up bytes. *)
Lemma play_no_handler (ms : list Macrotask) :
  forall w,
    inputhandlerqueue (self w) = [] ->
    trace (play ms w) = trace w
    /\ promises (play ms w) = promises w
    /\ inputhandlerqueue (self (play ms w)) = []
    /\ inputqueue (self (play ms w)) = inputqueue (self w) ++ received ms.
Proof.
  induction ms as [|m ms IH]; intros w Hh.
  - cbn [play fold_left received]. rewrite app_nil_r. repeat split; auto.
  - change (play (m :: ms) w) with (play ms (macrotask m w)).
    destruct m as [data|].
    + destruct (IH (onData data w) Hh) as (Et & Ep & Ehs & Eq).
      change (macrotask (Chunk data) w) with (onData data w).
      rewrite Et, Ep, Ehs, Eq. cbn [received].
      destruct (onData_fields data w) as (-> & _ & _).
      rewrite <- app_assoc. repeat split.
    + change (macrotask Timer w) with (_popinputqueue w).
      rewrite (popinputqueue_no_handler w Hh). now apply IH.
Qed.

Lemma deliver_no_handler {A} (data : list Z) (w : World) (p : PromiseId)
  (k : list Z -> World -> Step A) :
  inputhandlerqueue (self w) = [] -> settled w p = None ->
  deliver data (AwaitPromise w p k) = AwaitPromise (feed data w) p k
  /\ inputhandlerqueue (self (feed data w)) = []
  /\ settled (feed data w) p = None
  /\ trace (feed data w) = trace w.
Proof.
  intros Hh Hp.
  assert (E : feed data w = onData data w)
    by (unfold feed, onData_timeout; now apply popinputqueue_no_handler).
  unfold deliver. cbn [in_world resume]. rewrite E.
  change (settled (onData data w) p) with (settled w p). rewrite Hp.
  repeat split; auto.
Qed.

(** X1: [close] drops what was queued for good.  Whatever chunks come in
    and timers fire afterwards, no continuation is called and no promise is
    resolved; the bytes only pile up.  A body that was waiting for a response
    when the session was closed stays suspended whatever comes in. *)
Theorem close_drops_pending (w : World) :
  (forall ms : list Macrotask,
      trace (play ms (close w)) = trace (close w)
      /\ promises (play ms (close w)) = promises w
      /\ inputhandlerqueue (self (play ms (close w))) = []
      /\ inputqueue (self (play ms (close w))) = received ms)
  /\
  (forall (A : Type) (p : PromiseId) (k : list Z -> World -> Step A)
          (chunks : list (list Z)),
      settled w p = None ->
      exists w',
        delivers chunks (in_world close (AwaitPromise w p k))
        = AwaitPromise w' p k
        /\ trace w' = trace (close w)).
Proof.
  destruct (close_fields w) as (_ & Hq & Hh & _ & Hp & _).
  split.
  - intros ms. destruct (play_no_handler ms (close w) Hh) as (Et & Ep & Ehs & Eq).
    rewrite Et, Ep, Ehs, Eq, Hq, Hp. repeat split.
  - intros A p k chunks Hpend. cbn [in_world].
    assert (Hpend' : settled (close w) p = None)
      by (unfold settled in *; now rewrite Hp).
    revert Hh Hpend'. generalize (eq_refl (trace (close w))).
    generalize (close w) at 1 3 4 5 as w0.
    induction chunks as [|data chunks IH]; intros w0 Ht Hh0 Hp0.
    + exists w0. split; [reflexivity|exact Ht].
    + destruct (deliver_no_handler data w0 p k Hh0 Hp0) as (E & Hh1 & Hp1 & Ht1).
      change (delivers (data :: chunks) (AwaitPromise w0 p k))
        with (delivers chunks (deliver data (AwaitPromise w0 p k))).
      rewrite E. apply IH; [now rewrite Ht1|exact Hh1|exact Hp1].
Qed.

Lemma close_drops_pending_witness :
  exists w',
    delivers [response_bytes 97 1 0 0 0; response_bytes 97 2 0 3 0]
      (in_world close
         (AwaitPromise pipelined_world 0%nat (fun _ w => Done w tt)))
    = AwaitPromise w' 0%nat (fun _ w => Done w tt)
    /\ trace w' = trace (close pipelined_world).
Proof.
  apply (proj2 (close_drops_pending pipelined_world) unit 0%nat
           (fun _ w => Done w tt)
           [response_bytes 97 1 0 0 0; response_bytes 97 2 0 3 0] eq_refl).
Defined.

(** X2: on a closed session the scheduler stops at its first line: [run]
    returns at once, writes nothing and does not call itself again, however
    often it is started. *)
Theorem run_after_close (w : World) (n : nat) :
  run (close w) = Done (close w) Return
  /\ run_loop n (close w) = Done (close w) tt.
Proof.
  destruct (close_fields w) as (_ & _ & _ & Hr & _).
  assert (E : run (close w) = Done (close w) Return)
    by (unfold run, bind, this; cbn [bindS]; now rewrite Hr).
  split; [exact E|].
  destruct n as [|n]; [reflexivity|].
  cbn [run_loop]. unfold bind at 1. now rewrite E.
Qed.

Lemma send_no_client (cmd : list Z) (w : World) :
  client (self w) = None -> _send cmd w = Threw w no_client_error.
Proof. unfold _send. now intros ->. Qed.

(** X3: on a session without a socket, never connected or closed, every
    command fails before it does anything: it throws the [TypeError] of the
    missing socket, queues no handler and leaves the world as it is. *)
Theorem commands_without_socket (w : World) (r : Z) (points : list IPoint.t) :
  client (self w) = None ->
  sendPing w = Threw w no_client_error
  /\ sendPrepare w = Threw w no_client_error
  /\ sendStop w = Threw w no_client_error
  /\ sendEmergencyStop w = Threw w no_client_error
  /\ sendUpdate r w = Threw w no_client_error
  /\ sendPoints points w = Threw w no_client_error
  /\ (r <> 0 -> sendBegin (Some r) w = Threw w no_client_error).
Proof.
  intros Hc.
  assert (E : forall A cmd (f : unit -> Async A),
             bind (_send cmd) f w = Threw w no_client_error)
    by (intros; unfold bind; now rewrite send_no_client).
  repeat split; try apply E.
  intros Hr. unfold sendBegin.
  destruct (Z.eqb_spec r 0) as [|_]; [contradiction|]. apply E.
Qed.

Lemma commands_without_socket_witness :
  sendPoints [sample_point] (close (sample_world 2 0 true))
  = Threw (close (sample_world 2 0 true)) no_client_error.
Proof.
  apply (proj1 (proj2 (proj2 (proj2 (proj2 (proj2
           (commands_without_socket (close (sample_world 2 0 true)) 30000
              [sample_point] eq_refl))))))).
Defined.

(* ------------------------------------------------------------------ *)
(** ** The demultiplexer keeps the byte stream *)

Lemma delivered_app (tr1 tr2 : list Obs) :
  delivered (tr1 ++ tr2) = delivered tr1 ++ delivered tr2.
Proof.
  induction tr1 as [|o tr1 IH]; [reflexivity|].
  destruct o; cbn [app delivered]; rewrite IH; auto using app_assoc.
Qed.

Lemma popinputqueue_conserves (w : World) :
  delivered (trace (_popinputqueue w)) ++ inputqueue (self (_popinputqueue w))
  = delivered (trace w) ++ inputqueue (self w).
Proof.
  destruct (popinputqueue_cases w)
    as [[-> _]|(h & rest & _ & _ & _ & Eq & Et)]; [reflexivity|].
  rewrite Eq, Et, delivered_app. cbn [delivered].
  rewrite app_nil_r, <- app_assoc, firstn_skipn. reflexivity.
Qed.

(** X4: no byte is lost, repeated or moved.  In whatever order chunks come
    in and timers fire, the bytes handed to continuations so far, followed by
    the bytes still queued, are the bytes that were there before followed by
    the bytes that came in. *)
Theorem demultiplexer_conserves_bytes (ms : list Macrotask) :
  forall w : World,
    delivered (trace (play ms w)) ++ inputqueue (self (play ms w))
    = delivered (trace w) ++ inputqueue (self w) ++ received ms.
Proof.
  induction ms as [|m ms IH]; intros w.
  - cbn [play fold_left received]. now rewrite app_nil_r.
  - change (play (m :: ms) w) with (play ms (macrotask m w)).
    rewrite IH. destruct m as [data|]; cbn [received].
    + change (macrotask (Chunk data) w) with (onData data w).
      destruct (onData_fields data w) as (-> & _ & ->).
      now rewrite <- app_assoc.
    + change (macrotask Timer w) with (_popinputqueue w).
      now rewrite app_assoc, popinputqueue_conserves, <- app_assoc.
Qed.

(** X5: a send and an expect each look at the queue once.  When the head
    handler is due, [_send] writes its command and then calls that handler;
    [waitForResponse] queues its own handler behind the others and calls
    the head one, not its own. *)
Theorem send_and_expect_look_once (w : World) (c : Socket) (cmd : list Z)
  (h : Handler) (rest : list Handler) (n : nat) :
  client (self w) = Some c ->
  inputhandlerqueue (self w) = h :: rest ->
  (size h <= length (inputqueue (self w)))%nat ->
  let response := firstn (size h) (inputqueue (self w)) in
  (exists w',
      _send cmd w = Done w' tt
      /\ trace w'
         = trace w ++ [Written c (Buffer_from_binary cmd);
                       Invoked (callback h) response]
      /\ inputhandlerqueue (self w') = rest
      /\ inputqueue (self w') = skipn (size h) (inputqueue (self w)))
  /\
  (exists w',
      waitForResponse n w = Done w' (next_promise w)
      /\ trace w' = trace w ++ [Invoked (callback h) response]
      /\ inputhandlerqueue (self w') = rest ++ [mkHandler n (next_promise w)]
      /\ inputqueue (self w') = skipn (size h) (inputqueue (self w))).
Proof.
  intros Hc Hh Hle response. split.
  - unfold _send. rewrite Hc. eexists. split; [reflexivity|].
    destruct (popinputqueue_cases
                (observe (Written c (Buffer_from_binary cmd)) w))
      as [[_ E0]|(h' & rest' & Hh' & _ & Ehs & Eq & Et)].
    + exfalso. cbn [observe self] in E0. rewrite Hh in E0.
      cbn [dispatch] in E0.
      destruct (Nat.leb_spec (size h) (length (inputqueue (self w))));
        [discriminate E0|lia].
    + cbn [observe self] in Hh'. rewrite Hh in Hh'.
      injection Hh' as <- <-.
      rewrite Et, Ehs, Eq. cbn [observe trace self].
      rewrite <- app_assoc. repeat split.
  - unfold waitForResponse, new_promise. eexists. split; [reflexivity|].
    match goal with
    | |- context [_popinputqueue ?x] =>
        destruct (popinputqueue_cases x)
          as [[_ E0]|(h' & rest' & Hh' & _ & Ehs & Eq & Et)]
    end.
    + exfalso. cbn [with_self self inputhandlerqueue inputqueue
                    set_inputhandlerqueue] in E0.
      rewrite Hh in E0. cbn [app dispatch] in E0.
      destruct (Nat.leb_spec (size h) (length (inputqueue (self w))));
        [discriminate E0|lia].
    + cbn [with_self self inputhandlerqueue set_inputhandlerqueue] in Hh'.
      rewrite Hh in Hh'. cbn [app] in Hh'. injection Hh' as <- <-.
      rewrite Et, Ehs, Eq. repeat split.
Qed.

Lemma send_and_expect_look_once_witness :
  exists w',
    _send [chr_question] (onData underrun_response pipelined_world)
    = Done w' tt
    /\ trace w'
       = trace (onData underrun_response pipelined_world)
           ++ [Written 7%nat (Buffer_from_binary [chr_question]);
               Invoked 0%nat
                 (firstn STANDARD_RESPONSE_SIZE
                    (inputqueue
                       (self (onData underrun_response pipelined_world))))]
    /\ inputhandlerqueue (self w') = [mkHandler STANDARD_RESPONSE_SIZE 1%nat]
    /\ inputqueue (self w')
       = skipn STANDARD_RESPONSE_SIZE
           (inputqueue (self (onData underrun_response pipelined_world))).
Proof.
  apply (proj1 (send_and_expect_look_once
                  (onData underrun_response pipelined_world) 7%nat
                  [chr_question] (mkHandler STANDARD_RESPONSE_SIZE 0%nat)
                  [mkHandler STANDARD_RESPONSE_SIZE 1%nat] 0%nat
                  eq_refl eq_refl ltac:(vm_compute; lia))).
Defined.

(* ------------------------------------------------------------------ *)
(** ** Commands and their responses *)

(** A response that is already queued when the command is issued is taken
    by it at once. *)
Lemma exchange_early {A} (w : World) (c : Socket) (cmd data : list Z)
  (rest : list Z -> Async A) :
  client (self w) = Some c -> quiet w ->
  length data = STANDARD_RESPONSE_SIZE ->
  exchange cmd rest (onData data w) = rest data (answered c cmd data w).
Proof.
  intros Hc [Hq Hh] Hlen.
  unfold exchange, bind, _send.
  change (client (self (onData data w))) with (client (self w)). rewrite Hc.
  cbn [bindS].
  rewrite popinputqueue_no_handler by exact Hh.
  unfold waitForResponse, new_promise.
  rewrite popinputqueue_served
    with (h := mkHandler STANDARD_RESPONSE_SIZE (next_promise w)) (rest := [])
    by (cbn [with_self observe onData self inputhandlerqueue inputqueue
             set_inputhandlerqueue set_inputqueue size];
        rewrite ?Hh, ?Hq; cbn [app]; auto; lia).
  cbn [bindS size callback].
  cbn [with_self observe onData self inputqueue inputhandlerqueue
       set_inputhandlerqueue set_inputqueue trace next_promise promises].
  rewrite Hq. cbn [app]. rewrite <- Hlen, firstn_all, skipn_all.
  unfold call, waitForResponse_callback, resolve, settled.
  cbn [observe with_self self trace next_promise promises callback
       promise_state].
  rewrite Nat.eqb_refl.
  unfold await, settled. cbn [promises promise_state bindS].
  rewrite Nat.eqb_refl.
  cbn [bindS]. unfold answered. f_equal. f_equal.
  - f_equal. destruct (self w); cbn in *; now subst.
  - now rewrite <- app_assoc.
Qed.

(** X6: it does not matter whether the response comes in before or after
    the command is issued.  When the 22 bytes are already queued, each command
    takes them as its response without waiting, and ends as it would have
    ended had they come in afterwards. *)
Theorem response_before_command (w : World) (c : Socket) (data : list Z)
  (rate : Z) (points : list IPoint.t) :
  client (self w) = Some c -> quiet w ->
  length data = STANDARD_RESPONSE_SIZE ->
  sendPing (onData data w) = deliver data (sendPing w)
  /\ sendPrepare (onData data w) = deliver data (sendPrepare w)
  /\ sendStop (onData data w) = deliver data (sendStop w)
  /\ sendEmergencyStop (onData data w) = deliver data (sendEmergencyStop w)
  /\ sendUpdate rate (onData data w) = deliver data (sendUpdate rate w)
  /\ sendPoints points (onData data w) = deliver data (sendPoints points w).
Proof.
  intros Hc Hq Hlen.
  assert (E : forall A cmd (rest : list Z -> Async A),
             exchange cmd rest (onData data w)
             = deliver data (exchange cmd rest w)).
  { intros. rewrite (deliver_exchange w c Hc Hq) by exact Hlen.
    now apply exchange_early. }
  repeat split.
  - apply (E _ [chr_question] (fun _ => ret tt)).
  - apply (E _ [chr_p] (fun _ => effect (with_self (set_preparesent true)))).
  - apply (E _ [chr_s] (fun _ => ret tt)).
  - apply (E _ [chr_xFF] (fun _ => ret tt)).
  - rewrite sendUpdate_exchange. apply E.
  - rewrite sendPoints_exchange. apply E.
Qed.

Lemma response_before_command_witness :
  sendPing (onData underrun_response (sample_world 2 0 true))
  = deliver underrun_response (sendPing (sample_world 2 0 true)).
Proof.
  apply (response_before_command (sample_world 2 0 true) 7%nat
           underrun_response 0 []).
  - reflexivity.
  - split; reflexivity.
  - reflexivity.
Defined.

(** X7: ping, stop and emergency stop write their one byte ('?', 's',
    0xFF), wait for one response and return; the session then differs from
    before only by what the handling of that response did.  In particular
    stop leaves "prepare sent" as it is, and "begin sent" unless
    the response has playback flags 2. *)
Theorem ping_stop_estop (w : World) (c : Socket) (data : list Z) :
  client (self w) = Some c -> quiet w ->
  length data = STANDARD_RESPONSE_SIZE ->
  let handled :=
    handleStandardResponse (Parser.parseStandardResponse data) (self w) in
  let p := next_promise w in
  (exists w',
      deliver data (sendPing w) = Done w' tt
      /\ self w' = handled
      /\ trace w' = trace w ++ [Written c [63]; Invoked p data])
  /\ (exists w',
         deliver data (sendStop w) = Done w' tt
         /\ self w' = handled
         /\ trace w' = trace w ++ [Written c [115]; Invoked p data])
  /\ (exists w',
         deliver data (sendEmergencyStop w) = Done w' tt
         /\ self w' = handled
         /\ trace w' = trace w ++ [Written c [255]; Invoked p data])
  /\ preparesent handled = preparesent (self w)
  /\ (flags_of data <> 2 -> beginsent handled = beginsent (self w)).
Proof.
  intros Hc Hq Hlen handled p.
  assert (E : forall cmd,
             deliver data (exchange cmd (fun _ => ret tt) w)
             = Done (answered c cmd data w) tt)
    by (intros; now rewrite (deliver_exchange w c Hc Hq) by exact Hlen).
  split; [|split; [|split; [|split]]].
  - eexists. split; [apply (E [chr_question])|]. split; reflexivity.
  - eexists. split; [apply (E [chr_s])|]. split; reflexivity.
  - eexists. split; [apply (E [chr_xFF])|]. split; reflexivity.
  - apply handle_preparesent.
  - intros Hf. subst handled. rewrite handle_beginsent.
    fold (flags_of data). now destruct (Z.eqb_spec (flags_of data) 2).
Qed.

Lemma ping_stop_estop_witness :
  exists w',
    deliver (response_bytes 97 0 0 0 0) (sendStop (sample_world 2 5 true))
    = Done w' tt
    /\ self w'
       = handleStandardResponse
           (Parser.parseStandardResponse (response_bytes 97 0 0 0 0))
           (self (sample_world 2 5 true))
    /\ trace w'
       = trace (sample_world 2 5 true)
           ++ [Written 7%nat [115];
               Invoked (next_promise (sample_world 2 5 true))
                 (response_bytes 97 0 0 0 0)].
Proof.
  apply (proj1 (proj2 (ping_stop_estop (sample_world 2 5 true) 7%nat
                         (response_bytes 97 0 0 0 0)
                         eq_refl (conj eq_refl eq_refl) eq_refl))).
Defined.

(** X8: [sendPrepare] writes 'p', waits for one response and sets "prepare
    sent", whether or not that response acknowledges the command; the rest
    of the session is as the handling of the response left it. *)
Theorem prepare_sets_preparesent (w : World) (c : Socket) (data : list Z) :
  client (self w) = Some c -> quiet w ->
  length data = STANDARD_RESPONSE_SIZE ->
  exists w',
    deliver data (sendPrepare w) = Done w' tt
    /\ self w'
       = set_preparesent true
           (handleStandardResponse (Parser.parseStandardResponse data)
              (self w))
    /\ preparesent (self w') = true
    /\ valid (self w')
       = (Parser.response (Parser.parseStandardResponse data) =? chr_a)
    /\ trace w' = trace w ++ [Written c [112]; Invoked (next_promise w) data].
Proof.
  intros Hc Hq Hlen. rewrite sendPrepare_exchange.
  rewrite (deliver_exchange w c Hc Hq) by exact Hlen.
  eexists. split; [reflexivity|].
  split; [reflexivity|]. split; [reflexivity|].
  split; [|reflexivity].
  unfold effect, with_self, answered.
  cbn [self set_preparesent valid]. apply handle_valid.
Qed.

Lemma prepare_sets_preparesent_witness :
  exists w',
    deliver invalid_response (sendPrepare (sample_world 0 0 false))
    = Done w' tt
    /\ self w'
       = set_preparesent true
           (handleStandardResponse
              (Parser.parseStandardResponse invalid_response)
              (self (sample_world 0 0 false)))
    /\ preparesent (self w') = true
    /\ valid (self w')
       = (Parser.response (Parser.parseStandardResponse invalid_response)
          =? chr_a)
    /\ trace w'
       = trace (sample_world 0 0 false)
           ++ [Written 7%nat [112];
               Invoked (next_promise (sample_world 0 0 false))
                 invalid_response].
Proof.
  apply (prepare_sets_preparesent (sample_world 0 0 false) 7%nat
           invalid_response).
  - reflexivity.
  - split; reflexivity.
  - reflexivity.
Defined.

(* ------------------------------------------------------------------ *)
(** ** Responses in a row, and streamFrames *)

Lemma handle_all_snoc sts st c :
  handle_all (sts ++ [st]) c = handleStandardResponse st (handle_all sts c).
Proof. unfold handle_all. now rewrite fold_left_app. Qed.

(** X9: after any number of responses the session shows the last one:
    fullness, playback state and valid are those of the last response;
    "begin sent" is true only if it was true before and no response had
    playback flags 2, so handling responses never sets it; every other
    field is as it was. *)
Theorem responses_last_wins (sts : list Parser.pstdReturnType)
  (st : Parser.pstdReturnType) (c : EtherConn) :
  handle_all (sts ++ [st]) c
  = {| client := client c;
       inputqueue := inputqueue c;
       inputhandlerqueue := inputhandlerqueue c;
       timer := timer c;
       acks := acks c;
       fullness := Parser.buffer_fullness (Parser.status st);
       points_in_buffer := points_in_buffer c;
       playback_state := Parser.playback_state (Parser.status st);
       playsent := playsent c;
       beginsent :=
         beginsent c
         && forallb
              (fun st => negb (Parser.playback_flags (Parser.status st) =? 2))
              (sts ++ [st]);
       preparesent := preparesent c;
       valid := (Parser.response st =? chr_a);
       rate := rate c;
       streamCallback := streamCallback c;
       running := running c;
       ip := ip c;
       port := port c |}.
Proof.
  revert st. induction sts as [|st' sts IH] using rev_ind; intros st.
  - cbn [app handle_all fold_left forallb]. unfold handleStandardResponse.
    destruct c; cbn.
    destruct (Parser.playback_flags (Parser.status st) =? 2); cbn;
      now rewrite ?andb_false_r, ?andb_true_r.
  - rewrite handle_all_snoc, IH. unfold handleStandardResponse.
    rewrite !forallb_app. cbn [forallb].
    destruct (Parser.playback_flags (Parser.status st) =? 2); cbn;
      now rewrite ?andb_false_r, ?andb_true_r.
Qed.

Lemma streamFrames_step (r : option Z) (cb : option StreamFrameCallback)
  (w : World) :
  self (streamFrames r cb w)
  = set_streamCallback
      (match cb with Some f => Some f | None => streamCallback (self w) end)
      (set_rate (if truthy r then r else rate (self w)) (self w))
  /\ trace (streamFrames r cb w) = trace w
  /\ promises (streamFrames r cb w) = promises w
  /\ next_promise (streamFrames r cb w) = next_promise w.
Proof.
  unfold streamFrames.
  destruct (truthy r), cb; cbn; destruct (self w); repeat split.
Qed.

(** X10: [streamFrames] only ever replaces the rate by a non-zero one and
    the source by another source.  After any calls, a rate that was unset
    or non-zero is unset or non-zero, a rate that was non-zero is still
    non-zero, a source that was set is still set, and nothing else of the
    session or of its environment has changed. *)
Theorem streamFrames_keeps_configuration
  (calls : list (option Z * option StreamFrameCallback)) :
  forall w : World,
    let w' := streamFrames_all calls w in
    (rate_ok (self w) -> rate_ok (self w'))
    /\ (truthy (rate (self w)) = true -> truthy (rate (self w')) = true)
    /\ (streamCallback (self w) <> None -> streamCallback (self w') <> None)
    /\ self w'
       = set_streamCallback (streamCallback (self w'))
           (set_rate (rate (self w')) (self w))
    /\ trace w' = trace w
    /\ promises w' = promises w.
Proof.
  induction calls as [|[r cb] calls IH]; intros w.
  - cbn. repeat split; auto. now destruct (self w).
  - change (streamFrames_all ((r, cb) :: calls) w)
      with (streamFrames_all calls (streamFrames r cb w)).
    destruct (streamFrames_step r cb w) as (Es & Et & Ep & _).
    destruct (IH (streamFrames r cb w)) as (Hok & Htr & Hcb & Eself & Et' & Ep').
    cbn zeta in *.
    assert (Hrate : rate (self (streamFrames r cb w))
                    = if truthy r then r else rate (self w))
      by now rewrite Es.
    assert (Hsrc : streamCallback (self (streamFrames r cb w))
                   = match cb with
                     | Some f => Some f
                     | None => streamCallback (self w)
                     end)
      by now rewrite Es.
    split; [|split; [|split; [|split; [|split]]]].
    + intros H. apply Hok. unfold rate_ok. rewrite Hrate.
      destruct (truthy r) eqn:Er; [now right|exact H].
    + intros H. apply Htr. rewrite Hrate.
      destruct (truthy r) eqn:Er; [exact Er|exact H].
    + intros H. apply Hcb. rewrite Hsrc. destruct cb; [discriminate|exact H].
    + rewrite Eself at 1. rewrite Es. now destruct (self w).
    + now rewrite Et', Et.
    + now rewrite Ep', Ep.
Qed.

Lemma streamFrames_keeps_configuration_witness :
  truthy
    (rate
       (self
          (streamFrames_all [(Some 0, None); (None, Some sample_source)]
             (sample_world 0 0 false)))) = true.
Proof.
  apply (proj1 (proj2 (streamFrames_keeps_configuration
                         [(Some 0, None); (None, Some sample_source)]
                         (sample_world 0 0 false)))).
  reflexivity.
Defined.

(* ------------------------------------------------------------------ *)
(** ** Further paths through run *)

Lemma run_no_source (w : World) :
  running (self w) = true -> streamCallback (self w) = None ->
  run w = AwaitDelay w 0 (fun w' => Done w' Recurse).
Proof.
  intros Hrun Hcb. unfold run, bind, this. cbn [bindS].
  rewrite Hrun, Hcb. reflexivity.
Qed.

Lemma run_loop_polls (w : World) (n : nat) :
  running (self w) = true -> streamCallback (self w) = None ->
  (exists k, run_loop (S n) w = AwaitDelay w 0 k)
  /\ elapse (run_loop (S n) w) = run_loop n w.
Proof.
  intros Hrun Hcb.
  assert (E : run_loop (S n) w = AwaitDelay w 0 (fun w' => run_loop n w')).
  { cbn [run_loop]. unfold bind.
    rewrite (run_no_source w Hrun Hcb). reflexivity. }
  rewrite E. split; [eexists|]; reflexivity.
Qed.

(** X11: without a sample source the scheduler only polls.  Each
    invocation of [run] waits for a zero-delay timer and calls [run] again;
    however long this goes on, nothing is written and the world stays as it
    is. *)
Theorem run_polls_without_source (w : World) (n : nat) :
  running (self w) = true -> streamCallback (self w) = None ->
  (forall m, (m < n)%nat ->
     exists k, Nat.iter m elapse (run_loop n w) = AwaitDelay w 0 k)
  /\ Nat.iter n elapse (run_loop n w) = Done w tt.
Proof.
  intros Hrun Hcb.
  assert (E : forall m, (m <= n)%nat ->
                Nat.iter m elapse (run_loop n w) = run_loop (n - m) w).
  { induction m as [|m IH]; intros Hm.
    - now rewrite Nat.sub_0_r.
    - rewrite Nat.iter_succ, IH by lia.
      replace (n - m)%nat with (S (n - S m)) by lia.
      now apply run_loop_polls. }
  split.
  - intros m Hm. rewrite E by lia.
    replace (n - m)%nat with (S (n - S m)) by lia.
    now apply run_loop_polls.
  - rewrite E by lia. now rewrite Nat.sub_diag.
Qed.

Lemma run_polls_without_source_witness :
  Nat.iter 3 elapse
    (run_loop 3 (with_self (set_streamCallback None) (sample_world 0 0 false)))
  = Done (with_self (set_streamCallback None) (sample_world 0 0 false)) tt.
Proof.
  apply (proj2 (run_polls_without_source
                  (with_self (set_streamCallback None) (sample_world 0 0 false))
                  3 eq_refl eq_refl)).
Defined.

Lemma writeUnsignedInt16_exact (n : Z) :
  0 <= n < 65536 ->
  Writer.writeUnsignedInt16 n = [n mod 256; n / 256].
Proof.
  intros Hn. unfold Writer.writeUnsignedInt16.
  rewrite !land_255, Z.shiftr_div_pow2 by lia.
  change (2 ^ 8) with 256. f_equal. f_equal.
  apply Z.mod_small. split; [apply Z.div_pos; lia|].
  apply Z.div_lt_upper_bound; lia.
Qed.

Lemma firstn_length_prefix {A} (n : nat) (l : list A) :
  firstn (length (firstn n l)) l = firstn n l.
Proof.
  rewrite length_firstn.
  destruct (Nat.le_ge_cases n (length l)).
  - now rewrite Nat.min_l.
  - rewrite Nat.min_r by assumption. now rewrite firstn_all, firstn_all2.
Qed.

(** X12: the batch that [run] writes is a prefix of the frame, never longer
    than the device buffer (1799 points) and never longer than the spare
    capacity plus 150; so its length always fits the 16-bit count, which is
    written exactly.  Above the threshold of 100 it stays within the spare
    capacity. *)
Theorem batch_within_capacity (w : World) (c : Socket)
  (cb : StreamFrameCallback) :
  running (self w) = true ->
  streamCallback (self w) = Some cb ->
  client (self w) = Some c -> quiet w ->
  playback_state (self w) <> PLAYBACK_IDLE ->
  0 <= fullness (self w) ->
  let spare := spare_capacity (fullness (self w)) in
  exists points,
    trace (world_of (elapse (run w)))
    = trace w ++ [Written c (write_samples_message points)]
    /\ points = firstn (length points) (cb tt)
    /\ (length points <= 1799)%nat
    /\ Z.of_nat (length points) <= spare + 150
    /\ (100 <= spare -> Z.of_nat (length points) <= spare)
    /\ firstn 3 (write_samples_message points)
       = [chr_d; Z.of_nat (length points) mod 256;
          Z.of_nat (length points) / 256].
Proof.
  intros Hrun Hcb Hc Hq Hplay Hf spare.
  rewrite (run_playing w cb Hrun Hcb Hplay).
  rewrite (run_batch_sent w c (cb tt) Hc Hq).
  set (cap := padded_capacity (fullness (self w))).
  exists (splice0 (cb tt) cap).
  assert (Hspare : 0 <= spare <= 1799)
    by (subst spare; unfold spare_capacity, MAX_FULLNESS; lia).
  assert (Hcap : 0 <= cap <= 1799 /\ cap <= spare + 150
                 /\ (100 <= spare -> cap <= spare)).
  { subst cap. unfold padded_capacity. fold spare.
    destruct (Z.ltb_spec spare 100); lia. }
  assert (Hlen : Z.of_nat (length (splice0 (cb tt) cap)) <= cap).
  { unfold splice0. rewrite length_firstn. lia. }
  split.
  { unfold requested. cbn [world_of trace].
    now rewrite sendPoints_cmd_message, write_samples_message_bytes. }
  split; [unfold splice0; now rewrite firstn_length_prefix|].
  split; [lia|]. split; [lia|]. split; [lia|].
  unfold write_samples_message.
  rewrite writeUnsignedInt16_exact by lia. reflexivity.
Qed.

Lemma batch_within_capacity_witness :
  exists points,
    trace (world_of (elapse (run (sample_world 2 1700 true))))
    = trace (sample_world 2 1700 true)
        ++ [Written 7%nat (write_samples_message points)]
    /\ points = firstn (length points) (sample_source tt)
    /\ (length points <= 1799)%nat
    /\ Z.of_nat (length points)
       <= spare_capacity (fullness (self (sample_world 2 1700 true))) + 150
    /\ (100 <= spare_capacity (fullness (self (sample_world 2 1700 true))) ->
        Z.of_nat (length points)
        <= spare_capacity (fullness (self (sample_world 2 1700 true))))
    /\ firstn 3 (write_samples_message points)
       = [chr_d; Z.of_nat (length points) mod 256;
          Z.of_nat (length points) / 256].
Proof.
  apply (batch_within_capacity (sample_world 2 1700 true) 7%nat sample_source).
  - reflexivity.
  - reflexivity.
  - reflexivity.
  - split; reflexivity.
  - discriminate.
  - cbn. lia.
Defined.

(** X13: when a source is configured but no rate, the scheduler gets as far
    as its first acknowledged batch: the batch is written, its
    acknowledgement handled, and then [sendBegin] throws the usage error out
    of [sendPoints] and [run]; no begin is written and [run] is not called
    again. *)
Theorem run_without_rate (w : World) (c : Socket) (cb : StreamFrameCallback)
  (ack : list Z) :
  running (self w) = true ->
  streamCallback (self w) = Some cb ->
  client (self w) = Some c -> quiet w ->
  playback_state (self w) <> PLAYBACK_IDLE ->
  beginsent (self w) = false ->
  truthy (rate (self w)) = false ->
  length ack = STANDARD_RESPONSE_SIZE -> acknowledged ack ->
  let points := splice0 (cb tt) (padded_capacity (fullness (self w))) in
  exists w',
    drive [ack] (run w) = Threw w' usage_error
    /\ trace w'
       = trace w ++ [Written c (write_samples_message points);
                     Invoked (next_promise w) ack].
Proof.
  intros Hrun Hcb Hc Hq Hplay Hb Hrate Hlen Hack points.
  unfold drive. cbn [fold_left].
  rewrite (run_playing w cb Hrun Hcb Hplay).
  rewrite (run_batch_sent w c (cb tt) Hc Hq). fold points.
  rewrite (deliver_answered w c Hc Hq) by exact Hlen.
  set (w1 := answered c (sendPoints_cmd points) ack w).
  assert (Hv1 : valid (self w1) = true).
  { subst w1. rewrite answered_valid. unfold acknowledged in Hack.
    rewrite Hack. apply Z.eqb_refl. }
  assert (Hb1 : beginsent (self w1) = false).
  { subst w1. rewrite answered_beginsent, Hb. now destruct (_ =? 2). }
  assert (Hr1 : rate (self w1) = rate (self w))
    by (subst w1; apply answered_rate).
  assert (E : after_points w1 = Threw w1 usage_error).
  { unfold after_points, bind, this. cbn [bindS].
    rewrite Hv1, Hb1, Hr1. cbn [negb]. unfold sendBegin.
    destruct (rate (self w)) as [r|]; [|reflexivity].
    cbn [truthy] in Hrate. destruct (r =? 0); [reflexivity|discriminate]. }
  rewrite E. cbn [bindS elapse]. exists w1. split; [reflexivity|].
  subst w1.
  now rewrite answered_trace, sendPoints_cmd_message,
    write_samples_message_bytes.
Qed.

Lemma run_without_rate_witness :
  exists w',
    drive [response_bytes 97 2 0 3 0]
      (run (with_self (set_rate None) (sample_world 2 0 false)))
    = Threw w' usage_error
    /\ trace w'
       = trace (with_self (set_rate None) (sample_world 2 0 false))
           ++ [Written 7%nat
                 (write_samples_message
                    (splice0 (sample_source tt)
                       (padded_capacity
                          (fullness
                             (self (with_self (set_rate None)
                                      (sample_world 2 0 false)))))));
               Invoked
                 (next_promise
                    (with_self (set_rate None) (sample_world 2 0 false)))
                 (response_bytes 97 2 0 3 0)].
Proof.
  apply (run_without_rate
           (with_self (set_rate None) (sample_world 2 0 false)) 7%nat
           sample_source (response_bytes 97 2 0 3 0)).
  - reflexivity.
  - reflexivity.
  - reflexivity.
  - split; reflexivity.
  - discriminate.
  - reflexivity.
  - reflexivity.
  - reflexivity.
  - reflexivity.
Defined.

(* ------------------------------------------------------------------ *)
(** ** connect and reconnect *)

Lemma connect_fields (sock : Socket) (i : string) (p : Z) (w : World) :
  self (connect sock i p w)
  = set_client (Some sock) (set_port (Some p) (set_ip (Some i) (self w)))
  /\ trace (connect sock i p w) = trace w
  /\ promises (connect sock i p w) = promises w
  /\ next_promise (connect sock i p w) = next_promise w.
Proof. repeat split. Qed.

Lemma close_resets_fields (w : World) :
  self (close w)
  = {| client := None; inputqueue := []; inputhandlerqueue := [];
       timer := 0; acks := 0; fullness := 0; points_in_buffer := 0;
       playback_state := 0; playsent := false; beginsent := false;
       preparesent := false; valid := true; rate := rate (self w);
       streamCallback := streamCallback (self w); running := false;
       ip := ip (self w); port := port (self w) |}
  /\ trace (close w)
     = trace w ++ match client (self w) with
                  | Some old => [Destroyed old]
                  | None => []
                  end
  /\ promises (close w) = promises w.
Proof.
  unfold close.
  destruct (client (self w)) as [s|] eqn:Hc; cbn; rewrite ?Hc, ?app_nil_r;
    repeat split.
Qed.

(** X14: [reconnect] needs a remembered address.  On a session that was
    never connected, or whose remembered host is empty or whose remembered
    port is 0, as after [connect] with port 0, it throws before it closes
    anything: the world stays as it is. *)
Theorem reconnect_requires_address (sock : Socket) (w : World) :
  (truthy_string (ip (self w)) = false \/ truthy (port (self w)) = false ->
   reconnect sock w = Threw w reconnect_error)
  /\ (forall s0 i,
        reconnect sock (connect s0 i 0 w)
        = Threw (connect s0 i 0 w) reconnect_error)
  /\ (forall s0 p,
        reconnect sock (connect s0 "" p w)
        = Threw (connect s0 "" p w) reconnect_error)
  /\ reconnect sock (mkWorld initial (trace w) (next_promise w) (promises w))
     = Threw (mkWorld initial (trace w) (next_promise w) (promises w))
         reconnect_error.
Proof.
  split; [|repeat split].
  - intros H. unfold reconnect. destruct H as [-> | ->]; [reflexivity|].
    now rewrite orb_true_r.
  - intros s0 i. unfold reconnect, connect.
    cbn [with_self self set_client set_port set_ip ip port truthy Z.eqb negb].
    now rewrite orb_true_r.
Qed.

Lemma reconnect_requires_address_witness :
  reconnect 8%nat (with_self (set_port None) (sample_world 2 0 true))
  = Threw (with_self (set_port None) (sample_world 2 0 true)) reconnect_error.
Proof.
  apply (proj1 (reconnect_requires_address 8%nat
                  (with_self (set_port None) (sample_world 2 0 true)))).
  right. reflexivity.
Defined.

(** X15: with an address remembered, [reconnect] closes and connects again:
    the old socket, if any, is destroyed, the new one is the client, and
    the session is a freshly constructed one but for the address, the rate
    and the sample source, which are kept.  The scheduler is not running
    until the new connection is up. *)
Theorem reconnect_resets (sock : Socket) (w : World) (i : string) (p : Z) :
  ip (self w) = Some i -> i <> ""%string ->
  port (self w) = Some p -> p <> 0 ->
  exists w',
    reconnect sock w = Done w' tt
    /\ self w'
       = {| client := Some sock;
            inputqueue := inputqueue initial;
            inputhandlerqueue := inputhandlerqueue initial;
            timer := timer initial;
            acks := acks initial;
            fullness := fullness initial;
            points_in_buffer := points_in_buffer initial;
            playback_state := playback_state initial;
            playsent := playsent initial;
            beginsent := beginsent initial;
            preparesent := preparesent initial;
            valid := valid initial;
            rate := rate (self w);
            streamCallback := streamCallback (self w);
            running := false;
            ip := Some i;
            port := Some p |}
    /\ trace w'
       = trace w ++ match client (self w) with
                    | Some old => [Destroyed old]
                    | None => []
                    end
    /\ promises w' = promises w.
Proof.
  intros Hi Hne Hp Hp0. unfold reconnect. rewrite Hi, Hp.
  cbn [truthy_string truthy].
  destruct (String.eqb_spec i "") as [|_]; [contradiction|].
  destruct (Z.eqb_spec p 0) as [|_]; [contradiction|].
  cbn [negb orb].
  destruct (close_resets_fields w) as (Es & Et & Ep).
  rewrite Es. cbn [ip port]. rewrite Hi, Hp.
  eexists. split; [reflexivity|].
  destruct (connect_fields sock i p (close w)) as (Ec & Etc & Epc & _).
  rewrite Ec, Etc, Epc, Es, Et, Ep. cbn. rewrite Hi, Hp. repeat split.
Qed.

Lemma reconnect_resets_witness :
  exists w',
    reconnect 8%nat (sample_world 2 5 true) = Done w' tt
    /\ self w'
       = {| client := Some 8%nat;
            inputqueue := inputqueue initial;
            inputhandlerqueue := inputhandlerqueue initial;
            timer := timer initial;
            acks := acks initial;
            fullness := fullness initial;
            points_in_buffer := points_in_buffer initial;
            playback_state := playback_state initial;
            playsent := playsent initial;
            beginsent := beginsent initial;
            preparesent := preparesent initial;
            valid := valid initial;
            rate := rate (self (sample_world 2 5 true));
            streamCallback := streamCallback (self (sample_world 2 5 true));
            running := false;
            ip := Some "192.168.1.3"%string;
            port := Some 7765 |}
    /\ trace w'
       = trace (sample_world 2 5 true)
           ++ match client (self (sample_world 2 5 true)) with
              | Some old => [Destroyed old]
              | None => []
              end
    /\ promises w' = promises (sample_world 2 5 true).
Proof.
  apply (reconnect_resets 8%nat (sample_world 2 5 true) "192.168.1.3" 7765).
  - reflexivity.
  - discriminate.
  - reflexivity.
  - lia.
Defined.

Lemma promise_state_other log q v p :
  q <> p -> promise_state ((q, v) :: log) p = promise_state log p.
Proof. intros H. cbn. now apply Nat.eqb_neq in H as ->. Qed.

(** A chunk that is exactly the response the head handler waits for. *)
Lemma feed_serves_head (w : World) (h : Handler) (rest : list Handler)
  (data : list Z) :
  inputqueue (self w) = [] ->
  inputhandlerqueue (self w) = h :: rest ->
  length data = size h ->
  settled w (callback h) = None ->
  feed data w
  = mkWorld
      (handleStandardResponse (Parser.parseStandardResponse data)
         (set_inputhandlerqueue rest (self w)))
      (trace w ++ [Invoked (callback h) data])
      (next_promise w)
      ((callback h, Some data) :: promises w).
Proof.
  intros Hq Hh Hlen Hp. unfold feed, onData_timeout.
  rewrite (popinputqueue_served (onData data w) h rest)
    by (cbn [onData with_self self inputhandlerqueue inputqueue
             set_inputqueue]; rewrite ?Hq; cbn [app]; auto; lia).
  cbn [onData with_self self inputqueue set_inputqueue].
  rewrite Hq. cbn [app]. rewrite <- Hlen, firstn_all, skipn_all.
  unfold call, waitForResponse_callback, resolve.
  change (settled _ (callback h)) with (settled w (callback h)).
  rewrite Hp. cbn [with_self observe self trace next_promise promises].
  unfold onData. cbn [with_self self trace next_promise promises].
  f_equal. f_equal. destruct (self w); cbn in *; now subst.
Qed.

(** A command issued while one response is still outstanding queues behind
    it. *)
Lemma exchange_behind {A} (w : World) (c : Socket) (h : Handler)
  (cmd : list Z) (rest : list Z -> Async A) :
  client (self w) = Some c ->
  inputqueue (self w) = [] ->
  inputhandlerqueue (self w) = [h] ->
  (0 < size h)%nat ->
  exchange cmd rest w
  = AwaitPromise
      (mkWorld
         (set_inputhandlerqueue
            [h; mkHandler STANDARD_RESPONSE_SIZE (next_promise w)] (self w))
         (trace w ++ [Written c (Buffer_from_binary cmd)])
         (S (next_promise w))
         ((next_promise w, None) :: promises w))
      (next_promise w) rest.
Proof.
  intros Hc Hq Hh Hsz.
  unfold exchange, bind, _send. rewrite Hc. cbn [bindS].
  rewrite (popinputqueue_starved _ h [])
    by (cbn [observe self]; rewrite ?Hh, ?Hq; cbn [length]; auto).
  unfold waitForResponse, new_promise.
  rewrite (popinputqueue_starved _ h
             [mkHandler STANDARD_RESPONSE_SIZE (next_promise w)])
    by (cbn [with_self observe self inputhandlerqueue inputqueue
             set_inputhandlerqueue next_promise];
        rewrite ?Hh, ?Hq; cbn [app length]; auto).
  cbn [bindS]. unfold await, settled.
  cbn [with_self observe self trace next_promise promises promise_state].
  rewrite Nat.eqb_refl. cbn [bindS].
  unfold with_self. cbn [self trace next_promise promises].
  rewrite Hh. reflexivity.
Qed.

Section ConnectWithSource.

Variable w : World.
Variable sock : Socket.
Variable host : string.
Variable portno : Z.
Variable cb : StreamFrameCallback.
Variables greeting r1 : list Z.
Hypothesis is_quiet : quiet w.
Hypothesis has_source : streamCallback (self w) = Some cb.
Hypothesis is_idle : playback_state (self w) = PLAYBACK_IDLE.
Hypothesis greeting_size : length greeting = STANDARD_RESPONSE_SIZE.
Hypothesis r1_size : length r1 = STANDARD_RESPONSE_SIZE.

Let p := next_promise w.
Let h0 := mkHandler STANDARD_RESPONSE_SIZE p.
Let h1 := mkHandler STANDARD_RESPONSE_SIZE (S p).

(** The session when the listener reaches [run]: the first handler queued,
    the scheduler switched on. *)
Let started : EtherConn :=
  set_running true
    (set_inputhandlerqueue [h0]
       (set_client (Some sock)
          (set_port (Some portno) (set_ip (Some host) (self w))))).

(** The worlds the listener goes through. *)
Let w_prepare : World :=
  mkWorld (set_inputhandlerqueue [h0; h1] started)
    (trace w ++ [Written sock [chr_p]])
    (S (S p)) ((S p, None) :: (p, None) :: promises w).

Let w_greeted : World :=
  mkWorld
    (handleStandardResponse (Parser.parseStandardResponse greeting)
       (set_inputhandlerqueue [h1] started))
    (trace w ++ [Written sock [chr_p]; Invoked p greeting])
    (S (S p))
    ((p, Some greeting) :: (S p, None) :: (p, None) :: promises w).

Let w_prepared : World :=
  mkWorld
    (set_preparesent true
       (handleStandardResponse (Parser.parseStandardResponse r1)
          (set_inputhandlerqueue [] (self w_greeted))))
    (trace w ++ [Written sock [chr_p]; Invoked p greeting; Invoked (S p) r1])
    (S (S p))
    ((S p, Some r1) :: promises w_greeted).

Let continue : list Z -> World -> Step Next :=
  fun _ w' =>
    bindS (effect (with_self (set_preparesent true)) w')
      (fun _ => run_batch (cb tt)).

Lemma started_fields :
  client started = Some sock
  /\ inputqueue started = []
  /\ inputhandlerqueue started = [h0]
  /\ running started = true
  /\ streamCallback started = Some cb
  /\ playback_state started = PLAYBACK_IDLE.
Proof.
  destruct is_quiet as [Hq Hh]. unfold started.
  destruct (self w); cbn in *; subst; repeat split; auto.
Qed.

Lemma connect_listener_prepare :
  connect_listener (connect sock host portno w)
  = AwaitPromise w_prepare (S p) continue.
Proof.
  destruct is_quiet as [Hq Hh].
  destruct started_fields as (Sc & Sq & Sh & Sr & Ss & Sp).
  set (wA := mkWorld
               (set_inputhandlerqueue [h0]
                  (set_client (Some sock)
                     (set_port (Some portno) (set_ip (Some host) (self w)))))
               (trace w) (S p) ((p, None) :: promises w)).
  assert (EA : waitForResponse STANDARD_RESPONSE_SIZE
                 (connect sock host portno w) = Done wA p).
  { unfold waitForResponse, new_promise.
    rewrite (popinputqueue_starved _ h0 []).
    - f_equal. unfold with_self, connect.
      cbn [self trace next_promise promises with_self].
      unfold wA, h0, p. f_equal. f_equal.
      destruct (self w); cbn in *; now subst.
    - unfold with_self, connect. cbn [self with_self].
      destruct (self w); cbn in *; now subst.
    - unfold with_self, connect. cbn [self with_self].
      destruct (self w); cbn in *; subst;
        unfold h0, STANDARD_RESPONSE_SIZE; cbn; lia. }
  assert (PA : _popinputqueue wA = wA).
  { apply (popinputqueue_starved wA h0 []).
    - reflexivity.
    - unfold wA. cbn [self]. destruct (self w); cbn in *; subst;
        unfold h0, STANDARD_RESPONSE_SIZE; cbn; lia. }
  unfold connect_listener, bind. rewrite EA. cbn [bindS].
  unfold effect. cbn [bindS]. rewrite PA.
  set (wB := with_self (set_running true) wA).
  assert (EB : self wB = started) by reflexivity.
  rewrite (run_unfold wB cb) by (rewrite EB; assumption).
  rewrite EB, Sp. cbn [Z.eqb PLAYBACK_IDLE]. unfold bind at 1.
  rewrite sendPrepare_exchange.
  rewrite (exchange_behind wB sock h0)
    by (rewrite ?EB; auto; unfold h0, STANDARD_RESPONSE_SIZE; cbn; lia).
  reflexivity.
Qed.

Lemma connect_listener_greeted :
  deliver greeting (AwaitPromise w_prepare (S p) continue)
  = AwaitPromise w_greeted (S p) continue.
Proof.
  destruct started_fields as (Sc & Sq & Sh & Sr & Ss & Sp).
  assert (E : feed greeting w_prepare = w_greeted).
  { rewrite (feed_serves_head w_prepare h0 [h1]).
    - unfold w_greeted, w_prepare, h0.
      cbn [self trace next_promise promises callback].
      rewrite <- app_assoc. reflexivity.
    - unfold w_prepare. cbn [self]. destruct started; cbn in *; auto.
    - reflexivity.
    - exact greeting_size.
    - unfold settled, w_prepare, h0. cbn [promises callback].
      rewrite promise_state_other by lia. apply promise_state_latest. }
  unfold deliver. cbn [in_world resume]. rewrite E.
  replace (settled w_greeted (S p)) with (@None (list Z)); [reflexivity|].
  unfold settled, w_greeted. cbn [promises].
  rewrite promise_state_other by lia. symmetry. apply promise_state_latest.
Qed.

Lemma connect_listener_prepared :
  deliver r1 (AwaitPromise w_greeted (S p) continue)
  = run_batch (cb tt) w_prepared.
Proof.
  destruct started_fields as (Sc & Sq & Sh & Sr & Ss & Sp).
  assert (E : feed r1 w_greeted
              = mkWorld
                  (handleStandardResponse (Parser.parseStandardResponse r1)
                     (set_inputhandlerqueue [] (self w_greeted)))
                  (trace w_greeted ++ [Invoked (S p) r1])
                  (S (S p)) ((S p, Some r1) :: promises w_greeted)).
  { rewrite (feed_serves_head w_greeted h1 []).
    - reflexivity.
    - unfold w_greeted. cbn [self]. rewrite handle_inputqueue.
      destruct started; cbn in *; auto.
    - unfold w_greeted. cbn [self]. now rewrite handle_inputhandlerqueue.
    - exact r1_size.
    - unfold settled, w_greeted, h1. cbn [promises callback].
      rewrite promise_state_other by lia. apply promise_state_latest. }
  unfold deliver. cbn [in_world resume]. rewrite E.
  unfold settled at 1. cbn [promises]. rewrite promise_state_latest.
  unfold continue, effect. cbn [bindS]. f_equal.
  unfold w_prepared, with_self. cbn [self trace next_promise promises].
  f_equal. unfold w_greeted. cbn [trace]. now rewrite <- app_assoc.
Qed.

Lemma w_prepared_ready :
  client (self w_prepared) = Some sock
  /\ quiet w_prepared
  /\ fullness (self w_prepared) = fullness_of r1.
Proof.
  destruct started_fields as (Sc & Sq & Sh & Sr & Ss & Sp).
  unfold quiet, w_prepared, w_greeted.
  cbn [self set_preparesent client inputqueue inputhandlerqueue fullness].
  repeat (autorewrite with handle;
          cbn [set_inputhandlerqueue client inputqueue inputhandlerqueue]).
  repeat split; auto.
Qed.

(** X16: When the socket connects to an idle device and a point source is
    set, the connection listener registers for the greeting the device sends
    unasked, and the scheduler it starts writes the prepare command before
    that greeting is in.  The greeting then goes to the listener's handler,
    the next response to prepare, and the first batch is cut with the
    fullness of that second response. *)
Theorem connect_greeting_then_prepare :
  let s := connect_listener (connect sock host portno w) in
  trace (world_of s) = trace w ++ [Written sock [chr_p]]
  /\ map callback (inputhandlerqueue (self (world_of s)))
     = [next_promise w; S (next_promise w)]
  /\ running (self (world_of s)) = true
  /\ trace (world_of (drive [greeting; r1] s))
     = trace w
       ++ [Written sock [chr_p];
           Invoked (next_promise w) greeting;
           Invoked (S (next_promise w)) r1;
           Written sock
             (Buffer_from_binary
                (sendPoints_cmd
                   (splice0 (cb tt) (padded_capacity (fullness_of r1)))))].
Proof.
  destruct started_fields as (Sc & Sq & Sh & Sr & Ss & Sp).
  destruct w_prepared_ready as (Pc & Pq & Pf).
  cbv zeta. rewrite connect_listener_prepare.
  split; [reflexivity|]. split; [reflexivity|]. split.
  - cbn [world_of self]. unfold w_prepare.
    cbn [self set_inputhandlerqueue running]. exact Sr.
  - unfold drive. cbn [fold_left elapse].
    rewrite connect_listener_greeted. cbn [elapse].
    rewrite connect_listener_prepared.
    rewrite (run_batch_sent w_prepared sock (cb tt) Pc Pq).
    cbn [world_of]. unfold requested. cbn [trace]. rewrite Pf.
    unfold w_prepared. cbn [trace]. rewrite <- app_assoc. reflexivity.
Qed.

End ConnectWithSource.

Lemma connect_greeting_then_prepare_witness :
  let w := mkWorld (set_streamCallback (Some sample_source) initial)
             [] 0%nat [] in
  let s := connect_listener (connect 7%nat "192.168.1.3" 7765 w) in
  trace (world_of (drive [response_bytes 97 0 0 0 0;
                          response_bytes 97 1 0 3 0] s))
  = [Written 7%nat [chr_p];
     Invoked 0%nat (response_bytes 97 0 0 0 0);
     Invoked 1%nat (response_bytes 97 1 0 3 0);
     Written 7%nat
       (Buffer_from_binary
          (sendPoints_cmd
             (splice0 (sample_source tt)
                (padded_capacity
                   (fullness_of (response_bytes 97 1 0 3 0))))))].
Proof.
  apply (proj2 (proj2 (proj2
    (connect_greeting_then_prepare
       (mkWorld (set_streamCallback (Some sample_source) initial)
          [] 0%nat [])
       7%nat "192.168.1.3" 7765 sample_source
       (response_bytes 97 0 0 0 0) (response_bytes 97 1 0 3 0)
       (conj eq_refl eq_refl) eq_refl eq_refl eq_refl eq_refl)))).
Defined.

(* ------------------------------------------------------------------ *)
(** ** Path.ts: what [draw] returns *)

Section PathDrawing.

Variable num : Type.
Variable div : num -> num -> num.
Variable zero : num.
Variables Point Color : Type.
Variable new_Point : num -> num -> Point.
Variable Line_draw : num * num -> num * num -> Color -> num -> list Point.
Variable Curve_draw :
  num * num * (num * num) -> num * num * (num * num) -> Color -> num ->
  list Point.

Local Abbreviation Command := (Path.Command num).
Local Abbreviation Vars := (Path.Vars num).
Local Abbreviation mapCommands :=
  (Path.mapCommands num Point Color new_Point Line_draw Curve_draw).
Local Abbreviation draw :=
  (Path.draw num div zero Point Color new_Point Line_draw Curve_draw).
Local Abbreviation scale := (Path.scale num div Color).

Variable self : Path.t num Color.
Variable resolution : num.

Lemma first_error_scale (commands : list Command) :
  forall seen_move seen_curve,
    first_error seen_move seen_curve (map (scale self) commands)
    = first_error seen_move seen_curve commands.
Proof.
  induction commands as [|command commands IH]; intros seen_move seen_curve;
    [reflexivity|].
  destruct command; cbn [map Path.scale first_error]; rewrite ?IH;
    reflexivity.
Qed.

(** [map] throws the error of the first command out of sequence, and
    otherwise returns one array for each command. *)
Lemma mapCommands_first_error (commands : list Command) :
  forall v,
    match first_error (is_some (Path.lastMoveCommand num v))
            (is_some (Path.lastCurveCommand num v)) commands with
    | Some e => mapCommands self resolution v commands = Path.Throw e
    | None =>
        exists points,
          mapCommands self resolution v commands = Path.Ok points
          /\ length points = length commands
    end.
Proof.
  induction commands as [|command commands IH]; intros v.
  - cbn. now exists [].
  - destruct command; cbn [first_error Path.mapCommands Path.drawCommand];
      try (match goal with
           | |- context [mapCommands self resolution ?v' commands] =>
               specialize (IH v')
           end;
           cbn [Path.lastMoveCommand Path.lastCurveCommand is_some] in IH;
           destruct (first_error _ _ commands) as [e|];
           [now rewrite IH
           |destruct IH as (points & -> & Hlen); eexists; split;
            [reflexivity|cbn [length]; now rewrite Hlen]]).
    + (* SMOOTH_CURVE_TO *)
      destruct (Path.lastCurveCommand num v) as [last|] eqn:El;
        cbn [is_some]; [|reflexivity].
      match goal with
      | |- context [mapCommands self resolution ?v' commands] =>
          specialize (IH v')
      end.
      cbn [Path.lastMoveCommand Path.lastCurveCommand is_some] in IH.
      destruct (first_error _ _ commands) as [e|];
        [now rewrite IH
        |destruct IH as (points & -> & Hlen); eexists; split;
         [reflexivity|cbn [length]; now rewrite Hlen]].
    + (* CLOSE_PATH *)
      destruct (Path.lastMoveCommand num v) as [[mx my]|] eqn:Em;
        cbn [is_some]; [|reflexivity].
      match goal with
      | |- context [mapCommands self resolution ?v' commands] =>
          specialize (IH v')
      end.
      cbn [Path.lastMoveCommand Path.lastCurveCommand is_some] in IH.
      destruct (first_error _ _ commands) as [e|];
        [now rewrite IH
        |destruct IH as (points & -> & Hlen); eexists; split;
         [reflexivity|cbn [length]; now rewrite Hlen]].
Qed.

Lemma flatten_concat (first : list Point) (rest : list (list Point)) :
  Path.flatten Point (first :: rest) = Path.Ok (concat (first :: rest)).
Proof.
  unfold Path.flatten. f_equal. cbn [concat]. revert first.
  induction rest as [|cp rest IH]; intros first; cbn [fold_left concat].
  - now rewrite app_nil_r.
  - now rewrite IH, app_assoc.
Qed.

Lemma mapCommands_nonempty (commands : list Command) (v : Vars)
  (points : list (list Point)) :
  mapCommands self resolution v commands = Path.Ok points ->
  length points = length commands.
Proof.
  revert v points. induction commands as [|c commands IH]; intros v points.
  - cbn. now intros [= <-].
  - cbn [Path.mapCommands].
    destruct (Path.drawCommand _ _ _ _ _ _ _ _ _ _) as [[cp v']|e];
      [|discriminate].
    destruct (mapCommands self resolution v' commands) as [rest|e] eqn:E;
      [|discriminate].
    intros [= <-]. cbn [length]. f_equal. now apply (IH v').
Qed.

(** [draw] lets the error of the parser through, and otherwise returns the
    arrays of the commands joined in order, the reduce being applied to a
    non-empty array whenever it is reached. *)
Lemma draw_concat
  (SVGPathData_toAbs : string -> Path.Result (list Command)) :
  draw SVGPathData_toAbs self resolution
  = match SVGPathData_toAbs (Path.path num Color self) with
    | Path.Throw e => Path.Throw e
    | Path.Ok parsed =>
        match mapCommands self resolution
                (Path.mkVars num None None zero zero)
                (map (scale self) parsed)
        with
        | Path.Throw e => Path.Throw e
        | Path.Ok points => Path.Ok (concat points)
        end
    end.
Proof.
  unfold Path.draw.
  destruct (SVGPathData_toAbs _) as [parsed|e]; [|reflexivity].
  cbv beta iota zeta.
  destruct (map _ parsed) as [|command commands]; [reflexivity|].
  destruct (mapCommands self resolution _ (command :: commands))
    as [points|e] eqn:M; [|reflexivity].
  apply mapCommands_nonempty in M.
  destruct points as [|first rest]; [discriminate M|].
  apply flatten_concat.
Qed.

(** X17: [draw] throws in three cases only: when the parser throws, and
    then that error; for a smooth curve that no curve precedes; for a
    close that no move precedes; and of the commands out of sequence the
    first one decides the error.  For every other path that the parser
    yields, [draw] returns points; in particular the reduce without an
    initial value never meets an empty array. *)
Theorem draw_throws_exactly
  (SVGPathData_toAbs : string -> Path.Result (list Command)) :
  match SVGPathData_toAbs (Path.path num Color self) with
  | Path.Throw e => draw SVGPathData_toAbs self resolution = Path.Throw e
  | Path.Ok parsed =>
      match first_error false false parsed with
      | Some e => draw SVGPathData_toAbs self resolution = Path.Throw e
      | None => exists points,
          draw SVGPathData_toAbs self resolution = Path.Ok points
      end
  end.
Proof.
  rewrite draw_concat.
  destruct (SVGPathData_toAbs _) as [parsed|e]; [|reflexivity].
  rewrite <- (first_error_scale parsed false false).
  pose proof (mapCommands_first_error (map (scale self) parsed)
                (Path.mkVars num None None zero zero)) as H.
  cbn [Path.lastMoveCommand Path.lastCurveCommand is_some] in H.
  destruct (first_error false false _) as [e|].
  - now rewrite H.
  - destruct H as (points & -> & _). now eexists.
Qed.

(** A command without a case adds no point and moves nothing. *)
Lemma mapCommands_no_case (before after : list Command) (command : Command) :
  no_case command = true ->
  forall v,
    match mapCommands self resolution v (before ++ command :: after),
          mapCommands self resolution v (before ++ after) with
    | Path.Throw e, Path.Throw e' => e = e'
    | Path.Ok points, Path.Ok points' => concat points = concat points'
    | _, _ => False
    end.
Proof.
  intros Hc. induction before as [|c before IH]; intros v.
  - cbn [app]. destruct command; try discriminate Hc;
      cbn [Path.mapCommands Path.drawCommand];
      destruct (mapCommands self resolution v after); reflexivity.
  - cbn [app Path.mapCommands].
    destruct (Path.drawCommand num Point Color new_Point Line_draw Curve_draw
                self resolution v c) as [[cp v']|e]; [|reflexivity].
    specialize (IH v').
    destruct (mapCommands self resolution v' (before ++ command :: after)),
             (mapCommands self resolution v' (before ++ after));
      try contradiction; [|assumption].
    cbn [concat]. now rewrite IH.
Qed.

Lemma no_case_scale (command : Command) :
  no_case (scale self command) = no_case command.
Proof. now destruct command. Qed.

(** X18: quadratic curves, smooth quadratic curves and arcs are dropped
    without notice.  A path that starts with a move draws as it does with
    such a command taken out, the lines after it starting where the
    command before it ended. *)
Theorem draw_drops_unsupported
  (SVGPathData_toAbs SVGPathData_toAbs' :
     string -> Path.Result (list Command))
  (x y : num) (before after : list Command) (command : Command) :
  no_case command = true ->
  SVGPathData_toAbs (Path.path num Color self)
  = Path.Ok (Path.MOVE_TO num x y :: before ++ command :: after) ->
  SVGPathData_toAbs' (Path.path num Color self)
  = Path.Ok (Path.MOVE_TO num x y :: before ++ after) ->
  draw SVGPathData_toAbs self resolution
  = draw SVGPathData_toAbs' self resolution.
Proof.
  intros Hc Hparse Hparse'. rewrite !draw_concat, Hparse, Hparse'.
  rewrite !app_comm_cons, !map_app. cbn [map].
  assert (Hc' : no_case (scale self command) = true)
    by now rewrite no_case_scale.
  pose proof (mapCommands_no_case
                (scale self (Path.MOVE_TO num x y)
                 :: map (scale self) before)
                (map (scale self) after) (scale self command) Hc'
                (Path.mkVars num None None zero zero)) as H.
  destruct (mapCommands self resolution _ (_ ++ _ :: _)) as [points|e];
    destruct (mapCommands self resolution _ (_ ++ _)) as [points'|e'];
    try contradiction; now rewrite H.
Qed.

(** Lines one after the other, then a close. *)
Lemma mapCommands_lines (corners : list (num * num)) :
  forall v start,
    Path.lastMoveCommand num v = Some start ->
    exists points,
      mapCommands self resolution v
        (map (fun q => Path.LINE_TO num (fst q) (snd q)) corners
           ++ [Path.CLOSE_PATH num])
      = Path.Ok points
      /\ concat points
         = segments
             (fun from to =>
                Line_draw from to (Path.color num Color self) resolution)
             (Path.prevX num v, Path.prevY num v) (corners ++ [start]).
Proof.
  induction corners as [|[x y] corners IH]; intros v [mx my] Hm.
  - cbn [map app Path.mapCommands Path.drawCommand]. rewrite Hm.
    eexists. split; [reflexivity|]. cbn [concat segments].
    reflexivity.
  - cbn [map app Path.mapCommands Path.drawCommand fst snd].
    match goal with
    | |- context [mapCommands self resolution ?v' _] =>
        destruct (IH v' (mx, my) Hm) as (points & -> & Hp)
    end.
    eexists. split; [reflexivity|]. cbn [concat segments app].
    now rewrite Hp.
Qed.

Lemma scale_polygon (start : num * num) (corners : list (num * num)) :
  map (scale self) (polygon start corners)
  = polygon (scaled div self start) (map (scaled div self) corners).
Proof.
  unfold polygon. cbn [map Path.scale]. rewrite map_app, !map_map.
  reflexivity.
Qed.

(** X19: A path that moves to a point, draws a line to each further corner
    and closes draws a closed polygon: the point of the move, then one
    line for each side, each starting where the one before ended and the
    last ending at the point of the move; all positions divided by the
    width and the height of the path. *)
Theorem draw_closed_polygon
  (SVGPathData_toAbs : string -> Path.Result (list Command))
  (start : num * num) (corners : list (num * num)) :
  SVGPathData_toAbs (Path.path num Color self)
  = Path.Ok (polygon start corners) ->
  draw SVGPathData_toAbs self resolution
  = Path.Ok
      (new_Point (fst (scaled div self start)) (snd (scaled div self start))
       :: segments
            (fun from to =>
               Line_draw from to (Path.color num Color self) resolution)
            (scaled div self start)
            (map (scaled div self) corners ++ [scaled div self start])).
Proof.
  intros Hparse. rewrite draw_concat, Hparse, scale_polygon.
  set (s := scaled div self start). set (cs := map (scaled div self) corners).
  unfold polygon.
  cbn [Path.mapCommands Path.drawCommand Path.lastCurveCommand
       Path.lastMoveCommand Path.prevX Path.prevY].
  destruct (mapCommands_lines cs
              (Path.mkVars num (Some (fst s, snd s)) None (fst s) (snd s))
              (fst s, snd s) eq_refl) as (points & -> & Hp).
  cbn [concat app]. rewrite Hp.
  cbn [Path.prevX Path.prevY]. now destruct s.
Qed.

End PathDrawing.

Lemma draw_closed_polygon_witness :
  Path.draw Z Z.div 0 (Z * Z)%type unit pair
    (fun _ to _ _ => [to]) (fun _ to _ _ => [fst to])
    (fun _ => checked (polygon (0, 0) [(10, 0); (10, 10)]))
    (Path.mk Z unit 0 0 2 5 tt "M0 0 L10 0 L10 10 Z") 10
  = Path.Ok [(0, 0); (5, 0); (5, 2); (0, 0)].
Proof.
  apply (draw_closed_polygon Z Z.div 0 (Z * Z)%type unit pair
           (fun _ to _ _ => [to]) (fun _ to _ _ => [fst to])
           (Path.mk Z unit 0 0 2 5 tt "M0 0 L10 0 L10 10 Z") 10
           (fun _ => checked (polygon (0, 0) [(10, 0); (10, 10)]))
           (0, 0) [(10, 0); (10, 10)] eq_refl).
Defined.

Lemma draw_drops_unsupported_witness :
  sample_draw_checked [Path.MOVE_TO Z 0 0; Path.ARC Z 5 5 0 0 1 10 10;
                       Path.LINE_TO Z 10 0]
  = sample_draw_checked [Path.MOVE_TO Z 0 0; Path.LINE_TO Z 10 0].
Proof.
  apply (draw_drops_unsupported Z Z.div 0 (Z * Z)%type unit pair
           (fun _ to _ _ => [to]) (fun _ to _ _ => [fst to])
           sample_path 10
           (fun _ => checked [Path.MOVE_TO Z 0 0; Path.ARC Z 5 5 0 0 1 10 10;
                              Path.LINE_TO Z 10 0])
           (fun _ => checked [Path.MOVE_TO Z 0 0; Path.LINE_TO Z 10 0])
           0 0 [] [Path.LINE_TO Z 10 0]
           (Path.ARC Z 5 5 0 0 1 10 10) eq_refl eq_refl eq_refl).
Defined.

(** X20: A path never has a falsy width or height: an option that is left
    out, 0 or NaN is replaced by 1, so that [draw] divides by neither; a
    truthy option is kept, and x and y default to 0. *)
Theorem constructor_sizes_truthy (num : Type) (falsy : num -> bool)
  (zero one : num) (Color : Type)
  (options : Path.PathOptions num Color) :
  falsy one = false ->
  let self := Path.constructor num falsy zero one Color options in
  falsy (Path.width num Color self) = false
  /\ falsy (Path.height num Color self) = false
  /\ (forall n, Path.o_width num Color options = Some n ->
                falsy n = false -> Path.width num Color self = n)
  /\ (forall n, Path.o_height num Color options = Some n ->
                falsy n = false -> Path.height num Color self = n)
  /\ (Path.o_x num Color options = None -> Path.x num Color self = zero)
  /\ (Path.o_y num Color options = None -> Path.y num Color self = zero).
Proof.
  intros Hone. cbv zeta. unfold Path.constructor, Path.or_default.
  cbn [Path.width Path.height Path.x Path.y].
  repeat split.
  - destruct (Path.o_width num Color options) as [n|]; [|exact Hone].
    destruct (falsy n) eqn:E; assumption.
  - destruct (Path.o_height num Color options) as [n|]; [|exact Hone].
    destruct (falsy n) eqn:E; assumption.
  - intros n -> Hn. now rewrite Hn.
  - intros n -> Hn. now rewrite Hn.
  - now intros ->.
  - now intros ->.
Qed.

Lemma constructor_sizes_truthy_witness :
  let options :=
    Path.mkOptions Z unit None None (Some 0) (Some 4) tt "M0 0 L4 4" in
  let self := Path.constructor Z (Z.eqb 0) 0 1 unit options in
  (0 =? Path.width Z unit self) = false
  /\ (0 =? Path.height Z unit self) = false
  /\ (forall n, Path.o_width Z unit options = Some n ->
                (0 =? n) = false -> Path.width Z unit self = n)
  /\ (forall n, Path.o_height Z unit options = Some n ->
                (0 =? n) = false -> Path.height Z unit self = n)
  /\ (Path.o_x Z unit options = None -> Path.x Z unit self = 0)
  /\ (Path.o_y Z unit options = None -> Path.y Z unit self = 0).
Proof.
  exact (constructor_sizes_truthy Z (Z.eqb 0) 0 1 unit
           (Path.mkOptions Z unit None None (Some 0) (Some 4) tt
              "M0 0 L4 4") eq_refl).
Defined.

(* ------------------------------------------------------------------ *)
(** ** The scheduler while playing *)

(** One invocation of [run] on a playing session with begin sent: the
    batch, its response, and the call of the next invocation. *)
Lemma streaming_step (w : World) (c : Socket) (frame : list IPoint.t)
  (ack : list Z) :
  running (self w) = true ->
  client (self w) = Some c -> quiet w ->
  playback_state (self w) <> PLAYBACK_IDLE ->
  beginsent (self w) = true ->
  length ack = STANDARD_RESPONSE_SIZE -> flags_of ack <> 2 ->
  drive [ack] (run (returning frame w))
  = Done
      (answered c
         (sendPoints_cmd
            (splice0 frame (padded_capacity (fullness (self w)))))
         ack (returning frame w))
      Recurse.
Proof.
  intros Hrun Hc Hq Hst Hb Hlen Hf.
  set (w0 := returning frame w).
  assert (Hq0 : quiet w0) by exact Hq.
  assert (Hc0 : client (self w0) = Some c) by exact Hc.
  unfold drive. cbn [fold_left].
  rewrite (run_playing w0 (fun _ => frame) Hrun eq_refl Hst).
  rewrite (run_batch_sent w0 c frame Hc0 Hq0).
  rewrite (deliver_answered w0 c Hc0 Hq0) by exact Hlen.
  change (fullness (self w0)) with (fullness (self w)).
  rewrite after_points_skip; [reflexivity|].
  right. rewrite answered_beginsent.
  change (beginsent (self w0)) with (beginsent (self w)). rewrite Hb.
  now destruct (Z.eqb_spec (flags_of ack) 2).
Qed.

(** X21: a playing session streams one batch for each response.  With begin
    sent, while the responses report neither idle nor an underrun, each
    invocation of [run] writes one batch, cut from the frame that the source
    returns at this invocation with the fullness of the response before,
    and calls the next invocation when the response is in; nothing else is
    written: no prepare and no begin, whether or not the responses
    acknowledge the batches.  This holds whatever the source returns from
    call to call, also for one that hands back the array emptied by the
    invocation before. *)
Theorem streams_one_batch_per_response (c : Socket)
  (steps : list (list IPoint.t * list Z)) :
  forall w : World,
    running (self w) = true ->
    client (self w) = Some c -> quiet w ->
    playback_state (self w) <> PLAYBACK_IDLE ->
    beginsent (self w) = true ->
    Forall (fun step => keeps_playing (snd step)) steps ->
    exists w',
      stream steps w = Done w' Recurse
      /\ trace w'
         = trace w ++ streamed c (next_promise w) (fullness (self w)) steps
      /\ beginsent (self w') = true
      /\ quiet w'.
Proof.
  induction steps as [|[frame ack] steps IH]; intros w Hrun Hc Hq Hst Hb Hall.
  - exists w. cbn [stream streamed]. rewrite app_nil_r. repeat split; auto;
      apply Hq.
  - inversion Hall as [|? ? (Hlen & Hf & Hp) Hrest]; subst.
    cbn [snd] in Hlen, Hf, Hp. cbn [stream].
    rewrite (streaming_step w c frame ack Hrun Hc Hq Hst Hb Hlen Hf).
    set (w1 := answered c
                 (sendPoints_cmd
                    (splice0 frame (padded_capacity (fullness (self w)))))
                 ack (returning frame w)).
    destruct (IH w1) as (w' & Ew & Et & Eb & Eq).
    + subst w1. unfold answered. cbn [self]. now rewrite handle_running.
    + subst w1. now rewrite answered_client.
    + now apply answered_quiet.
    + subst w1. unfold answered. cbn [self].
      now rewrite handle_playback_state.
    + subst w1. rewrite answered_beginsent.
      change (beginsent (self (returning frame w)))
        with (beginsent (self w)).
      rewrite Hb. now destruct (Z.eqb_spec (flags_of ack) 2).
    + exact Hrest.
    + exists w'. split; [exact Ew|]. split; [|now split].
      rewrite Et. subst w1.
      rewrite answered_trace, answered_fullness, <- app_assoc.
      cbn [streamed app]. unfold answered. cbn [next_promise].
      now rewrite sendPoints_cmd_message, write_samples_message_bytes.
Qed.

(** A source that hands back the same array: four points at the first
    call, none at the second, the first invocation having taken them. *)
Lemma streams_one_batch_per_response_witness :
  exists w',
    stream [([sample_point; sample_point; sample_point; sample_point],
             response_bytes 97 2 0 4 0);
            ([], response_bytes 97 2 0 4 0)]
      (sample_world 2 0 true)
    = Done w' Recurse
    /\ trace w'
       = trace (sample_world 2 0 true)
         ++ [Written 7%nat
               (write_samples_message
                  [sample_point; sample_point; sample_point; sample_point]);
             Invoked 0%nat (response_bytes 97 2 0 4 0);
             Written 7%nat (write_samples_message []);
             Invoked 1%nat (response_bytes 97 2 0 4 0)]
    /\ beginsent (self w') = true
    /\ quiet w'.
Proof.
  apply (streams_one_batch_per_response 7%nat
           [([sample_point; sample_point; sample_point; sample_point],
             response_bytes 97 2 0 4 0);
            ([], response_bytes 97 2 0 4 0)]
           (sample_world 2 0 true) eq_refl eq_refl
           (conj eq_refl eq_refl)).
  - discriminate.
  - reflexivity.
  - repeat constructor; discriminate.
Defined.
